(** * A shallow embedding of [my_bot.py] (class [ChessComBot])

    The bot asks a UCI engine for a move, tries to play it on a web page
    through Selenium, and mirrors the game on an internal [chess.Board].

    What is modelled, and how:
    - Python exceptions: a computation returns [Ok v] or [Raise e]; the two
      kinds that the source tells apart are [Exception] (caught by
      [except Exception]) and [KeyboardInterrupt] (not caught by it).
    - The browser, the engine, the clock and the file system are an
      environment [Env]: one oracle per call the source makes, each a function
      of the [History] of calls made so far, so that an environment can answer
      differently each time. Every call is recorded in the history.
    - [self.logger] is a list of records; a message carries the values that
      the source interpolates in it.
    - The sizes of the board are doubles, as the browser has them, and the
      arithmetic on them is Python's: every operation rounds its exact
      result to the nearest double; [int(...)] truncates towards zero.
    - A [chess.Board()] that is only ever changed by [push] is determined by
      its move stack, so a board is the list of the moves pushed so far; the
      rules of chess ([is_game_over], [result], [san], legality) are
      parameters [Rules].
    - [time.sleep] changes nothing and is left out. *)

From Stdlib Require Import List String Ascii Bool ZArith NArith QArith Qround Qabs Qpower Lia Lqa.
Import ListNotations.
Local Open Scope string_scope.
Local Open Scope Z_scope.

(** ** Exceptions and results *)

Inductive Exn : Type :=
| Exception           (* anything an [except Exception] clause catches *)
| KeyboardInterrupt.  (* a BaseException: passes through [except Exception] *)

Inductive Result (A : Type) : Type :=
| Ok (a : A)
| Raise (e : Exn).

Arguments Ok {A} a.
Arguments Raise {A} e.

(** ** Python's floats

    A Python [float] is an IEEE 754 double (53 bits of mantissa, exponents
    from -1074, infinities and a not-a-number). It is modelled by its value:
    a rational for a finite float. The result of an operation is the exact
    result rounded to the nearest double, a tie going to the even mantissa,
    and an infinity when that is out of range. The sign of a zero is not
    kept: the bot never divides by a computed value, so no result depends
    on it. *)

Module pyfloat.

(** [2^e] *)
Definition pow2 (e : Z) : Q := (2 ^ e)%Q.

(** The exponent [k] with [2^(k-1) <= q < 2^k], for [q] above 0. *)
Definition magnitude (q : Q) : Z :=
  let l := Z.log2 (Qnum q) - Z.log2 (Zpos (Qden q)) in
  if Qle_bool (pow2 l) q then l + 1 else l.

(** The exponent of the unit in the last place of the doubles around [q]:
    53 bits of mantissa, and no exponent below -1074. *)
Definition ulp_exponent (q : Q) : Z := Z.max (magnitude q - 53) (-1074).

(** The integer nearest to [t], the even one of the two when [t] is half way. *)
Definition nearest_even (t : Q) : Z :=
  let below := Qfloor t in
  match (t - inject_Z below ?= 1 # 2)%Q with
  | Lt => below
  | Gt => below + 1
  | Eq => if Z.even below then below else below + 1
  end.

(** The double nearest to a [q] that is not negative, were there no largest
    double. *)
Definition round_magnitude (q : Q) : Q :=
  let e := ulp_exponent q in
  (inject_Z (nearest_even (q / pow2 e)) * pow2 e)%Q.

Definition negative (q : Q) : bool := (Qnum q <? 0)%Z.

(** The same for any [q]: a double is a sign and a magnitude. *)
Definition round (q : Q) : Q :=
  if negative q then (- round_magnitude (- q))%Q else round_magnitude q.

Inductive float : Type :=
| finite (q : Q)
| inf (negative : bool)
| nan.

(** The float that an exact result [q] gives. *)
Definition to_float (q : Q) : float :=
  let r := round q in
  if Qle_bool (pow2 1024) (Qabs r) then inf (negative q) else finite r.

(** [x * y] *)
Definition mul (x y : float) : float :=
  match x, y with
  | nan, _ | _, nan => nan
  | finite a, finite b => to_float (a * b)
  | inf s, finite b => if Qeq_bool b 0 then nan else inf (xorb s (negative b))
  | finite a, inf s => if Qeq_bool a 0 then nan else inf (xorb (negative a) s)
  | inf s, inf t => inf (xorb s t)
  end.

(** [x + y] *)
Definition add (x y : float) : float :=
  match x, y with
  | nan, _ | _, nan => nan
  | finite a, finite b => to_float (a + b)
  | inf s, finite _ | finite _, inf s => inf s
  | inf s, inf t => if Bool.eqb s t then inf s else nan
  end.

(** [x / y]; [None] is the ZeroDivisionError. *)
Definition div (x y : float) : option float :=
  match y with
  | nan => Some nan
  | inf t =>
      Some match x with
           | finite _ => finite 0
           | _ => nan
           end
  | finite b =>
      if Qeq_bool b 0 then None
      else Some match x with
                | finite a => to_float (a / b)
                | inf s => inf (xorb s (negative b))
                | nan => nan
                end
  end.

(** [float(n)] for an [int], as the arithmetic converts an [int] operand;
    [None] is the OverflowError of an [int] too large for a float. *)
Definition of_int (n : Z) : option float :=
  match to_float (inject_Z n) with
  | inf _ => None
  | x => Some x
  end.

(** [n * x] for an [int] and a [float] *)
Definition int_mul (n : Z) (x : float) : option float :=
  option_map (fun y => mul y x) (of_int n).

(** [x / n] for a [float] and an [int] *)
Definition div_int (x : float) (n : Z) : option float :=
  match of_int n with
  | Some y => div x y
  | None => None
  end.

(** A finite double, as a browser has its numbers: a mantissa of 53 bits and
    an exponent. *)
Definition is_double (m e : Z) : bool :=
  ((Z.abs m <? 2 ^ 53) && (-1074 <=? e) && (e <=? 971))%Z.

Record double : Type := {
  mantissa : Z;
  exponent : Z;
  double_ok : is_double mantissa exponent = true
}.

Definition value (d : double) : Q := (inject_Z (mantissa d) * pow2 (exponent d))%Q.

Definition zero : double := {| mantissa := 0; exponent := 0; double_ok := eq_refl |}.

(** The double [m * 2^e]; 0 when there is no such double. *)
Definition make (m e : Z) : double :=
  match is_double m e as b return is_double m e = b -> double with
  | true => fun ok => {| mantissa := m; exponent := e; double_ok := ok |}
  | false => fun _ => zero
  end eq_refl.

(** A whole number of pixels. *)
Definition pixels (n : Z) : double := make n 0.

End pyfloat.

Coercion pyfloat.value : pyfloat.double >-> Q.

(** ** The parts of python-chess that the bot uses *)

Module chess.

(** A square is an integer, 0 (a1) to 63 (h8). *)
Definition Square := N.

Inductive PieceType : Type := PAWN | KNIGHT | BISHOP | ROOK | QUEEN | KING.

Record Move : Type := mkMove {
  from_square : Square;
  to_square : Square;
  promotion : option PieceType
}.

Definition FILE_NAMES : list string := ["a"; "b"; "c"; "d"; "e"; "f"; "g"; "h"].
Definition RANK_NAMES : list string := ["1"; "2"; "3"; "4"; "5"; "6"; "7"; "8"].

Definition square_file (sq : Square) : N := N.land sq 7.
Definition square_rank (sq : Square) : N := N.shiftr sq 3.

(** [FILE_NAMES[square_file(sq)] + RANK_NAMES[square_rank(sq)]]; [None] is
    the IndexError of a square above 63. *)
Definition square_name (sq : Square) : option string :=
  match nth_error FILE_NAMES (N.to_nat (square_file sq)),
        nth_error RANK_NAMES (N.to_nat (square_rank sq)) with
  | Some f, Some r => Some (f ++ r)
  | _, _ => None
  end.

Definition piece_symbol (p : PieceType) : string :=
  match p with
  | PAWN => "p" | KNIGHT => "n" | BISHOP => "b"
  | ROOK => "r" | QUEEN => "q" | KING => "k"
  end.

(** [Move.__bool__]: the null move is falsy. *)
Definition Move_bool (m : Move) : bool :=
  negb (N.eqb (from_square m) 0 && N.eqb (to_square m) 0
        && match promotion m with None => true | Some _ => false end).

(** [Move.uci()], which is also [str(move)]. *)
Definition uci (m : Move) : option string :=
  if Move_bool m then
    match square_name (from_square m), square_name (to_square m) with
    | Some f, Some t =>
        Some (f ++ t ++ match promotion m with
                        | Some p => piece_symbol p
                        | None => ""
                        end)
    | _, _ => None
    end
  else Some "0000".

(** A board started at the initial position is its move stack. *)
Definition Board := list Move.
Definition initial : Board := [].
Definition push (b : Board) (m : Move) : Board := (b ++ [m])%list.
(** [board.turn]: [true] is White. *)
Definition turn (b : Board) : bool := Nat.even (List.length b).

(** The rules of chess, as python-chess decides them. *)
Record Rules : Type := {
  is_game_over : Board -> bool;
  result : Board -> string;
  san : Board -> Move -> option string;   (* [None]: [san] raises *)
  is_legal : Board -> Move -> bool
}.

End chess.

(** Truthiness of an [Optional[Move]], as in [if result.move:]. *)
Definition truthy (om : option chess.Move) : bool :=
  match om with
  | Some m => chess.Move_bool m
  | None => false
  end.

(** ** The environment: Selenium, the engine, the clock, the file system *)

Definition Handle := nat.   (* a WebElement *)

(** A step queued on an [ActionChains]. *)
Inductive Action : Type :=
| move_to_element_with_offset (el : Handle) (x y : Z)
| click_and_hold
| pause (seconds : Q)
| release
| send_keys (keys : string)
| send_keys_ENTER.

Record MoveEntry : Type := {
  timestamp : string;
  move : chess.Move;         (* rendered with [str(move)] when it is written *)
  from : string;
  to : string;
  method : string
}.

(** One call to the outside world. *)
Inductive Cmd : Type :=
| find_wc_chess_board                            (* driver.find_element(By.TAG_NAME, "wc-chess-board") *)
| get_rect (el : Handle)                         (* board_element.rect *)
| scroll_into_view (el : Handle)                 (* driver.execute_script("arguments[0].scrollIntoView(..)", el) *)
| run_move_script (fromSquare toSquare : string) (* driver.execute_script(js_code) *)
| perform (steps : list Action)                  (* actions.perform() *)
| click (el : Handle)                            (* board.click() *)
| engine_play (b : chess.Board) (time : Q)       (* self.engine.play(board, Limit(time=..)) *)
| json_dump (entries : list MoveEntry).          (* open(filename, 'w'); json.dump(self.move_log, f) *)

(** Calls made so far, the most recent first. *)
Definition History := list Cmd.

(** [find_element] answers [Ok None] for an element that is falsy, which the
    source tests for ([if not board_element], [if board]), and raises when
    there is no such element. *)
Record Env : Type := {
  find_element : History -> Result (option Handle);
  rect : History -> Handle -> Result (pyfloat.double * pyfloat.double);   (* width, height *)
  execute_scroll : History -> Handle -> Result unit;
  execute_move_script : History -> string -> string -> Result bool;  (* truthiness of the value returned *)
  perform_actions : History -> list Action -> Result unit;
  element_click : History -> Handle -> Result unit;
  play : History -> chess.Board -> Q -> Result (option chess.Move);   (* result.move *)
  now_isoformat : History -> string;
  write_json : History -> list MoveEntry -> Result unit
}.

(** ** Log records *)

Inductive Level : Type := DEBUG | INFO | WARNING | ERROR.

Inductive Msg : Type :=
(* find_square_by_position, get_square_center_coordinates *)
| Error_finding_square_by_position (square : string)
| Square_offset (square : string) (x_offset y_offset : pyfloat.float)
| Error_calculating_coordinates
(* execute_move_with_drag_drop *)
| Executing_move_via_drag_drop (from_square to_square : string)
| Could_not_find_square_elements
| Invalid_coordinates_calculated
| Drag_drop_move_completed (m : chess.Move)
| Drag_drop_move_failed (m : chess.Move)
(* execute_move_with_javascript *)
| Executing_move_via_JavaScript (from_square to_square : string)
| JavaScript_move_executed_successfully (m : chess.Move)
| JavaScript_move_execution_returned_false
| JavaScript_move_failed (m : chess.Move)
(* execute_move_with_keyboard *)
| Executing_move_via_keyboard (from_square to_square : string)
| Keyboard_move_executed (m : chess.Move)
| Keyboard_move_failed (m : chess.Move)
(* calculate_best_move *)
| Game_is_over_no_moves_to_calculate
| Calculated_best_move (m : chess.Move)
| Engine_returned_no_move
| Move_calculation_failed
(* execute_move *)
| Executing_move (from_square to_square : string)
| Trying_method (method_name : string)
| Move_executed_successfully_with (method_name : string) (m : chess.Move)
| Method_failed (method_name : string)
| All_move_execution_methods_failed (m : chess.Move)
| Failed_to_execute_move (m : chess.Move)
(* save_move_log *)
| Move_log_saved
| Failed_to_save_move_log
(* play_game_loop *)
| Starting_game (max_moves : Z)
| Game_Over_White_wins
| Game_Over_Black_wins
| Game_Over_Draw
| Game_Over (result : string)
| To_play (move_number : Z) (white : bool)
| Could_not_calculate_move_skipping_turn
| Successfully_played_move_san (moves_played : Z) (san_move : string) (m : chess.Move)
| Successfully_played_move (moves_played : Z) (m : chess.Move)
| Position_after (moves_played : Z) (b : chess.Board)
| Move_execution_failed_retrying
| Too_many_move_execution_failures_stopping
| Game_loop_interrupted_by_user
| Error_in_game_loop
| Game_completed (moves_played : Z)
| Final_position (b : chess.Board)
| No_moves_were_played.

Definition LogRecord : Type := Level * Msg.

(** ** The bot object *)

Record Bot : Type := {
  log_moves : bool;               (* self.log_moves *)
  move_log : list MoveEntry;      (* self.move_log, in append order *)
  history : History;              (* calls made, most recent first *)
  logger : list LogRecord         (* self.logger output, most recent first *)
}.

Definition new_bot (log_moves : bool) : Bot :=
  {| log_moves := log_moves; move_log := []; history := []; logger := [] |}.

(** ** Computations on the bot that may raise *)

Definition M (A : Type) : Type := Bot -> Result A * Bot.

Definition ret {A} (a : A) : M A := fun s => (Ok a, s).

Definition raise {A} (e : Exn) : M A := fun s => (Raise e, s).

Definition bind {A B} (c : M A) (k : A -> M B) : M B :=
  fun s =>
    match c s with
    | (Ok a, s') => k a s'
    | (Raise e, s') => (Raise e, s')
    end.

Notation "x <- c ;; k" := (bind c (fun x => k))
  (at level 61, c at next level, right associativity).
Notation "c ;;; k" := (bind c (fun _ => k))
  (at level 61, right associativity).

(** [try: body except Exception: handler]. *)
Definition try_except {A} (body handler : M A) : M A :=
  fun s =>
    match body s with
    | (Raise Exception, s') => handler s'
    | r => r
    end.

(** A Python operation that raises an [Exception] where the model has [None]. *)
Definition or_raise {A} (o : option A) : M A :=
  match o with
  | Some a => ret a
  | None => raise Exception
  end.

Definition logging (lvl : Level) (msg : Msg) (s : Bot) : Bot :=
  {| log_moves := log_moves s; move_log := move_log s;
     history := history s; logger := (lvl, msg) :: logger s |}.

Definition log (lvl : Level) (msg : Msg) : M unit :=
  fun s => (Ok tt, logging lvl msg s).

(** The bot once call [c] has been made. *)
Definition called (c : Cmd) (s : Bot) : Bot :=
  {| log_moves := log_moves s; move_log := move_log s;
     history := c :: history s; logger := logger s |}.

(** A call to the outside world: the oracle answers from the history, and
    the call is recorded. *)
Definition call {A} (c : Cmd) (oracle : History -> Result A) : M A :=
  fun s => (oracle (history s), called c s).

(** [self.move_log.append(e)] *)
Definition appended (e : MoveEntry) (s : Bot) : Bot :=
  {| log_moves := log_moves s; move_log := (move_log s ++ [e])%list;
     history := history s; logger := logger s |}.

Definition append_move_log (e : MoveEntry) : M unit :=
  fun s => (Ok tt, appended e s).

Definition get_log_moves : M bool := fun s => (Ok (log_moves s), s).
Definition get_move_log : M (list MoveEntry) := fun s => (Ok (move_log s), s).

(** ** Python built-ins *)

Definition ord (c : ascii) : Z := Z.of_nat (nat_of_ascii c).

(** [int(c)] on a one-character string: [None] is the ValueError. *)
Definition int_of_char (c : ascii) : option Z :=
  if (48 <=? ord c) && (ord c <=? 57) then Some (ord c - 48) else None.

(** [int(x)] on the value of a finite float: truncation towards zero. *)
Definition int (x : Q) : Z := Z.quot (Qnum x) (Zpos (Qden x)).

(** [int(x)] on a float: [None] is the OverflowError of an infinity and the
    ValueError of a not-a-number. *)
Definition int_of_float (x : pyfloat.float) : option Z :=
  match x with
  | pyfloat.finite q => Some (int q)
  | _ => None
  end.

(** ** The bot's methods *)

(** What [find_square_by_position] returns (a dict in the source). *)
Record SquareInfo : Type := {
  element : Handle;
  file_index : Z;
  rank_index : Z;
  square : string
}.

Inductive Ctl : Type :=
| Continue   (* go on to the next test of the [while] condition *)
| Break.     (* leave the loop *)

Inductive Status : Type :=
| Running    (* the fuel ran out inside the loop *)
| Exited.    (* the loop was left *)

(** The local variables of [play_game_loop]. *)
Record Locals : Type := {
  moves_played : Z;
  consecutive_failures : Z;
  current_board : chess.Board
}.

Definition max_failures : Z := 3.

Section Bot.

Variable rules : chess.Rules.
Variable env : Env.

(** [datetime.now().isoformat()] *)
Definition now : M string := fun s => (Ok (now_isoformat env (history s)), s).

Definition find_square_by_position (square : string) : M (option SquareInfo) :=
  try_except
    (board_element <- call find_wc_chess_board (find_element env) ;;
     match board_element with
     | None => ret None
     | Some el =>
         file_char <- or_raise (String.get 0 square) ;;
         rank_char <- or_raise (String.get 1 square) ;;
         let file_index := ord file_char - ord "a" in
         rank_number <- or_raise (int_of_char rank_char) ;;
         let rank_index := rank_number - 1 in
         ret (Some {| element := el; file_index := file_index;
                      rank_index := rank_index; square := square |})
     end)
    (log ERROR (Error_finding_square_by_position square) ;;;
     ret None).

(** The sizes in [rect] are the browser's doubles; Python holds them as a
    [float], or as an [int] of the same value, which the first division
    turns into the same [float]. *)
Definition get_square_center_coordinates (square_info : SquareInfo) : M (Z * Z) :=
  try_except
    (let board_element := element square_info in
     let file_index := file_index square_info in
     let rank_index := rank_index square_info in
     r <- call (get_rect board_element) (fun h => rect env h board_element) ;;
     let board_width := pyfloat.finite (fst r) in
     let board_height := pyfloat.finite (snd r) in
     square_width <- or_raise (pyfloat.div_int board_width 8) ;;
     square_height <- or_raise (pyfloat.div_int board_height 8) ;;
     across <- or_raise (pyfloat.int_mul file_index square_width) ;;
     half_width <- or_raise (pyfloat.div_int square_width 2) ;;
     let x_offset := pyfloat.add across half_width in
     down <- or_raise (pyfloat.int_mul (7 - rank_index) square_height) ;;
     half_height <- or_raise (pyfloat.div_int square_height 2) ;;
     let y_offset := pyfloat.add down half_height in
     log DEBUG (Square_offset (square square_info) x_offset y_offset) ;;;
     x <- or_raise (int_of_float x_offset) ;;
     y <- or_raise (int_of_float y_offset) ;;
     ret (x, y))
    (log ERROR Error_calculating_coordinates ;;;
     ret (0, 0)).

Definition execute_move_with_drag_drop (move : chess.Move) : M bool :=
  try_except
    (from_square <- or_raise (chess.square_name (chess.from_square move)) ;;
     to_square <- or_raise (chess.square_name (chess.to_square move)) ;;
     log INFO (Executing_move_via_drag_drop from_square to_square) ;;;
     from_square_info <- find_square_by_position from_square ;;
     to_square_info <- find_square_by_position to_square ;;
     match from_square_info, to_square_info with
     | Some from_square_info, Some to_square_info =>
         let board_element := element from_square_info in
         from_xy <- get_square_center_coordinates from_square_info ;;
         to_xy <- get_square_center_coordinates to_square_info ;;
         let '(from_x, from_y) := from_xy in
         let '(to_x, to_y) := to_xy in
         if (from_x =? 0) || (to_x =? 0) then
           log ERROR Invalid_coordinates_calculated ;;;
           ret false
         else
           call (scroll_into_view board_element)
                (fun h => execute_scroll env h board_element) ;;;
           let actions :=
             [ move_to_element_with_offset board_element from_x from_y;
               click_and_hold;
               pause (1 # 10);
               move_to_element_with_offset board_element to_x to_y;
               pause (1 # 10);
               release ] in
           call (perform actions) (fun h => perform_actions env h actions) ;;;
           log INFO (Drag_drop_move_completed move) ;;;
           ret true
     | _, _ =>
         log ERROR Could_not_find_square_elements ;;;
         ret false
     end)
    (log ERROR (Drag_drop_move_failed move) ;;;
     ret false).

Definition execute_move_with_javascript (move : chess.Move) : M bool :=
  try_except
    (from_square <- or_raise (chess.square_name (chess.from_square move)) ;;
     to_square <- or_raise (chess.square_name (chess.to_square move)) ;;
     log INFO (Executing_move_via_JavaScript from_square to_square) ;;;
     result <- call (run_move_script from_square to_square)
                    (fun h => execute_move_script env h from_square to_square) ;;
     if result : bool then
       log INFO (JavaScript_move_executed_successfully move) ;;;
       ret true
     else
       log DEBUG JavaScript_move_execution_returned_false ;;;
       ret false)
    (log ERROR (JavaScript_move_failed move) ;;;
     ret false).

Definition execute_move_with_keyboard (move : chess.Move) : M bool :=
  try_except
    (from_square <- or_raise (chess.square_name (chess.from_square move)) ;;
     to_square <- or_raise (chess.square_name (chess.to_square move)) ;;
     log INFO (Executing_move_via_keyboard from_square to_square) ;;;
     board <- call find_wc_chess_board (find_element env) ;;
     match board with
     | Some board =>
         call (click board) (fun h => element_click env h board) ;;;
         let move_notation := from_square ++ to_square in
         let actions := [ send_keys move_notation; send_keys_ENTER ] in
         call (perform actions) (fun h => perform_actions env h actions) ;;;
         log INFO (Keyboard_move_executed move) ;;;
         ret true
     | None => ret false
     end)
    (log ERROR (Keyboard_move_failed move) ;;;
     ret false).

Definition calculate_best_move (board : chess.Board) (time_limit : Q)
  : M (option chess.Move) :=
  try_except
    (if chess.is_game_over rules board then
       log INFO Game_is_over_no_moves_to_calculate ;;;
       ret None
     else
       result_move <- call (engine_play board time_limit)
                           (fun h => play env h board time_limit) ;;
       if truthy result_move then
         match result_move with
         | Some m => log INFO (Calculated_best_move m) ;;; ret (Some m)
         | None => ret None
         end
       else
         log WARNING Engine_returned_no_move ;;;
         ret None)
    (log ERROR Move_calculation_failed ;;;
     ret None).

(** The strategies, in the order of the source's [methods] list. *)
Definition methods : list (string * (chess.Move -> M bool)) :=
  [ ("drag_drop", execute_move_with_drag_drop);
    ("javascript", execute_move_with_javascript);
    ("keyboard", execute_move_with_keyboard) ].

(** The [for method_name, method_func in methods] loop of [execute_move],
    with what follows it. The body yields [Some b] for [return b] and
    [None] to go on with the next method. *)
Fixpoint for_methods (ms : list (string * (chess.Move -> M bool)))
    (move : chess.Move) (from_square to_square : string) : M bool :=
  match ms with
  | [] =>
      log ERROR (All_move_execution_methods_failed move) ;;;
      ret false
  | (method_name, method_func) :: rest =>
      returned <-
        try_except
          (log INFO (Trying_method method_name) ;;;
           done <- method_func move ;;
           if done : bool then
             enabled <- get_log_moves ;;
             (if enabled : bool then
                stamp <- now ;;
                append_move_log {| timestamp := stamp; move := move;
                                   from := from_square; to := to_square;
                                   method := method_name |}
              else ret tt) ;;;
             log INFO (Move_executed_successfully_with method_name move) ;;;
             ret (Some true)
           else ret None)
          (log DEBUG (Method_failed method_name) ;;;
           ret None) ;;
      match returned with
      | Some b => ret b
      | None => for_methods rest move from_square to_square
      end
  end.

Definition execute_move (move : chess.Move) : M bool :=
  try_except
    (from_square <- or_raise (chess.square_name (chess.from_square move)) ;;
     to_square <- or_raise (chess.square_name (chess.to_square move)) ;;
     log INFO (Executing_move from_square to_square) ;;;
     for_methods methods move from_square to_square)
    (log ERROR (Failed_to_execute_move move) ;;;
     ret false).

Definition save_move_log : M unit :=
  entries <- get_move_log ;;
  match entries with
  | [] => ret tt
  | _ :: _ =>
      try_except
        (call (json_dump entries) (fun h => write_json env h entries) ;;;
         log INFO Move_log_saved)
        (log ERROR Failed_to_save_move_log)
  end.

End Bot.

(** ** The game loop *)

Section GameLoop.

Variable rules : chess.Rules.
Variable env : Env.

Definition set_consecutive_failures (n : Z) (l : Locals) : Locals :=
  {| moves_played := moves_played l; consecutive_failures := n;
     current_board := current_board l |}.

(** The two [except] clauses of the loop body; [l] holds the locals as
    they are when the exception arrives. *)
Definition on_exception (e : Exn) (l : Locals) (s : Bot) : Ctl * Locals * Bot :=
  match e with
  | KeyboardInterrupt =>
      (Break, l, logging INFO Game_loop_interrupted_by_user s)
  | Exception =>
      let s := logging ERROR Error_in_game_loop s in
      let l := set_consecutive_failures (consecutive_failures l + 1) l in
      if consecutive_failures l >=? max_failures then (Break, l, s)
      else (Continue, l, s)
  end.

(** The message of the [if result == ...] chain. *)
Definition game_over_message (result : string) : Msg :=
  if String.eqb result "1-0" then Game_Over_White_wins
  else if String.eqb result "0-1" then Game_Over_Black_wins
  else if String.eqb result "1/2-1/2" then Game_Over_Draw
  else Game_Over result.

(** [self.logger.error("Could not calculate move, skipping turn"); continue] *)
Definition skip_turn (l : Locals) (s : Bot) : Ctl * Locals * Bot :=
  (Continue, l, logging ERROR Could_not_calculate_move_skipping_turn s).

(** What follows a successful [execute_move(best_move)]. *)
Definition played (best_move : chess.Move) (l : Locals) (s : Bot)
  : Ctl * Locals * Bot :=
  let moves_played' := moves_played l + 1 in
  let board' := chess.push (current_board l) best_move in
  let l' := {| moves_played := moves_played';
               consecutive_failures := consecutive_failures l;
               current_board := board' |} in
  (* temp_board = current_board.copy(); temp_board.pop(); temp_board.san(best_move) *)
  let s := match chess.san rules (current_board l) best_move with
           | Some san_move =>
               logging INFO (Successfully_played_move_san moves_played' san_move best_move) s
           | None =>
               logging INFO (Successfully_played_move moves_played' best_move) s
           end in
  let s := if moves_played' mod 10 =? 0
           then logging INFO (Position_after moves_played' board') s
           else s in
  (Continue, l', s).

(** The [else] branch of [if self.execute_move(best_move)]. *)
Definition not_played (l : Locals) (s : Bot) : Ctl * Locals * Bot :=
  let s := logging ERROR Move_execution_failed_retrying s in
  let l := set_consecutive_failures (consecutive_failures l + 1) l in
  if consecutive_failures l >=? max_failures then
    (Break, l, logging ERROR Too_many_move_execution_failures_stopping s)
  else (Continue, l, s).

(** One pass through the body of [while moves_played < max_moves]. *)
Definition loop_body (l : Locals) (s : Bot) : Ctl * Locals * Bot :=
  if chess.is_game_over rules (current_board l) then
    let result := chess.result rules (current_board l) in
    (Break, l, logging INFO (game_over_message result) s)
  else
    (* Reset failure counter on successful iteration start *)
    let l := set_consecutive_failures 0 l in
    let s := logging INFO (To_play (moves_played l + 1)
                                   (chess.turn (current_board l))) s in
    match calculate_best_move rules env (current_board l) 2 s with
    | (Raise e, s) => on_exception e l s
    | (Ok best_move, s) =>
        if negb (truthy best_move) then skip_turn l s
        else
          match best_move with
          | None => skip_turn l s
          | Some best_move =>
              match execute_move env best_move s with
              | (Raise e, s) => on_exception e l s
              | (Ok true, s) => played best_move l s
              | (Ok false, s) => not_played l s
              end
          end
    end.

(** The [while] loop, run for at most [fuel] passes. *)
Fixpoint while_loop (fuel : nat) (max_moves : Z) (l : Locals) (s : Bot)
  : Status * Locals * Bot :=
  if moves_played l <? max_moves then
    match fuel with
    | O => (Running, l, s)
    | S fuel' =>
        match loop_body l s with
        | (Break, l', s') => (Exited, l', s')
        | (Continue, l', s') => while_loop fuel' max_moves l' s'
        end
    end
  else (Exited, l, s).

Definition initial_locals : Locals :=
  {| moves_played := 0; consecutive_failures := 0;
     current_board := chess.initial |}.

(** The final game summary. *)
Definition summary (l : Locals) (s : Bot) : Bot :=
  if moves_played l >? 0 then
    logging INFO (Final_position (current_board l))
      (logging INFO (Game_completed (moves_played l)) s)
  else logging INFO No_moves_were_played s.

(** [play_game_loop]: [None] when [fuel] passes were not enough for the
    loop to be left. The locals are returned with the bot so that
    statements can speak about the final board. *)
Definition play_game_loop (fuel : nat) (max_moves : Z) (s : Bot)
  : option (Locals * Bot) :=
  let s := logging INFO (Starting_game max_moves) s in
  match while_loop fuel max_moves initial_locals s with
  | (Exited, l, s) => Some (l, summary l s)
  | (Running, _, _) => None
  end.

End GameLoop.

(** ** Stub environments and rules, for concrete runs *)

Module Stub.

Definition e2e4 : chess.Move := chess.mkMove 12%N 28%N None.
Definition e7e5 : chess.Move := chess.mkMove 52%N 36%N None.
Definition h2h4 : chess.Move := chess.mkMove 15%N 31%N None.
Definition e7e8q : chess.Move := chess.mkMove 52%N 60%N (Some chess.QUEEN).

(** A page whose board element is found (or not), has the given size, and
    whose move script returns [script_result]; an engine that answers
    [engine b] on board [b]. Nothing else raises. *)
Definition sized (board_found : bool) (width height : pyfloat.double)
    (script_result : bool) (engine : chess.Board -> Result (option chess.Move)) : Env :=
  {| find_element := fun _ => if board_found then Ok (Some 1%nat) else Raise Exception;
     rect := fun _ _ => Ok (width, height);
     execute_scroll := fun _ _ => Ok tt;
     execute_move_script := fun _ _ _ => Ok script_result;
     perform_actions := fun _ _ => Ok tt;
     element_click := fun _ _ => Ok tt;
     play := fun _ b _ => engine b;
     now_isoformat := fun _ => "2024-01-01T00:00:00";
     write_json := fun _ _ => Ok tt |}.

(** The same with a size in whole pixels. *)
Definition env (board_found : bool) (width height : Z) (script_result : bool)
    (engine : chess.Board -> Result (option chess.Move)) : Env :=
  sized board_found (pyfloat.pixels width) (pyfloat.pixels height) script_result engine.

Definition g1f3 : chess.Move := chess.mkMove 6%N 21%N None.
Definition b8c6 : chess.Move := chess.mkMove 57%N 42%N None.

(** An engine that plays down a fixed line, one move per ply, and has no
    move once the line is over. *)
Definition line : list chess.Move := [e2e4; e7e5; g1f3; b8c6].
Definition engine (b : chess.Board) : Result (option chess.Move) :=
  Ok (nth_error line (List.length b)).

(** A page on which every strategy works. *)
Definition working_page : Env := env true 800 800 true engine.

(** A page without a board element and whose script returns false: every
    strategy reports failure. *)
Definition dead_page : Env := env false 800 800 false engine.

(** The engine process cannot be reached: [play] raises. *)
Definition broken_engine : Env :=
  env true 800 800 true (fun _ => Raise Exception).

(** The engine answers, with no move. *)
Definition silent_engine : Env :=
  env true 800 800 true (fun _ => Ok None).

(** Rules under which no game ever ends and a move is legal when it leaves
    its square. *)
Definition endless : chess.Rules :=
  {| chess.is_game_over := fun _ => false;
     chess.result := fun _ => "*";
     chess.san := fun _ _ => None;
     chess.is_legal := fun _ m =>
       negb (N.eqb (chess.from_square m) (chess.to_square m)) |}.

(** Rules under which the game is over, won by Black, after four plies. *)
Definition four_plies : chess.Rules :=
  {| chess.is_game_over := fun b => (4 <=? List.length b)%nat;
     chess.result := fun b => if (4 <=? List.length b)%nat then "0-1" else "*";
     chess.san := fun _ _ => None;
     chess.is_legal := fun _ m =>
       negb (N.eqb (chess.from_square m) (chess.to_square m)) |}.

Definition a1 : SquareInfo :=
  {| element := 1%nat; file_index := 0; rank_index := 0; square := "a1" |}.
Definition h8 : SquareInfo :=
  {| element := 1%nat; file_index := 7; rank_index := 7; square := "h8" |}.

End Stub.


(** * Vocabulary of the statements *)

(** ** Which method writes which log record *)

Inductive Origin : Type :=
| locator      (* find_square_by_position, get_square_center_coordinates *)
| drag_drop    (* execute_move_with_drag_drop *)
| javascript   (* execute_move_with_javascript *)
| keyboard     (* execute_move_with_keyboard *)
| advisor      (* calculate_best_move *)
| executor     (* execute_move *)
| saver        (* save_move_log *)
| game_loop.   (* play_game_loop *)

Definition origin (msg : Msg) : Origin :=
  match msg with
  | Error_finding_square_by_position _ | Square_offset _ _ _
  | Error_calculating_coordinates => locator
  | Executing_move_via_drag_drop _ _ | Could_not_find_square_elements
  | Invalid_coordinates_calculated | Drag_drop_move_completed _
  | Drag_drop_move_failed _ => drag_drop
  | Executing_move_via_JavaScript _ _ | JavaScript_move_executed_successfully _
  | JavaScript_move_execution_returned_false | JavaScript_move_failed _ => javascript
  | Executing_move_via_keyboard _ _ | Keyboard_move_executed _
  | Keyboard_move_failed _ => keyboard
  | Game_is_over_no_moves_to_calculate | Calculated_best_move _
  | Engine_returned_no_move | Move_calculation_failed => advisor
  | Executing_move _ _ | Trying_method _ | Move_executed_successfully_with _ _
  | Method_failed _ | All_move_execution_methods_failed _
  | Failed_to_execute_move _ => executor
  | Move_log_saved | Failed_to_save_move_log => saver
  | Starting_game _ | Game_Over_White_wins | Game_Over_Black_wins
  | Game_Over_Draw | Game_Over _ | To_play _ _
  | Could_not_calculate_move_skipping_turn
  | Successfully_played_move_san _ _ _ | Successfully_played_move _ _
  | Position_after _ _ | Move_execution_failed_retrying
  | Too_many_move_execution_failures_stopping | Game_loop_interrupted_by_user
  | Error_in_game_loop | Game_completed _ | Final_position _
  | No_moves_were_played => game_loop
  end.

Definition from_a_strategy (r : LogRecord) : bool :=
  match origin (snd r) with
  | locator | drag_drop | javascript | keyboard => true
  | _ => false
  end.

Definition from_execution (r : LogRecord) : bool :=
  match origin (snd r) with
  | locator | drag_drop | javascript | keyboard | executor => true
  | _ => false
  end.

(** A call to the browser, as opposed to the engine or the file system. *)
Definition to_the_browser (c : Cmd) : bool :=
  match c with
  | engine_play _ _ | json_dump _ => false
  | _ => true
  end.

(** ** What [execute_move] leaves in the log *)

Inductive ExecEvent : Type :=
| Tried (method_name : string)                       (* "Trying ... method..." *)
| Succeeded (method_name : string) (m : chess.Move). (* "Move executed successfully with ..." *)

Definition exec_event (r : LogRecord) : list ExecEvent :=
  match snd r with
  | Trying_method n => [Tried n]
  | Move_executed_successfully_with n m => [Succeeded n m]
  | _ => []
  end.

(** The execution events of a log (most recent record first), in the order
    in which they happened. *)
Fixpoint exec_events (records : list LogRecord) : list ExecEvent :=
  match records with
  | [] => []
  | r :: older => (exec_events older ++ exec_event r)%list
  end.

(** The methods tried, in order. *)
Fixpoint tried (evs : list ExecEvent) : list string :=
  match evs with
  | [] => []
  | Tried n :: rest => n :: tried rest
  | Succeeded _ _ :: rest => tried rest
  end.


(** The moves reported as executed, in order. *)
Fixpoint executed (evs : list ExecEvent) : list chess.Move :=
  match evs with
  | [] => []
  | Tried _ :: rest => executed rest
  | Succeeded _ m :: rest => m :: executed rest
  end.

(** The names of the three strategies, in priority order. *)
Definition method_names : list string := ["drag_drop"; "javascript"; "keyboard"].

(** The shapes that one run of the [for] loop over the methods named
    [names] can leave: the events, the winning method if any, the value
    returned. *)
Inductive chain (m : chess.Move)
  : list string -> list ExecEvent -> option string -> Result bool -> Prop :=
| chain_exhausted :
    chain m [] [] None (Ok false)
| chain_won name rest :
    chain m (name :: rest) [Tried name; Succeeded name m] (Some name) (Ok true)
| chain_interrupted name rest :
    chain m (name :: rest) [Tried name] None (Raise KeyboardInterrupt)
| chain_failed name rest evs winner r :
    chain m rest evs winner r ->
    chain m (name :: rest) (Tried name :: evs) winner r.

(** The entry that [execute_move] appends for [m] when [method_name] wins. *)
Definition entry_of (stamp : string) (m : chess.Move) (from_square to_square method_name : string)
  : MoveEntry :=
  {| timestamp := stamp; move := m; from := from_square; to := to_square;
     method := method_name |}.

(** An entry as [execute_move] writes them: a method among the three, and
    the names of the squares of its move. *)
Definition well_formed_entry (e : MoveEntry) : Prop :=
  In (method e) method_names /\
  chess.square_name (chess.from_square (move e)) = Some (from e) /\
  chess.square_name (chess.to_square (move e)) = Some (to e).

(** The entries that a run appends: one for the winner when logging of
    moves is enabled, none otherwise. *)
Definition entries_for (enabled : bool) (winner : option string) (m : chess.Move)
    (from_square to_square : string) (es : list MoveEntry) : Prop :=
  match winner with
  | Some name =>
      if enabled
      then exists stamp, es = [entry_of stamp m from_square to_square name]
      else es = []
  | None => es = []
  end.

(** ** What a computation may do to the bot *)

Record Footprint : Type := {
  may_log : LogRecord -> Prop;
  may_call : Cmd -> Prop;
  may_append : MoveEntry -> Prop
}.

Record within (F : Footprint) (s s' : Bot) : Prop := {
  within_log_moves : log_moves s' = log_moves s;
  within_logger :
    exists added, logger s' = (added ++ logger s)%list /\ Forall (may_log F) added;
  within_history :
    exists cmds, history s' = (cmds ++ history s)%list /\ Forall (may_call F) cmds;
  within_move_log :
    exists es, move_log s' = (move_log s ++ es)%list /\ Forall (may_append F) es
}.

Definition stays_within {A} (F : Footprint) (c : M A) : Prop :=
  forall s, within F s (snd (c s)).

(** A strategy writes its own records, talks to the browser, and leaves the
    move log alone. *)
Definition strategy_footprint : Footprint :=
  {| may_log := fun r => from_a_strategy r = true;
     may_call := fun c => to_the_browser c = true;
     may_append := fun _ => False |}.

(** [execute_move] and what it calls talk to the browser only. *)
Definition browser_only : Footprint :=
  {| may_log := fun _ => True;
     may_call := fun c => to_the_browser c = true;
     may_append := fun _ => True |}.

(** ** Vocabulary for the game loop *)

Definition is_execution_failure (r : LogRecord) : bool :=
  match snd r with
  | Move_execution_failed_retrying => true
  | _ => false
  end.

(** How many times "Move execution failed, retrying..." was logged. *)
Definition execution_failures (records : list LogRecord) : nat :=
  List.length (filter is_execution_failure records).

Definition is_abort (r : LogRecord) : bool :=
  match snd r with
  | Too_many_move_execution_failures_stopping => true
  | _ => false
  end.

(** The boards on which the engine was asked for a move. *)
Fixpoint engine_requests (h : History) : list chess.Board :=
  match h with
  | [] => []
  | engine_play b _ :: older => b :: engine_requests older
  | _ :: older => engine_requests older
  end.

(** A position is legal when it is reached from the initial position by
    legal moves: each move of the stack is legal on the board before it. *)
Fixpoint legal_from (rules : chess.Rules) (before : chess.Board)
    (moves : list chess.Move) : bool :=
  match moves with
  | [] => true
  | m :: rest =>
      chess.is_legal rules before m && legal_from rules (chess.push before m) rest
  end.

Definition legal_position (rules : chess.Rules) (b : chess.Board) : bool :=
  legal_from rules chess.initial b.

(** [engine_walk env b b']: [b'] is [b] followed by moves each of which the
    engine returned for exactly the board it was then pushed on. *)
Inductive engine_walk (env : Env) (b : chess.Board) : chess.Board -> Prop :=
| walk_here : engine_walk env b b
| walk_push b' h t m :
    engine_walk env b b' ->
    play env h b' t = Ok (Some m) ->
    engine_walk env b (chess.push b' m).

(** Locals that hold the same game. *)
Definition same_game (l l' : Locals) : Prop :=
  current_board l' = current_board l /\ moves_played l' = moves_played l.

(** [progress rules env l s l' s']: what the game loop may have done between
    the locals [l] and bot [s] and the later [l'] and [s']. The board has
    grown by exactly the moves reported as executed, in order, and
    [moves_played] by their number; the move log has grown by one
    well-formed entry for each of them when logging of moves is enabled and
    by nothing otherwise; the engine was only asked about positions that are
    not over; and each move pushed was the engine's answer for the board it
    was pushed on. *)
Definition progress (rules : chess.Rules) (env : Env)
    (l : Locals) (s : Bot) (l' : Locals) (s' : Bot) : Prop :=
  exists new cmds es,
    logger s' = (new ++ logger s)%list /\
    history s' = (cmds ++ history s)%list /\
    move_log s' = (move_log s ++ es)%list /\
    log_moves s' = log_moves s /\
    current_board l' = (current_board l ++ executed (exec_events new))%list /\
    moves_played l' = moves_played l + Z.of_nat (List.length (executed (exec_events new))) /\
    (if log_moves s then map move es = executed (exec_events new) else es = []) /\
    Forall well_formed_entry es /\
    Forall (fun b => chess.is_game_over rules b = false) (engine_requests cmds) /\
    engine_walk env (current_board l) (current_board l').

(** ** What reaches the page *)

(** Two bots that differ at most in their log records. *)
Definition agree (s1 s2 : Bot) : Prop :=
  history s1 = history s2 /\ move_log s1 = move_log s2 /\ log_moves s1 = log_moves s2.

(** Two computations that, from bots that agree, return the same and leave
    bots that agree: they make the same calls and get the same answers. *)
Definition agrees {A} (c1 c2 : M A) : Prop :=
  forall s1 s2, agree s1 s2 ->
    fst (c1 s1) = fst (c2 s2) /\ agree (snd (c1 s1)) (snd (c2 s2)).

(** The pointer sequence of the drag-and-drop strategy. *)
Definition drag_steps (el : Handle) (from_x from_y to_x to_y : Z) : list Action :=
  [ move_to_element_with_offset el from_x from_y; click_and_hold; pause (1 # 10);
    move_to_element_with_offset el to_x to_y; pause (1 # 10); release ].

(** The calls of the drag-and-drop strategy: it looks for the board, reads
    its rectangle, scrolls it into view and performs one drag. *)
Definition drag_drop_calls : Footprint :=
  {| may_log := fun _ => True;
     may_call := fun c =>
       c = find_wc_chess_board \/
       (exists el, c = get_rect el) \/
       (exists el, c = scroll_into_view el) \/
       (exists el from_x from_y to_x to_y,
           c = perform (drag_steps el from_x from_y to_x to_y));
     may_append := fun _ => False |}.

(** The one call of the JavaScript strategy: the script, with the names of
    the two squares. *)
Definition javascript_calls (from_square to_square : string) : Footprint :=
  {| may_log := fun _ => True;
     may_call := fun c => c = run_move_script from_square to_square;
     may_append := fun _ => False |}.

(** The calls of the keyboard strategy: it looks for the board, clicks it,
    and types the two square names and ENTER. *)
Definition keyboard_calls (from_square to_square : string) : Footprint :=
  {| may_log := fun _ => True;
     may_call := fun c =>
       c = find_wc_chess_board \/
       (exists el, c = click el) \/
       c = perform [send_keys (from_square ++ to_square)%string; send_keys_ENTER];
     may_append := fun _ => False |}.

(** ** Actions carried out on the page *)






(** ** The arithmetic of the geometric fallback *)

(** The offset of a centre along an axis of length [d], for the index [i]
    of the square along that axis, as [get_square_center_coordinates]
    computes it: [i * (d / 8) + (d / 8) / 2] in floats. [None] when one of
    the operations raises. *)
Definition offset (d : Q) (i : Z) : option pyfloat.float :=
  match pyfloat.div_int (pyfloat.finite d) 8 with
  | Some side =>
      match pyfloat.int_mul i side, pyfloat.div_int side 2 with
      | Some across, Some half => Some (pyfloat.add across half)
      | _, _ => None
      end
  | None => None
  end.

(** Its value when nothing overflows: the side of a square, the two terms
    and their sum are each rounded to a double. *)
Definition side (d : Q) : Q := pyfloat.round (d / 8)%Q.

Definition offset_value (d : Q) (i : Z) : Q :=
  pyfloat.round (pyfloat.round (inject_Z i * side d) + pyfloat.round (side d / 2))%Q.

(** A size that the arithmetic carries without rounding: [n * 2^k] with
    [n] below [2^49], as is every whole number of pixels below [2^49], and
    every multiple of 1/64 of a pixel below [2^43]. *)
Definition carried_exactly (d : Q) : Prop :=
  exists n k, (d == inject_Z n * pyfloat.pow2 k)%Q /\ Z.abs n < 2 ^ 49 /\ -1070 <= k.

(** * Further vocabulary *)

(** ** Squares and pixels *)

(** A move as python-chess builds them: both squares on the board. *)
Definition well_formed_move (m : chess.Move) : Prop :=
  (chess.from_square m < 64)%N /\ (chess.to_square m < 64)%N.

(** The pixel that [get_square_center_coordinates] computes on a board of
    width [W] for a file index, and of height [H] for a rank index, with
    the roundings of its float arithmetic. *)
Definition center_x (W : Q) (file_index : Z) : Z :=
  int (offset_value W file_index).

Definition center_y (H : Q) (rank_index : Z) : Z :=
  int (offset_value H (7 - rank_index)).

(** A board of 522.6666666666666 pixels a side, a size that is not a whole
    number of pixels, and one whose width is [2^53 + 2]: on both the
    arithmetic rounds. *)
Definition zoomed_side : pyfloat.double := pyfloat.make 4597424619607381 (-43).

Definition zoomed_page : Env :=
  Stub.sized true zoomed_side zoomed_side true Stub.engine.

Definition huge_page : Env :=
  Stub.sized true (pyfloat.make 4503599627370497 1) (pyfloat.pixels 800) true Stub.engine.

(** ** Exceptions that stay inside *)

(** A computation that never lets an [Exception] out. *)
Definition contained {A} (c : M A) : Prop :=
  forall s, fst (c s) <> Raise Exception.

(** ** The game loop *)

(** A page whose board element is found and whose size cannot be read. *)
Definition unreadable_board : Env :=
  {| find_element := fun _ => Ok (Some 1%nat);
     rect := fun _ _ => Raise Exception;
     execute_scroll := fun _ _ => Ok tt;
     execute_move_script := fun _ _ _ => Ok false;
     perform_actions := fun _ _ => Ok tt;
     element_click := fun _ _ => Ok tt;
     play := fun _ b _ => Stub.engine b;
     now_isoformat := fun _ => "2024-01-01T00:00:00"%string;
     write_json := fun _ _ => Ok tt |}.

(** * The session around the game: set-up, login, navigation, clean-up

    The methods of [ChessComBot] that prepare and close the session talk to
    Selenium and to the engine process through calls of their own, kept in
    [session_calls] beside the calls of the move path ([history] of the
    bot), and write log records of their own, kept in [session_log] beside
    the bot's. Where the source catches [NoSuchElementException] or
    [TimeoutException] apart from other exceptions, the model tells them
    apart as well. The pauses ([time.sleep]) are left out, and a URL is taken
    to be ASCII. *)

Inductive By : Type := ID | NAME | CSS_SELECTOR | XPATH | CLASS_NAME | TAG_NAME.

(** A locator, as Selenium takes them: [(By.ID, "username")]. *)
Definition Locator : Type := By * string.

Inductive Raised : Type :=
| NoSuchElementException
| TimeoutException
| OtherException        (* any other exception that [except Exception] catches *)
| Interrupt.            (* KeyboardInterrupt *)

(** [except Exception] catches it. *)
Definition is_Exception (e : Raised) : bool :=
  match e with
  | Interrupt => false
  | _ => true
  end.

Inductive SResult (A : Type) : Type :=
| SOk (a : A)
| SRaise (e : Raised).

Arguments SOk {A} a.
Arguments SRaise {A} e.

(** An option set on the Chrome options object. *)
Inductive ChromeOption : Type :=
| add_argument (argument : string)
| add_experimental_option_list (name : string) (value : list string)
| add_experimental_option_bool (name : string) (value : bool).

Inductive SCall : Type :=
| chrome_driver_install                           (* ChromeDriverManager().install() *)
| chrome_start (options : list ChromeOption)      (* webdriver.Chrome(service=.., options=..) *)
| hide_webdriver_flag                             (* driver.execute_script("Object.defineProperty(navigator, 'webdriver', ..)") *)
| path_exists (path : string)                     (* os.path.exists(path) *)
| popen_uci (path : string)                       (* chess.engine.SimpleEngine.popen_uci(path) *)
| configure (options : list (string * Z))         (* engine.configure({..}) *)
| driver_get (url : string)                       (* driver.get(url) *)
| wait_until_clickable (timeout : Z) (loc : Locator)  (* WebDriverWait(driver, timeout).until(EC.element_to_be_clickable(loc)) *)
| wait_until_present (timeout : Z) (loc : Locator)    (* ... .until(EC.presence_of_element_located(loc)) *)
| find_by (loc : Locator)                         (* driver.find_element(by, value) *)
| is_displayed (el : Handle)
| is_enabled (el : Handle)
| clear_field (el : Handle)                       (* element.clear() *)
| type_into (el : Handle) (text : string)         (* element.send_keys(text) *)
| click_on (el : Handle)                          (* element.click() *)
| current_url                                     (* driver.current_url *)
| engine_quit                                     (* self.engine.quit() *)
| driver_quit.                                    (* self.driver.quit() *)

(** What happened before a call: the session's calls and the bot's, the most
    recent first in each. *)
Definition Past : Type := list SCall * History.

Record SEnv : Type := {
  install_chrome_driver : Past -> SResult unit;
  start_chrome : Past -> list ChromeOption -> SResult unit;
  run_hide_webdriver_flag : Past -> SResult unit;
  os_path_exists : Past -> string -> bool;
  start_engine : Past -> string -> SResult unit;
  configure_engine : Past -> list (string * Z) -> SResult unit;
  load_page : Past -> string -> SResult unit;
  until_clickable : Past -> Z -> Locator -> SResult Handle;
  until_present : Past -> Z -> Locator -> SResult Handle;
  find_element_by : Past -> Locator -> SResult Handle;
  element_is_displayed : Past -> Handle -> SResult bool;
  element_is_enabled : Past -> Handle -> SResult bool;
  clear_element : Past -> Handle -> SResult unit;
  send_keys_to : Past -> Handle -> string -> SResult unit;
  click_element : Past -> Handle -> SResult unit;
  read_current_url : Past -> SResult string;
  quit_engine : Past -> SResult unit;
  quit_driver : Past -> SResult unit
}.

Inductive SMsg : Type :=
(* setup_browser, setup_engine *)
| Browser_setup_completed_successfully
| Failed_to_setup_browser
| Stockfish_engine_initialized_successfully
| Failed_to_initialize_Stockfish
(* handle_popups *)
| Dismissed_popup_with_selector (selector : string)
| No_popups_to_handle
(* login *)
| Attempting_to_log_into_Chess_com
| Found_username_field_with_selector (loc : Locator)
| Could_not_find_username_field
| Found_password_field_with_selector (loc : Locator)
| Could_not_find_password_field
| Found_login_button_with_selector (loc : Locator)
| Could_not_find_login_button
| Login_successful
| Login_failed_still_on_login_page
| Login_appears_successful_URL_changed
| Login_failed
(* navigate_to_analysis_board *)
| Navigating_to_analysis_board
| Found_board_with_selector (selector : string)
| Could_not_find_chess_board_element
| Successfully_navigated_to_analysis_board
| Navigation_failed
(* find_square_element *)
| Found_square_with_selector (square selector : string)
| Error_finding_square (square : string)
(* cleanup *)
| Stockfish_engine_closed
| Browser_closed
| Cleanup_error
(* run *)
| Starting_game_loop
| Bot_execution_failed.

(** The object [self], with what the move path does not use. *)
Record Session : Type := {
  bot : Bot;
  headless : bool;               (* self.headless *)
  stockfish_path : string;       (* self.stockfish_path *)
  driver : bool;                 (* self.driver is set *)
  engine : bool;                 (* self.engine is set *)
  session_calls : list SCall;    (* most recent first *)
  session_log : list (Level * SMsg)   (* most recent first *)
}.

(** [ChessComBot(stockfish_path, headless, log_moves)] *)
Definition new_session (stockfish_path : string) (headless log_moves : bool) : Session :=
  {| bot := new_bot log_moves; headless := headless; stockfish_path := stockfish_path;
     driver := false; engine := false; session_calls := []; session_log := [] |}.

Definition past (ss : Session) : Past := (session_calls ss, history (bot ss)).

Definition MS (A : Type) : Type := Session -> SResult A * Session.

Definition sret {A} (a : A) : MS A := fun ss => (SOk a, ss).

Definition sraise {A} (e : Raised) : MS A := fun ss => (SRaise e, ss).

Definition sbind {A B} (c : MS A) (k : A -> MS B) : MS B :=
  fun ss =>
    match c ss with
    | (SOk a, ss') => k a ss'
    | (SRaise e, ss') => (SRaise e, ss')
    end.

Declare Scope session_scope.
Delimit Scope session_scope with session.

Notation "x <- c ;; k" := (sbind c (fun x => k))
  (at level 61, c at next level, right associativity) : session_scope.
Notation "c ;;; k" := (sbind c (fun _ => k))
  (at level 61, right associativity) : session_scope.

(** [try: body except <the kinds [caught]> as e: handler e] *)
Definition try_catch {A} (caught : Raised -> bool) (body : MS A)
    (handler : Raised -> MS A) : MS A :=
  fun ss =>
    match body ss with
    | (SRaise e, ss') => if caught e then handler e ss' else (SRaise e, ss')
    | r => r
    end.

Definition only (kind : Raised) (e : Raised) : bool :=
  match kind, e with
  | NoSuchElementException, NoSuchElementException => true
  | TimeoutException, TimeoutException => true
  | _, _ => false
  end.

(** [try: body finally: final] *)
Definition try_finally {A} (body : MS A) (final : MS unit) : MS A :=
  fun ss =>
    match body ss with
    | (r, ss') =>
        match final ss' with
        | (SOk _, ss'') => (r, ss'')
        | (SRaise e, ss'') => (SRaise e, ss'')
        end
    end.

Definition slogging (lvl : Level) (msg : SMsg) (ss : Session) : Session :=
  {| bot := bot ss; headless := headless ss; stockfish_path := stockfish_path ss;
     driver := driver ss; engine := engine ss; session_calls := session_calls ss;
     session_log := (lvl, msg) :: session_log ss |}.

Definition slog (lvl : Level) (msg : SMsg) : MS unit :=
  fun ss => (SOk tt, slogging lvl msg ss).

Definition scalled (c : SCall) (ss : Session) : Session :=
  {| bot := bot ss; headless := headless ss; stockfish_path := stockfish_path ss;
     driver := driver ss; engine := engine ss; session_calls := c :: session_calls ss;
     session_log := session_log ss |}.

(** A call of the session: answered from the past, and recorded. *)
Definition scall {A} (c : SCall) (oracle : Past -> SResult A) : MS A :=
  fun ss => (oracle (past ss), scalled c ss).

(** A call that answers without raising ([os.path.exists]). *)
Definition sask {A} (c : SCall) (oracle : Past -> A) : MS A :=
  fun ss => (SOk (oracle (past ss)), scalled c ss).

(** A call on [self.driver]: an [AttributeError] while [self.driver] is
    [None]. *)
Definition on_driver {A} (c : SCall) (oracle : Past -> SResult A) : MS A :=
  fun ss => if driver ss then scall c oracle ss else (SRaise OtherException, ss).

(** Reading a field of [self]. *)
Definition reading {A} (field : Session -> A) : MS A :=
  fun ss => (SOk (field ss), ss).

(** Assigning to a field of [self]. *)
Definition assigning (update : Session -> Session) : MS unit :=
  fun ss => (SOk tt, update ss).

(** [self.driver = ...] and [self.engine = ...] *)
Definition set_driver (ss : Session) : Session :=
  {| bot := bot ss; headless := headless ss; stockfish_path := stockfish_path ss;
     driver := true; engine := engine ss; session_calls := session_calls ss;
     session_log := session_log ss |}.

Definition set_engine (ss : Session) : Session :=
  {| bot := bot ss; headless := headless ss; stockfish_path := stockfish_path ss;
     driver := driver ss; engine := true; session_calls := session_calls ss;
     session_log := session_log ss |}.

Definition with_bot (b : Bot) (ss : Session) : Session :=
  {| bot := b; headless := headless ss; stockfish_path := stockfish_path ss;
     driver := driver ss; engine := engine ss; session_calls := session_calls ss;
     session_log := session_log ss |}.

(** A method of the move path, run on the bot of the session. *)
Definition on_bot {A} (c : M A) : MS A :=
  fun ss =>
    match c (bot ss) with
    | (Ok a, b) => (SOk a, with_bot b ss)
    | (Raise Exception, b) => (SRaise OtherException, with_bot b ss)
    | (Raise KeyboardInterrupt, b) => (SRaise Interrupt, with_bot b ss)
    end.

Local Open Scope session_scope.

Section SessionMethods.

Variable rules : chess.Rules.
Variable env : Env.
Variable senv : SEnv.

(** The Chrome options of [setup_browser]. *)
Definition chrome_options (headless : bool) : list ChromeOption :=
  ((if headless then [add_argument "--headless"] else [])
   ++ [ add_argument "--no-sandbox";
        add_argument "--disable-dev-shm-usage";
        add_argument "--disable-blink-features=AutomationControlled";
        add_experimental_option_list "excludeSwitches" ["enable-automation"%string];
        add_experimental_option_bool "useAutomationExtension" false;
        add_argument "--window-size=1400,900" ])%list.

Definition setup_browser : MS unit :=
  try_catch is_Exception
    (is_headless <- reading headless ;;
     let options := chrome_options is_headless in
     scall chrome_driver_install (install_chrome_driver senv) ;;;
     scall (chrome_start options) (fun p => start_chrome senv p options) ;;;
     assigning set_driver ;;;
     scall hide_webdriver_flag (run_hide_webdriver_flag senv) ;;;
     slog INFO Browser_setup_completed_successfully)
    (fun e =>
       slog ERROR Failed_to_setup_browser ;;;
       sraise e).

(** The options of [self.engine.configure]. *)
Definition engine_options : list (string * Z) :=
  [ ("Skill Level"%string, 15); ("Threads"%string, 1); ("Hash"%string, 16) ].

Definition setup_engine : MS unit :=
  try_catch is_Exception
    (path <- reading stockfish_path ;;
     found <- sask (path_exists path) (fun p => os_path_exists senv p path) ;;
     if negb found then sraise OtherException        (* FileNotFoundError *)
     else
       scall (popen_uci path) (fun p => start_engine senv p path) ;;;
       assigning set_engine ;;;
       scall (configure engine_options)
             (fun p => configure_engine senv p engine_options) ;;;
       slog INFO Stockfish_engine_initialized_successfully)
    (fun e =>
       slog ERROR Failed_to_initialize_Stockfish ;;;
       sraise e).

Definition popup_selectors : list string :=
  [ "button[data-cookie-banner='accept']";
    "button[id*='accept']";
    "button[class*='accept']";
    "button[class*='cookie']";
    ".cookie-banner button";
    "#cookie-banner button";
    "[data-testid*='accept']";
    ".ui_modal-container button";
    ".ui_outside-close-component" ]%string.

(** The [for selector in popup_selectors] loop of [handle_popups]. *)
Fixpoint for_popups (selectors : list string) : MS unit :=
  match selectors with
  | [] => sret tt
  | selector :: rest =>
      go_on <-
        try_catch (only NoSuchElementException)
          (popup <- on_driver (find_by (CSS_SELECTOR, selector))
                          (fun p => find_element_by senv p (CSS_SELECTOR, selector)) ;;
           shown <- scall (is_displayed popup)
                          (fun p => element_is_displayed senv p popup) ;;
           if shown : bool then
             scall (click_on popup) (fun p => click_element senv p popup) ;;;
             slog INFO (Dismissed_popup_with_selector selector) ;;;
             sret false                                  (* break *)
           else sret true)
          (fun _ => sret true) ;;                        (* continue *)
      if go_on : bool then for_popups rest else sret tt
  end.

Definition handle_popups : MS unit :=
  try_catch is_Exception
    (for_popups popup_selectors)
    (fun _ => slog DEBUG No_popups_to_handle).

Definition username_selectors : list Locator :=
  [ (ID, "username"); (NAME, "username");
    (CSS_SELECTOR, "input[placeholder*='username' i]");
    (CSS_SELECTOR, "input[type='text']");
    (CSS_SELECTOR, "input[name='_username']") ]%string.

Definition password_selectors : list Locator :=
  [ (ID, "password"); (NAME, "password");
    (CSS_SELECTOR, "input[type='password']");
    (CSS_SELECTOR, "input[name='_password']") ]%string.

Definition login_selectors : list Locator :=
  [ (ID, "login");
    (CSS_SELECTOR, "button[type='submit']");
    (CSS_SELECTOR, "input[type='submit']");
    (XPATH, "//button[contains(text(), 'Log In')]");
    (XPATH, "//input[@value='Log In']") ]%string.

Definition success_selectors : list Locator :=
  [ (CLASS_NAME, "user-username-component");
    (CSS_SELECTOR, "[data-username]");
    (CSS_SELECTOR, ".username");
    (XPATH, "//a[contains(@href, '/member/')]");
    (CSS_SELECTOR, ".nav-user-dropdown") ]%string.

(** The loop that looks for the username field: the first locator whose
    wait does not time out gives the field. *)
Fixpoint for_username (selectors : list Locator) : MS (option Handle) :=
  match selectors with
  | [] => sret None
  | loc :: rest =>
      found <-
        try_catch (only TimeoutException)
          (field <- on_driver (wait_until_clickable 20 loc)
                          (fun p => until_clickable senv p 20 loc) ;;
           slog INFO (Found_username_field_with_selector loc) ;;;
           sret (Some field))                            (* break *)
          (fun _ => sret None) ;;                        (* continue *)
      match found with
      | Some field => sret (Some field)
      | None => for_username rest
      end
  end.

(** The loops that look for the password field and for the login button;
    [current] is the loop's variable ([password_field], [login_button]),
    which keeps the last element found when none is displayed and enabled.
    The body of the source's [try] is taken in two parts, the assignment and
    what follows it, so that a [NoSuchElementException] raised after the
    assignment leaves the variable assigned. *)
Fixpoint for_field (found_message : Locator -> SMsg) (selectors : list Locator)
    (current : option Handle) : MS (option Handle) :=
  match selectors with
  | [] => sret current
  | loc :: rest =>
      assigned <-
        try_catch (only NoSuchElementException)
          (el <- on_driver (find_by loc) (fun p => find_element_by senv p loc) ;;
           sret (Some el))
          (fun _ => sret None) ;;                        (* continue *)
      match assigned with
      | None => for_field found_message rest current
      | Some el =>
          stop <-
            try_catch (only NoSuchElementException)
              (shown <- scall (is_displayed el)
                              (fun p => element_is_displayed senv p el) ;;
               usable <- (if shown : bool
                          then scall (is_enabled el)
                                     (fun p => element_is_enabled senv p el)
                          else sret false) ;;
               if usable : bool then
                 slog INFO (found_message loc) ;;;
                 sret true                               (* break *)
               else sret false)
              (fun _ => sret false) ;;                   (* continue *)
          if stop : bool then sret (Some el)
          else for_field found_message rest (Some el)
      end
  end.

(** The loop that waits for a sign of a successful login. *)
Fixpoint for_success (selectors : list Locator) : MS bool :=
  match selectors with
  | [] => sret false
  | loc :: rest =>
      seen <-
        try_catch (only TimeoutException)
          (on_driver (wait_until_present 20 loc)
                 (fun p => until_present senv p 20 loc) ;;;
           slog INFO Login_successful ;;;
           sret true)                                    (* return True *)
          (fun _ => sret false) ;;                       (* continue *)
      if seen : bool then sret true else for_success rest
  end.

(** [c.lower()] on an ASCII character, and [s.lower()]. *)
Definition lower_char (c : ascii) : ascii :=
  let n := nat_of_ascii c in
  if ((65 <=? n) && (n <=? 90))%nat then ascii_of_nat (n + 32) else c.

Fixpoint lower (s : string) : string :=
  match s with
  | EmptyString => EmptyString
  | String c rest => String (lower_char c) (lower rest)
  end.

(** [sub in s] *)
Definition contains (sub s : string) : bool :=
  match String.index 0 sub s with
  | Some _ => true
  | None => false
  end.

Definition login (username password : string) : MS bool :=
  try_catch is_Exception
    (slog INFO Attempting_to_log_into_Chess_com ;;;
     on_driver (driver_get "https://www.chess.com/login")
           (fun p => load_page senv p "https://www.chess.com/login"%string) ;;;
     handle_popups ;;;
     username_field <- for_username username_selectors ;;
     match username_field with
     | None =>
         slog ERROR Could_not_find_username_field ;;;
         sret false
     | Some username_field =>
         scall (clear_field username_field)
               (fun p => clear_element senv p username_field) ;;;
         scall (type_into username_field username)
               (fun p => send_keys_to senv p username_field username) ;;;
         password_field <- for_field Found_password_field_with_selector
                                     password_selectors None ;;
         match password_field with
         | None =>
             slog ERROR Could_not_find_password_field ;;;
             sret false
         | Some password_field =>
             scall (clear_field password_field)
                   (fun p => clear_element senv p password_field) ;;;
             scall (type_into password_field password)
                   (fun p => send_keys_to senv p password_field password) ;;;
             login_button <- for_field Found_login_button_with_selector
                                       login_selectors None ;;
             match login_button with
             | None =>
                 slog ERROR Could_not_find_login_button ;;;
                 sret false
             | Some login_button =>
                 scall (click_on login_button)
                       (fun p => click_element senv p login_button) ;;;
                 seen <- for_success success_selectors ;;
                 if seen : bool then sret true
                 else
                   url <- on_driver current_url (read_current_url senv) ;;
                   if contains "login" (lower url) then
                     slog ERROR Login_failed_still_on_login_page ;;;
                     sret false
                   else
                     slog INFO Login_appears_successful_URL_changed ;;;
                     sret true
             end
         end
     end)
    (fun _ =>
       slog ERROR Login_failed ;;;
       sret false).

Definition board_selectors : list string :=
  [ "wc-chess-board"; ".board"; "[class*='board']" ]%string.

(** [By.CSS_SELECTOR] for a selector that starts with '.', '#' or '[',
    [By.TAG_NAME] otherwise. *)
Definition selector_by (selector : string) : By :=
  if String.prefix "." selector || String.prefix "#" selector
     || String.prefix "[" selector
  then CSS_SELECTOR else TAG_NAME.

Fixpoint for_board (selectors : list string) : MS (option Handle) :=
  match selectors with
  | [] => sret None
  | selector :: rest =>
      found <-
        try_catch (only TimeoutException)
          (let loc := (selector_by selector, selector) in
           board_element <- on_driver (wait_until_present 15 loc)
                                  (fun p => until_present senv p 15 loc) ;;
           slog INFO (Found_board_with_selector selector) ;;;
           sret (Some board_element))                    (* break *)
          (fun _ => sret None) ;;                        (* continue *)
      match found with
      | Some board_element => sret (Some board_element)
      | None => for_board rest
      end
  end.

Definition navigate_to_analysis_board : MS bool :=
  try_catch is_Exception
    (slog INFO Navigating_to_analysis_board ;;;
     on_driver (driver_get "https://www.chess.com/analysis")
           (fun p => load_page senv p "https://www.chess.com/analysis"%string) ;;;
     board_element <- for_board board_selectors ;;
     match board_element with
     | None =>
         slog ERROR Could_not_find_chess_board_element ;;;
         sret false
     | Some _ =>
         handle_popups ;;;
         slog INFO Successfully_navigated_to_analysis_board ;;;
         sret true
     end)
    (fun _ =>
       slog ERROR Navigation_failed ;;;
       sret false).

(** What [find_square_element] returns: an element of the page, or what
    [find_square_by_position] returns. *)
Inductive Located : Type :=
| direct (el : Handle)
| by_position (info : SquareInfo).

Definition square_selectors (square : string) : list string :=
  [ "[data-square='" ++ square ++ "']";
    ".square-" ++ square;
    "#" ++ square;
    "[class*='" ++ square ++ "']" ]%string.

(** The loop of [find_square_element] and the fallback that follows it. *)
Fixpoint for_square (square : string) (selectors : list string) : MS (option Located) :=
  match selectors with
  | [] =>
      info <- on_bot (find_square_by_position env square) ;;
      sret (option_map by_position info)
  | selector :: rest =>
      found <-
        try_catch (only NoSuchElementException)
          (el <- on_driver (find_by (CSS_SELECTOR, selector))
                       (fun p => find_element_by senv p (CSS_SELECTOR, selector)) ;;
           shown <- scall (is_displayed el)
                          (fun p => element_is_displayed senv p el) ;;
           if shown : bool then
             slog DEBUG (Found_square_with_selector square selector) ;;;
             sret (Some el)                              (* return element *)
           else sret None)
          (fun _ => sret None) ;;                        (* continue *)
      match found with
      | Some el => sret (Some (direct el))
      | None => for_square square rest
      end
  end.

Definition find_square_element (square : string) : MS (option Located) :=
  try_catch is_Exception
    (for_square square (square_selectors square))
    (fun _ =>
       slog DEBUG (Error_finding_square square) ;;;
       sret None).

Definition cleanup : MS unit :=
  try_catch is_Exception
    (has_engine <- reading engine ;;
     (if has_engine : bool then
        scall engine_quit (quit_engine senv) ;;;
        slog INFO Stockfish_engine_closed
      else sret tt) ;;;
     has_driver <- reading driver ;;
     (if has_driver : bool then
        scall driver_quit (quit_driver senv) ;;;
        slog INFO Browser_closed
      else sret tt) ;;;
     moves_logged <- reading (fun ss => log_moves (bot ss)) ;;
     if moves_logged : bool then on_bot (save_move_log env) else sret tt)
    (fun _ => slog ERROR Cleanup_error).

(** The part of [run] before the game loop. *)
Definition prepare (username password : string) : MS unit :=
  setup_browser ;;;
  setup_engine ;;;
  logged_in <- login username password ;;
  if negb logged_in then sraise OtherException           (* Exception("Login failed") *)
  else
    navigated <- navigate_to_analysis_board ;;
    if negb navigated then sraise OtherException
    else slog INFO Starting_game_loop.

(** The [except Exception] and [finally] clauses of [run], applied to the
    outcome of its [try] block. *)
Definition conclude (outcome : SResult unit * Session) : SResult unit * Session :=
  try_finally
    (try_catch is_Exception (fun _ => outcome)
       (fun _ => slog ERROR Bot_execution_failed))
    cleanup
    (snd outcome).

(** [run]: [None] when [fuel] passes are not enough for the game loop to be
    left, in which case nothing that follows the loop is run. *)
Definition run (fuel : nat) (username password : string) (max_moves : Z)
    (ss : Session) : option (SResult unit * Session) :=
  match prepare username password ss with
  | (SOk _, ss1) =>
      match play_game_loop rules env fuel max_moves (bot ss1) with
      | Some (_, b) => Some (conclude (SOk tt, with_bot b ss1))
      | None => None
      end
  | (SRaise e, ss1) => Some (conclude (SRaise e, ss1))
  end.

End SessionMethods.

Local Close Scope session_scope.

(** ** Vocabulary for the session *)

(** What a call leaves of a session when it adds calls and log records and
    keeps the rest: the configuration is kept, and a driver or an engine that
    is set stays set. *)
Record grows (ss ss' : Session) : Prop := {
  grows_calls : exists calls, session_calls ss' = (calls ++ session_calls ss)%list;
  grows_log : exists records, session_log ss' = (records ++ session_log ss)%list;
  grows_headless : headless ss' = headless ss;
  grows_path : stockfish_path ss' = stockfish_path ss;
  grows_driver : driver ss = true -> driver ss' = true;
  grows_engine : engine ss = true -> engine ss' = true
}.

Definition Grows {A} (c : MS A) : Prop := forall ss, grows ss (snd (c ss)).

(** A method of the session that leaves the bot as it is. *)
Definition keeps_bot {A} (c : MS A) : Prop := forall ss, bot (snd (c ss)) = bot ss.

(** No [Exception] comes out: the call returns, or a [KeyboardInterrupt]
    passes through. *)
Definition no_Exception {A} (r : SResult A) : Prop :=
  match r with
  | SOk _ => True
  | SRaise e => e = Interrupt
  end.

Definition is_click_on (c : SCall) : bool :=
  match c with
  | click_on _ => true
  | _ => false
  end.

Definition is_json_dump (c : Cmd) : bool :=
  match c with
  | json_dump _ => true
  | _ => false
  end.

(** The calls and the records that a run added to those of [ss]. *)
Definition calls_since (ss ss' : Session) (calls : list SCall) : Prop :=
  session_calls ss' = (calls ++ session_calls ss)%list.

Definition records_since (ss ss' : Session) (records : list (Level * SMsg)) : Prop :=
  session_log ss' = (records ++ session_log ss)%list.

(** ** A site and a machine to run the session on *)

Module SStub.

(** The login form: the username field is element 1, the password field 2,
    the login button 3; there is no pop-up, unless [popup] gives one for a
    selector. *)
Definition find (popup : string -> option Handle) (loc : Locator) : SResult Handle :=
  match loc with
  | (ID, "password"%string) => SOk 2%nat
  | (ID, "login"%string) => SOk 3%nat
  | (CSS_SELECTOR, selector) =>
      match popup selector with
      | Some el => SOk el
      | None => SRaise NoSuchElementException
      end
  | _ => SRaise NoSuchElementException
  end.

(** A machine and a site where everything works, apart from: Stockfish is
    installed or not; a pop-up is shown or not; the engine quits or fails to;
    the page after the login is [url] and shows a user name or not. *)
Definition senv (stockfish_installed : bool) (popup : string -> option Handle)
    (engine_quits : bool) (user_shown : bool) (url : string) : SEnv :=
  {| install_chrome_driver := fun _ => SOk tt;
     start_chrome := fun _ _ => SOk tt;
     run_hide_webdriver_flag := fun _ => SOk tt;
     os_path_exists := fun _ _ => stockfish_installed;
     start_engine := fun _ _ => SOk tt;
     configure_engine := fun _ _ => SOk tt;
     load_page := fun _ _ => SOk tt;
     until_clickable := fun _ _ _ => SOk 1%nat;
     until_present := fun _ _ loc =>
       match loc with
       | (TAG_NAME, _) => SOk 5%nat
       | _ => if user_shown then SOk 4%nat else SRaise TimeoutException
       end;
     find_element_by := fun _ loc => find popup loc;
     element_is_displayed := fun _ _ => SOk true;
     element_is_enabled := fun _ _ => SOk true;
     clear_element := fun _ _ => SOk tt;
     send_keys_to := fun _ _ _ => SOk tt;
     click_element := fun _ _ => SOk tt;
     read_current_url := fun _ => SOk url;
     quit_engine := fun _ => if engine_quits then SOk tt else SRaise OtherException;
     quit_driver := fun _ => SOk tt |}.

Definition no_popup (selector : string) : option Handle := None.

Definition cookie_banner (selector : string) : option Handle :=
  if String.eqb selector ".cookie-banner button" then Some 7%nat else None.

Definition working : SEnv := senv true no_popup true true "https://www.chess.com/home".

Definition with_cookie_banner : SEnv :=
  senv true cookie_banner true true "https://www.chess.com/home".

Definition no_stockfish : SEnv := senv false no_popup true true "https://www.chess.com/home".

Definition stuck_engine : SEnv := senv true no_popup false true "https://www.chess.com/home".

Definition fresh : Session := new_session "/usr/bin/stockfish" false true.

(** The session once the browser and the engine are started. *)
Definition started : Session := set_engine (set_driver fresh).

End SStub.

(** ** What holds after a method of the session *)

(** [post c ss Q]: the result of [c] run on [ss] and the session it leaves
    satisfy [Q]. *)
Definition post {A} (c : MS A) (ss : Session) (Q : SResult A -> Session -> Prop) : Prop :=
  Q (fst (c ss)) (snd (c ss)).

(** ** Pop-ups *)

(** The call [c], made after [earlier], is a click that did not raise. *)
Definition click_succeeded (senv : SEnv) (h : History) (earlier : list SCall)
    (c : SCall) : bool :=
  match c with
  | click_on el =>
      match click_element senv (earlier, h) el with
      | SOk _ => true
      | SRaise _ => false
      end
  | _ => false
  end.

(** The number of clicks that did not raise among [calls] (the most recent
    first), made after [base]. *)
Fixpoint successful_clicks (senv : SEnv) (h : History) (calls base : list SCall) : nat :=
  match calls with
  | [] => 0
  | c :: earlier =>
      ((if click_succeeded senv h (earlier ++ base)%list c then 1 else 0)
       + successful_clicks senv h earlier base)%nat
  end.

Definition is_dismissed (r : Level * SMsg) : bool :=
  match snd r with
  | Dismissed_popup_with_selector _ => true
  | _ => false
  end.

(** ** Kinds of calls *)

(** A method all of whose calls satisfy [P]. *)
Definition calls_within (P : SCall -> bool) (ss ss' : Session) : Prop :=
  exists calls,
    session_calls ss' = (calls ++ session_calls ss)%list /\ forallb P calls = true.

Definition Within {A} (P : SCall -> bool) (c : MS A) : Prop :=
  forall ss, calls_within P ss (snd (c ss)).

Definition is_type_into (c : SCall) : bool :=
  match c with
  | type_into _ _ => true
  | _ => false
  end.

Definition no_typing (c : SCall) : bool := negb (is_type_into c).

(** The calls of [setup_browser], and the check of the path of Stockfish. *)
Definition is_setup_call (c : SCall) : bool :=
  match c with
  | chrome_driver_install | chrome_start _ | hide_webdriver_flag | path_exists _ => true
  | _ => false
  end.

(** Looking at the page without acting on it: no page is loaded, nothing is
    typed or cleared, nothing is clicked, nothing is started or quit. *)
Definition looks_only (c : SCall) : bool :=
  match c with
  | wait_until_clickable _ _ | wait_until_present _ _ | find_by _
  | is_displayed _ | is_enabled _ | current_url => true
  | _ => false
  end.
(** * Properties *)

Local Open Scope list_scope.

(** ** Rounding to a double *)

Section Rounding.

Local Open Scope Q_scope.

Import pyfloat.

Lemma two_not_0 : ~ 2 == 0.
Proof. intro H. discriminate H. Qed.

Lemma pow2_pos e : 0 < pow2 e.
Proof. apply Qpower_0_lt. reflexivity. Qed.

Lemma pow2_add a b : pow2 (a + b) == pow2 a * pow2 b.
Proof. apply Qpower_plus, two_not_0. Qed.

Lemma pow2_le a b : (a <= b)%Z -> pow2 a <= pow2 b.
Proof. intro H. apply Qpower_le_compat_l; [exact H | discriminate]. Qed.

Lemma pow2_lt a b : (a < b)%Z -> pow2 a < pow2 b.
Proof. intro H. apply Qpower_lt_compat_l; [exact H | reflexivity]. Qed.

Lemma pow2_Z e : (0 <= e)%Z -> pow2 e == inject_Z (2 ^ e).
Proof. intro H. unfold pow2. rewrite Zpower_Qpower by exact H. reflexivity. Qed.

Lemma pow2_succ e : pow2 (e + 1) == 2 * pow2 e.
Proof. rewrite pow2_add. unfold pow2 at 2. rewrite Qpower_1_r. ring. Qed.

(** Scaling by a power of 2. *)
Lemma scale_le x y e : x <= y * pow2 e -> x / pow2 e <= y.
Proof.
  intro H. apply Qle_shift_div_r; [apply pow2_pos | exact H].
Qed.

Lemma scale_lt x y e : x < y * pow2 e -> x / pow2 e < y.
Proof.
  intro H. apply Qlt_shift_div_r; [apply pow2_pos | exact H].
Qed.

Lemma scale_ge x y e : y * pow2 e <= x -> y <= x / pow2 e.
Proof.
  intro H. apply Qle_shift_div_l; [apply pow2_pos | exact H].
Qed.

Lemma scale_back x e : x / pow2 e * pow2 e == x.
Proof.
  field. intro H. pose proof (pow2_pos e) as Hp. rewrite H in Hp. discriminate Hp.
Qed.

(** *** The nearest integer *)

Lemma nearest_even_near t :
  t - (1 # 2) <= inject_Z (nearest_even t) /\ inject_Z (nearest_even t) <= t + (1 # 2).
Proof.
  unfold nearest_even.
  pose proof (Qfloor_le t) as Hlo. pose proof (Qlt_floor t) as Hhi.
  rewrite inject_Z_plus in Hhi. change (inject_Z 1) with 1 in Hhi.
  destruct (Qcompare_spec (t - inject_Z (Qfloor t)) (1 # 2)) as [H | H | H].
  - destruct (Z.even (Qfloor t));
      [| rewrite inject_Z_plus; change (inject_Z 1) with 1]; split; lra.
  - split; lra.
  - rewrite inject_Z_plus. change (inject_Z 1) with 1. split; lra.
Qed.

Lemma nearest_even_comp t u : t == u -> nearest_even t = nearest_even u.
Proof.
  intro H. unfold nearest_even. rewrite (Qfloor_comp t u H).
  assert (E : (t - inject_Z (Qfloor u) ?= 1 # 2) = (u - inject_Z (Qfloor u) ?= 1 # 2)).
  { apply Qcompare_comp; [rewrite H; reflexivity | reflexivity]. }
  rewrite E. reflexivity.
Qed.

Lemma nearest_even_Z n : nearest_even (inject_Z n) = n.
Proof.
  unfold nearest_even. rewrite Qfloor_Z.
  assert (E : (inject_Z n - inject_Z n ?= 1 # 2) = Lt).
  { rewrite <- Qlt_alt. lra. }
  rewrite E. reflexivity.
Qed.

Lemma nearest_even_mono t u : t <= u -> (nearest_even t <= nearest_even u)%Z.
Proof.
  intro H.
  pose proof (Qfloor_resp_le t u H) as Hfl.
  assert (Hcase : (Qfloor t < Qfloor u)%Z \/ Qfloor t = Qfloor u) by lia.
  destruct Hcase as [Hlt | Heq].
  - (* different floors: the result for [t] is at most [Qfloor t + 1] *)
    assert (Ht : (nearest_even t <= Qfloor t + 1)%Z).
    { unfold nearest_even.
      destruct (t - inject_Z (Qfloor t) ?= 1 # 2); [destruct (Z.even (Qfloor t)) | |]; lia. }
    assert (Hu : (Qfloor u <= nearest_even u)%Z).
    { unfold nearest_even.
      destruct (u - inject_Z (Qfloor u) ?= 1 # 2); [destruct (Z.even (Qfloor u)) | |]; lia. }
    lia.
  - unfold nearest_even. rewrite Heq.
    destruct (Qcompare_spec (t - inject_Z (Qfloor u)) (1 # 2)) as [Ht | Ht | Ht];
      destruct (Qcompare_spec (u - inject_Z (Qfloor u)) (1 # 2)) as [Hu | Hu | Hu];
      try (destruct (Z.even (Qfloor u))); try lia; exfalso; lra.
Qed.

Lemma nearest_even_le t n : t <= inject_Z n -> (nearest_even t <= n)%Z.
Proof.
  intro H. rewrite <- (nearest_even_Z n). apply nearest_even_mono, H.
Qed.

Lemma nearest_even_ge t n : inject_Z n <= t -> (n <= nearest_even t)%Z.
Proof.
  intro H. rewrite <- (nearest_even_Z n). apply nearest_even_mono, H.
Qed.

(** *** The magnitude *)

Lemma Qmake_split n d : n # d == inject_Z n / inject_Z (Zpos d).
Proof. rewrite Qmake_Qdiv. reflexivity. Qed.

Lemma magnitude_bounds q :
  0 < q -> pow2 (magnitude q - 1) <= q /\ q < pow2 (magnitude q).
Proof.
  intro Hq. destruct q as [n d]. unfold magnitude. cbn [Qnum Qden].
  assert (Hn : (0 < n)%Z) by (unfold Qlt in Hq; simpl in Hq; lia).
  set (a := Z.log2 n). set (b := Z.log2 (Zpos d)).
  assert (Ha : (2 ^ a <= n < 2 ^ (a + 1))%Z).
  { pose proof (Z.log2_spec n Hn) as H. unfold a. rewrite <- Z.add_1_r in H. exact H. }
  assert (Hb : (2 ^ b <= Zpos d < 2 ^ (b + 1))%Z).
  { pose proof (Z.log2_spec (Zpos d) eq_refl) as H. unfold b.
    rewrite <- Z.add_1_r in H. exact H. }
  assert (Ha0 : (0 <= a)%Z) by apply Z.log2_nonneg.
  assert (Hb0 : (0 <= b)%Z) by apply Z.log2_nonneg.
  (* the same bounds on rationals *)
  assert (Qa : pow2 a <= inject_Z n /\ inject_Z n < pow2 (a + 1)).
  { rewrite !pow2_Z by lia. rewrite <- Zle_Qle, <- Zlt_Qlt. exact Ha. }
  assert (Qb : pow2 b <= inject_Z (Zpos d) /\ inject_Z (Zpos d) < pow2 (b + 1)).
  { rewrite !pow2_Z by lia. rewrite <- Zle_Qle, <- Zlt_Qlt. exact Hb. }
  assert (Hd : 0 < inject_Z (Zpos d)) by (rewrite <- (Zlt_Qlt 0); lia).
  assert (Eq : (n # d) * inject_Z (Zpos d) == inject_Z n).
  { rewrite Qmake_split. field. intro H. rewrite H in Hd. discriminate Hd. }
  pose proof (pow2_pos b) as Pb. pose proof (pow2_pos (a - b)) as Pl.
  destruct (Qle_bool (pow2 (a - b)) (n # d)) eqn:E.
  - apply Qle_bool_iff in E. split.
    + replace (a - b + 1 - 1)%Z with (a - b)%Z by lia. exact E.
    + (* q * 2^b <= q * d = n < 2^(a+1) *)
      assert (H1 : (n # d) * pow2 b <= (n # d) * inject_Z (Zpos d)).
      { apply Qmult_le_l; [exact Hq | apply Qb]. }
      replace (a - b + 1)%Z with ((a + 1) + (- b))%Z by lia.
      rewrite pow2_add.
      assert (Einv : pow2 (- b) == / pow2 b) by (unfold pow2; apply Qpower_opp).
      rewrite Einv.
      apply Qlt_shift_div_l; [exact Pb |].
      eapply Qle_lt_trans; [exact H1 |]. rewrite Eq. apply Qa.
  - assert (E' : ~ pow2 (a - b) <= n # d).
    { intro H. apply Qle_bool_iff in H. rewrite H in E. discriminate E. }
    apply Qnot_le_lt in E'. split; [| exact E'].
    (* 2^a <= n = q * d < q * 2^(b+1) *)
    assert (H1 : (n # d) * inject_Z (Zpos d) <= (n # d) * pow2 (b + 1)).
    { apply Qmult_le_l; [exact Hq | apply Qlt_le_weak, Qb]. }
    replace (a - b - 1)%Z with (a + (- (b + 1)))%Z by lia.
    rewrite pow2_add.
    assert (Einv : pow2 (- (b + 1)) == / pow2 (b + 1)) by (unfold pow2; apply Qpower_opp).
    rewrite Einv.
    apply Qle_shift_div_r; [apply pow2_pos |].
    eapply Qle_trans; [| exact H1]. rewrite Eq. apply Qa.
Qed.

(** The unit in the last place: never below [2^-1074]; the scaled value has
    at most 53 bits, and exactly 53 above the smallest exponent. *)
Lemma ulp_exponent_min q : (-1074 <= ulp_exponent q)%Z.
Proof. unfold ulp_exponent. lia. Qed.

Lemma ulp_exponent_above q :
  0 < q -> q < pow2 (ulp_exponent q + 53).
Proof.
  intro Hq. destruct (magnitude_bounds q Hq) as [_ H].
  eapply Qlt_le_trans; [exact H |]. apply pow2_le. unfold ulp_exponent. lia.
Qed.

Lemma ulp_exponent_below q :
  0 < q -> (-1074 < ulp_exponent q)%Z -> pow2 (ulp_exponent q + 52) <= q.
Proof.
  intros Hq He. destruct (magnitude_bounds q Hq) as [H _].
  eapply Qle_trans; [| exact H]. apply pow2_le. unfold ulp_exponent in *. lia.
Qed.

Lemma magnitude_mono x y : 0 < x -> x <= y -> (magnitude x <= magnitude y)%Z.
Proof.
  intros Hx Hxy.
  destruct (magnitude_bounds x Hx) as [Hx1 _].
  destruct (magnitude_bounds y) as [_ Hy2]; [lra |].
  destruct (Z_le_gt_dec (magnitude x) (magnitude y)) as [H | H]; [exact H | exfalso].
  assert (pow2 (magnitude y) <= pow2 (magnitude x - 1)) by (apply pow2_le; lia).
  lra.
Qed.

Lemma ulp_exponent_mono x y : 0 < x -> x <= y -> (ulp_exponent x <= ulp_exponent y)%Z.
Proof.
  intros Hx Hxy. pose proof (magnitude_mono x y Hx Hxy). unfold ulp_exponent. lia.
Qed.

Lemma ulp_exponent_comp x y : 0 < x -> x == y -> ulp_exponent x = ulp_exponent y.
Proof.
  intros Hx E.
  assert (Hy : 0 < y) by (rewrite <- E; exact Hx).
  assert (H1 : x <= y) by (rewrite E; apply Qle_refl).
  assert (H2 : y <= x) by (rewrite E; apply Qle_refl).
  pose proof (ulp_exponent_mono x y Hx H1).
  pose proof (ulp_exponent_mono y x Hy H2). lia.
Qed.

End Rounding.

Section RoundingMagnitude.

Local Open Scope Q_scope.

Import pyfloat.

Lemma round_magnitude_0 q : q == 0 -> round_magnitude q == 0.
Proof.
  intro H. unfold round_magnitude. generalize (ulp_exponent q). intro e.
  rewrite (nearest_even_comp (q / pow2 e) (inject_Z 0)).
  - rewrite nearest_even_Z. ring.
  - rewrite H. unfold Qdiv. ring.
Qed.

Lemma round_magnitude_nonneg q : 0 <= q -> 0 <= round_magnitude q.
Proof.
  intro H. unfold round_magnitude.
  apply Qmult_le_0_compat; [| apply Qlt_le_weak, pow2_pos].
  change 0 with (inject_Z 0). rewrite <- Zle_Qle. apply nearest_even_ge.
  apply scale_ge. change (inject_Z 0) with 0. lra.
Qed.

Lemma round_magnitude_comp x y : 0 <= x -> x == y -> round_magnitude x == round_magnitude y.
Proof.
  intros Hx E.
  destruct (Qlt_le_dec 0 x) as [Hpos | Hzero].
  - unfold round_magnitude. rewrite (ulp_exponent_comp x y Hpos E).
    rewrite (nearest_even_comp (x / pow2 (ulp_exponent y)) (y / pow2 (ulp_exponent y)));
      [reflexivity | rewrite E; reflexivity].
  - assert (E0 : x == 0) by lra.
    rewrite (round_magnitude_0 x E0), (round_magnitude_0 y); [reflexivity |].
    rewrite <- E. exact E0.
Qed.

(** Rounding keeps the order. *)
Lemma round_magnitude_mono x y :
  0 <= x -> x <= y -> round_magnitude x <= round_magnitude y.
Proof.
  intros Hx Hxy.
  destruct (Qlt_le_dec 0 x) as [Hpos | Hzero].
  2: { assert (E0 : x == 0) by lra.
       rewrite (round_magnitude_0 x E0). apply round_magnitude_nonneg. lra. }
  assert (Hy : 0 < y) by lra.
  pose proof (ulp_exponent_mono x y Hpos Hxy) as He.
  unfold round_magnitude.
  set (ex := ulp_exponent x) in *. set (ey := ulp_exponent y) in *.
  assert (Hcase : (ex < ey)%Z \/ ex = ey) by lia.
  destruct Hcase as [Hlt | Heq].
  - (* the result for [x] is at most [2^(ex+53)], the result for [y] at
       least [2^(ey+52)] *)
    assert (Hmx : (nearest_even (x / pow2 ex) <= 2 ^ 53)%Z).
    { apply nearest_even_le. apply Qlt_le_weak, scale_lt.
      rewrite <- pow2_Z by lia. rewrite <- pow2_add.
      replace (53 + ex)%Z with (ex + 53)%Z by lia. apply ulp_exponent_above, Hpos. }
    assert (Hmy : (2 ^ 52 <= nearest_even (y / pow2 ey))%Z).
    { apply nearest_even_ge. apply scale_ge.
      rewrite <- pow2_Z by lia. rewrite <- pow2_add.
      replace (52 + ey)%Z with (ey + 52)%Z by lia.
      apply ulp_exponent_below; [exact Hy |].
      pose proof (ulp_exponent_min x). fold ex in H. unfold ey in *. lia. }
    apply Qle_trans with (inject_Z (2 ^ 53) * pow2 ex).
    { apply Qmult_le_compat_r; [| apply Qlt_le_weak, pow2_pos].
      rewrite <- Zle_Qle. exact Hmx. }
    apply Qle_trans with (inject_Z (2 ^ 52) * pow2 ey).
    { rewrite <- !pow2_Z by lia. rewrite <- !pow2_add. apply pow2_le. lia. }
    apply Qmult_le_compat_r; [| apply Qlt_le_weak, pow2_pos].
    rewrite <- Zle_Qle. exact Hmy.
  - rewrite Heq. apply Qmult_le_compat_r; [| apply Qlt_le_weak, pow2_pos].
    rewrite <- Zle_Qle. apply nearest_even_mono.
    unfold Qdiv. apply Qmult_le_compat_r; [exact Hxy |].
    apply Qlt_le_weak, Qinv_lt_0_compat, pow2_pos.
Qed.

(** A value with a mantissa of 53 bits and an exponent of at least -1074
    is a double: rounding leaves it as it is. *)
Lemma round_magnitude_exact q n k :
  q == inject_Z n * pow2 k -> (0 <= n < 2 ^ 53)%Z -> (-1074 <= k)%Z ->
  round_magnitude q == q.
Proof.
  intros E Hn Hk.
  assert (Hq0 : 0 <= q).
  { rewrite E. apply Qmult_le_0_compat; [| apply Qlt_le_weak, pow2_pos].
    change 0 with (inject_Z 0). rewrite <- Zle_Qle. lia. }
  destruct (Qlt_le_dec 0 q) as [Hpos | Hzero].
  2: { assert (E0 : q == 0) by lra. rewrite (round_magnitude_0 q E0), E0. reflexivity. }
  unfold round_magnitude. set (e := ulp_exponent q).
  assert (He : (e <= k)%Z).
  { destruct (Z_le_gt_dec e (-1074)) as [Hmin | Habove]; [lia |].
    assert (H1 : pow2 (e + 52) <= q) by (apply ulp_exponent_below; [exact Hpos | fold e; lia]).
    assert (H2 : q < pow2 (k + 53)).
    { rewrite E. replace (k + 53)%Z with (53 + k)%Z by lia. rewrite pow2_add.
      apply Qmult_lt_r; [apply pow2_pos |].
      rewrite pow2_Z by lia. rewrite <- Zlt_Qlt. lia. }
    assert (H3 : pow2 (e + 52) < pow2 (k + 53)) by lra.
    apply Qpower_lt_compat_l_inv in H3; [lia | reflexivity]. }
  assert (Et : q / pow2 e == inject_Z (n * 2 ^ (k - e))).
  { rewrite inject_Z_mult, <- pow2_Z by lia. rewrite E.
    replace k with ((k - e) + e)%Z at 1 by lia. rewrite pow2_add.
    field. intro H. pose proof (pow2_pos e) as Hp. rewrite H in Hp. discriminate Hp. }
  rewrite (nearest_even_comp _ _ Et), nearest_even_Z.
  rewrite <- Et. apply scale_back.
Qed.

(** The error of rounding is at most half a unit in the last place, which
    above the subnormal range is at most [2^-53] of the value. *)
Lemma round_magnitude_above q :
  pow2 (-1022) <= q -> round_magnitude q <= q * (1 + pow2 (-53)).
Proof.
  intro Hq.
  assert (Hpos : 0 < q) by (pose proof (pow2_pos (-1022)); lra).
  destruct (magnitude_bounds q Hpos) as [Hlow Hhigh].
  assert (Hmag : (-1021 <= magnitude q)%Z).
  { assert (H : pow2 (-1022) < pow2 (magnitude q)) by lra.
    apply Qpower_lt_compat_l_inv in H; [lia | reflexivity]. }
  unfold round_magnitude.
  assert (Ee : ulp_exponent q = (magnitude q - 53)%Z) by (unfold ulp_exponent; lia).
  rewrite Ee. set (e := (magnitude q - 53)%Z).
  destruct (nearest_even_near (q / pow2 e)) as [_ Hnear].
  assert (H1 : inject_Z (nearest_even (q / pow2 e)) * pow2 e
               <= (q / pow2 e + (1 # 2)) * pow2 e).
  { apply Qmult_le_compat_r; [exact Hnear | apply Qlt_le_weak, pow2_pos]. }
  assert (H2 : (q / pow2 e + (1 # 2)) * pow2 e == q + (1 # 2) * pow2 e).
  { rewrite Qmult_plus_distr_l, scale_back. reflexivity. }
  (* the unit in the last place is at most 2^-52 of the value *)
  assert (H3 : pow2 e <= q * pow2 (-52)).
  { assert (E3 : pow2 e == pow2 (magnitude q - 1) * pow2 (-52)).
    { rewrite <- pow2_add. unfold e. replace (magnitude q - 1 + -52)%Z
        with (magnitude q - 53)%Z by lia. reflexivity. }
    rewrite E3. apply Qmult_le_compat_r; [exact Hlow | apply Qlt_le_weak, pow2_pos]. }
  assert (H4 : pow2 (-52) == 2 * pow2 (-53)).
  { rewrite <- pow2_succ. reflexivity. }
  rewrite H2 in H1. rewrite H4 in H3.
  eapply Qle_trans; [exact H1 |].
  rewrite Qmult_plus_distr_r, Qmult_1_r.
  apply Qplus_le_r.
  apply Qle_trans with ((1 # 2) * (q * (2 * pow2 (-53)))).
  - apply Qmult_le_l; [reflexivity | exact H3].
  - apply Qle_lteq. right. ring.
Qed.

End RoundingMagnitude.

Section Round.

Local Open Scope Q_scope.

Import pyfloat.

Lemma negative_false q : negative q = false <-> 0 <= q.
Proof.
  unfold negative, Qle. cbn [Qnum Qden]. rewrite Z.ltb_ge. lia.
Qed.

Lemma negative_true q : negative q = true <-> q < 0.
Proof.
  unfold negative, Qlt. cbn [Qnum Qden]. rewrite Z.ltb_lt. lia.
Qed.

Lemma round_nonneg q : 0 <= q -> round q = round_magnitude q.
Proof.
  intro H. unfold round. apply negative_false in H. rewrite H. reflexivity.
Qed.

Lemma round_neg q : q < 0 -> round q = - round_magnitude (- q).
Proof.
  intro H. unfold round. apply negative_true in H. rewrite H. reflexivity.
Qed.

Lemma round_comp x y : x == y -> round x == round y.
Proof.
  intro E. destruct (Qlt_le_dec x 0) as [Hneg | Hpos].
  - assert (Hy : y < 0) by (rewrite <- E; exact Hneg).
    rewrite (round_neg x Hneg), (round_neg y Hy).
    apply Qopp_comp. apply round_magnitude_comp; [lra | rewrite E; reflexivity].
  - assert (Hy : 0 <= y) by (rewrite <- E; exact Hpos).
    rewrite (round_nonneg x Hpos), (round_nonneg y Hy).
    apply round_magnitude_comp; assumption.
Qed.

Lemma round_0 : round 0 == 0.
Proof. rewrite round_nonneg by lra. apply round_magnitude_0. reflexivity. Qed.

Lemma round_ge_0 q : 0 <= q -> 0 <= round q.
Proof. intro H. rewrite (round_nonneg q H). apply round_magnitude_nonneg, H. Qed.

Lemma round_mono x y : 0 <= x -> x <= y -> round x <= round y.
Proof.
  intros Hx Hxy. rewrite (round_nonneg x Hx), round_nonneg by lra.
  apply round_magnitude_mono; assumption.
Qed.

(** A double is its own rounding. *)
Lemma round_exact q n k :
  q == inject_Z n * pow2 k -> (Z.abs n < 2 ^ 53)%Z -> (-1074 <= k)%Z ->
  round q == q.
Proof.
  intros E Hn Hk.
  destruct (Qlt_le_dec q 0) as [Hneg | Hpos].
  - rewrite (round_neg q Hneg).
    assert (H : round_magnitude (- q) == - q).
    { apply (round_magnitude_exact (- q) (- n) k); [| | exact Hk].
      - rewrite E, inject_Z_opp. ring.
      - assert (Hn0 : (n < 0)%Z).
        { destruct (Z_lt_ge_dec n 0) as [H | H]; [exact H | exfalso].
          assert (0 <= q); [| lra].
          rewrite E. apply Qmult_le_0_compat; [| apply Qlt_le_weak, pow2_pos].
          change 0 with (inject_Z 0). rewrite <- Zle_Qle. lia. }
        lia. }
    rewrite H. ring.
  - rewrite (round_nonneg q Hpos).
    destruct (Z_lt_ge_dec n 0) as [Hn0 | Hn0].
    + (* then [q] is 0 *)
      assert (E0 : q == 0).
      { assert (q <= 0); [| lra].
        rewrite E. setoid_replace (inject_Z n * pow2 k) with (- (inject_Z (- n) * pow2 k))
          by (rewrite inject_Z_opp; ring).
        assert (0 <= inject_Z (- n) * pow2 k); [| lra].
        apply Qmult_le_0_compat; [| apply Qlt_le_weak, pow2_pos].
        change 0 with (inject_Z 0). rewrite <- Zle_Qle. lia. }
      rewrite (round_magnitude_0 q E0), E0. reflexivity.
    + apply (round_magnitude_exact q n k); [exact E | lia | exact Hk].
Qed.

(** Rounding does not pass a double. *)
Lemma round_le_double q b n k :
  b == inject_Z n * pow2 k -> (Z.abs n < 2 ^ 53)%Z -> (-1074 <= k)%Z ->
  0 <= q -> q <= b -> round q <= b.
Proof.
  intros E Hn Hk Hq Hqb.
  rewrite <- (round_exact b n k E Hn Hk). apply round_mono; assumption.
Qed.

Lemma round_ge_double q b n k :
  b == inject_Z n * pow2 k -> (Z.abs n < 2 ^ 53)%Z -> (-1074 <= k)%Z ->
  0 <= b -> b <= q -> b <= round q.
Proof.
  intros E Hn Hk Hb Hbq.
  rewrite <- (round_exact b n k E Hn Hk). apply round_mono; assumption.
Qed.

Lemma Qabs_round_le q b n k :
  b == inject_Z n * pow2 k -> (Z.abs n < 2 ^ 53)%Z -> (-1074 <= k)%Z ->
  Qabs q <= b -> Qabs (round q) <= b.
Proof.
  intros E Hn Hk Hqb.
  destruct (Qlt_le_dec q 0) as [Hneg | Hpos].
  - rewrite (round_neg q Hneg), Qabs_opp.
    rewrite Qabs_neg in Hqb by lra.
    assert (H0 : 0 <= round_magnitude (- q)) by (apply round_magnitude_nonneg; lra).
    rewrite Qabs_pos by exact H0.
    rewrite <- round_nonneg by lra.
    apply (round_le_double _ b n k); try assumption; lra.
  - rewrite Qabs_pos in Hqb by exact Hpos.
    rewrite Qabs_pos by (apply round_ge_0, Hpos).
    apply (round_le_double _ b n k); assumption.
Qed.

Lemma round_above q : pow2 (-1022) <= q -> round q <= q * (1 + pow2 (-53)).
Proof.
  intro H. rewrite round_nonneg by (pose proof (pow2_pos (-1022)); lra).
  apply round_magnitude_above, H.
Qed.

End Round.

Section Floats.

Local Open Scope Q_scope.

Import pyfloat.

Lemma to_float_finite q : Qabs (round q) < pow2 1024 -> to_float q = finite (round q).
Proof.
  intro H. unfold to_float.
  destruct (Qle_bool (pow2 1024) (Qabs (round q))) eqn:E; [| reflexivity].
  apply Qle_bool_iff in E. exfalso. lra.
Qed.

Lemma Qeq_bool_false x y : ~ x == y -> Qeq_bool x y = false.
Proof.
  intro H. destruct (Qeq_bool x y) eqn:E; [| reflexivity].
  apply Qeq_bool_iff in E. contradiction.
Qed.

Lemma pow2_53_1024 : inject_Z (2 ^ 53) < pow2 1024.
Proof. rewrite <- pow2_Z by lia. apply pow2_lt. lia. Qed.

Lemma Qabs_inject_Z n : Qabs (inject_Z n) == inject_Z (Z.abs n).
Proof. reflexivity. Qed.

(** An [int] of fewer than 54 bits is a float. *)
Lemma of_int_small n :
  (Z.abs n < 2 ^ 53)%Z ->
  of_int n = Some (finite (round (inject_Z n))) /\ round (inject_Z n) == inject_Z n.
Proof.
  intro Hn.
  assert (E : round (inject_Z n) == inject_Z n).
  { apply (round_exact _ n 0); [| exact Hn | lia].
    unfold pow2. rewrite Qpower_0_r. ring. }
  split; [| exact E].
  unfold of_int. rewrite to_float_finite; [reflexivity |].
  rewrite E, Qabs_inject_Z.
  eapply Qlt_trans; [| exact pow2_53_1024]. rewrite <- Zlt_Qlt. exact Hn.
Qed.

(** The size of a step that does not overflow. *)
Lemma Qabs_round_below q n k :
  (Z.abs n < 2 ^ 53)%Z -> (-1074 <= k)%Z ->
  inject_Z n * pow2 k < pow2 1024 ->
  Qabs q <= inject_Z n * pow2 k ->
  Qabs (round q) <= inject_Z n * pow2 k /\ to_float q = finite (round q).
Proof.
  intros Hn Hk Hb Hq.
  assert (H : Qabs (round q) <= inject_Z n * pow2 k).
  { apply (Qabs_round_le q _ n k); [reflexivity | exact Hn | lia | exact Hq]. }
  split; [exact H |].
  apply to_float_finite. eapply Qle_lt_trans; [exact H | exact Hb].
Qed.

Lemma below_1024 n k j :
  (0 <= j)%Z -> (n < 2 ^ j)%Z -> (k + j = 1024)%Z -> inject_Z n * pow2 k < pow2 1024.
Proof.
  intros Hj Hn E. rewrite <- E, (Z.add_comm k j), pow2_add.
  apply Qmult_lt_r; [apply pow2_pos |].
  rewrite pow2_Z by exact Hj. rewrite <- Zlt_Qlt. exact Hn.
Qed.

Lemma Qabs_div_pos x c : 0 < c -> Qabs (x / c) == Qabs x / c.
Proof.
  intro Hc. unfold Qdiv. rewrite Qabs_Qmult.
  rewrite (Qabs_pos (/ c)); [reflexivity |].
  apply Qlt_le_weak, Qinv_lt_0_compat, Hc.
Qed.

Lemma Qabs_mult_nonneg c x : 0 <= c -> Qabs (c * x) == c * Qabs x.
Proof.
  intro Hc. rewrite Qabs_Qmult, (Qabs_pos c Hc). reflexivity.
Qed.

Lemma pow2_1024_8 : pow2 1024 / 8 == pow2 1021.
Proof.
  assert (E : pow2 1024 == pow2 3 * pow2 1021) by (rewrite <- pow2_add; reflexivity).
  rewrite E. assert (E8 : pow2 3 == 8) by reflexivity. rewrite E8. field.
Qed.

Lemma pow2_1021_2 : pow2 1021 / 2 == pow2 1020.
Proof.
  assert (E : pow2 1021 == pow2 1 * pow2 1020) by (rewrite <- pow2_add; reflexivity).
  rewrite E. assert (E2 : pow2 1 == 2) by reflexivity. rewrite E2. field.
Qed.

Lemma pow2_1021_1020 : pow2 1021 == 2 * pow2 1020.
Proof. rewrite <- pow2_succ. reflexivity. Qed.

(** The side of a square never overflows. *)
Lemma side_run d :
  Qabs d <= pow2 1024 ->
  div_int (finite d) 8 = Some (finite (round (d / round 8))) /\
  round (d / round 8) == side d /\
  Qabs (side d) <= pow2 1021.
Proof.
  intro Hd.
  destruct (of_int_small 8) as [E8 R8]; [reflexivity |].
  change (inject_Z 8) with 8 in *.
  assert (Eside : round (d / round 8) == side d).
  { unfold side. apply round_comp. rewrite R8. reflexivity. }
  assert (Hb : Qabs (d / 8) <= inject_Z 1 * pow2 1021).
  { rewrite Qabs_div_pos by reflexivity.
    change (inject_Z 1) with 1. rewrite Qmult_1_l, <- pow2_1024_8.
    unfold Qdiv. apply Qmult_le_compat_r; [exact Hd | discriminate]. }
  destruct (Qabs_round_below (d / 8) 1 1021) as [Hs _];
    [reflexivity | lia | apply (below_1024 1 1021 3); lia | exact Hb |].
  change (inject_Z 1) with 1 in Hs. rewrite Qmult_1_l in Hs. fold (side d) in Hs.
  split; [| split; [exact Eside | exact Hs]].
  unfold div_int. rewrite E8. cbn [div].
  rewrite Qeq_bool_false by (rewrite R8; discriminate).
  rewrite to_float_finite; [reflexivity |].
  rewrite Eside. eapply Qle_lt_trans; [exact Hs |]. apply pow2_lt. lia.
Qed.

(** The arithmetic of [get_square_center_coordinates] along one axis goes
    through on every double, for the indices of the board. *)
Lemma offset_run d i :
  Qabs d <= pow2 1024 -> (0 <= i <= 7)%Z ->
  exists v,
    offset d i = Some (finite v) /\
    v == offset_value d i.
Proof.
  intros Hd Hi.
  destruct (side_run d Hd) as (Eside & Rside & Hside).
  destruct (of_int_small i) as [Ei Ri]; [lia |].
  destruct (of_int_small 2) as [E2 R2]; [reflexivity |].
  change (inject_Z 2) with 2 in *.
  set (s := round (d / round 8)) in *.
  assert (Hs : Qabs s <= pow2 1021) by (rewrite Rside; exact Hside).
  (* i * side *)
  assert (Hi0 : 0 <= inject_Z i) by (change 0 with (inject_Z 0); rewrite <- Zle_Qle; lia).
  assert (Hi7 : inject_Z i <= 7) by (change 7 with (inject_Z 7); rewrite <- Zle_Qle; lia).
  assert (Hacross : Qabs (round (inject_Z i) * s) <= inject_Z 7 * pow2 1021).
  { rewrite Ri, (Qabs_mult_nonneg _ _ Hi0). change (inject_Z 7) with 7.
    pose proof (Qabs_nonneg s) as H0.
    apply Qle_trans with (7 * Qabs s).
    - apply Qmult_le_compat_r; assumption.
    - apply Qmult_le_l; [reflexivity | exact Hs]. }
  destruct (Qabs_round_below _ 7 1021 eq_refl ltac:(lia) (below_1024 7 1021 3 ltac:(lia) ltac:(lia) eq_refl) Hacross)
    as [Ha Fa].
  (* side / 2 *)
  assert (Hhalf : Qabs (s / round 2) <= inject_Z 1 * pow2 1020).
  { assert (E : s / round 2 == s / 2) by (rewrite R2; reflexivity).
    rewrite E, Qabs_div_pos by reflexivity.
    change (inject_Z 1) with 1. rewrite Qmult_1_l, <- pow2_1021_2.
    unfold Qdiv. apply Qmult_le_compat_r; [exact Hs | discriminate]. }
  destruct (Qabs_round_below _ 1 1020 eq_refl ltac:(lia) (below_1024 1 1020 4 ltac:(lia) ltac:(lia) eq_refl) Hhalf)
    as [Hh Fh].
  (* the sum *)
  assert (Hsum : Qabs (round (round (inject_Z i) * s) + round (s / round 2))
                 <= inject_Z 15 * pow2 1020).
  { eapply Qle_trans; [apply Qabs_triangle |].
    change (inject_Z 7) with 7 in Ha. change (inject_Z 1) with 1 in Hh.
    change (inject_Z 15) with 15. rewrite pow2_1021_1020 in Ha. lra. }
  destruct (Qabs_round_below _ 15 1020 eq_refl ltac:(lia) (below_1024 15 1020 4 ltac:(lia) ltac:(lia) eq_refl) Hsum)
    as [_ Fs].
  eexists. split.
  - unfold offset. rewrite Eside. fold s. unfold int_mul, div_int.
    rewrite Ei, E2. cbn [option_map mul div].
    rewrite Qeq_bool_false by (rewrite R2; discriminate).
    rewrite Fa, Fh. cbn [add]. rewrite Fs. reflexivity.
  - unfold offset_value. apply round_comp.
    apply Qplus_comp; apply round_comp.
    + rewrite Ri, Rside. reflexivity.
    + rewrite R2, Rside. reflexivity.
Qed.

(** A double is within the range of the doubles. *)
Lemma double_range (d : double) : Qabs d <= pow2 1024.
Proof.
  destruct d as [m e ok]. unfold value. cbn [mantissa exponent].
  unfold is_double in ok.
  apply andb_prop in ok. destruct ok as [ok He]. apply andb_prop in ok.
  destruct ok as [Hm He'].
  apply Z.ltb_lt in Hm. apply Z.leb_le in He. apply Z.leb_le in He'.
  rewrite Qabs_Qmult, (Qabs_pos (pow2 e)) by (apply Qlt_le_weak, pow2_pos).
  rewrite Qabs_inject_Z.
  apply Qle_trans with (inject_Z (2 ^ 53) * pow2 e).
  - apply Qmult_le_compat_r; [| apply Qlt_le_weak, pow2_pos].
    rewrite <- Zle_Qle. lia.
  - rewrite <- pow2_Z by lia. rewrite <- pow2_add. apply pow2_le. lia.
Qed.

Lemma double_exact (d : double) : round d == d.
Proof.
  destruct d as [m e ok]. unfold value. cbn [mantissa exponent].
  unfold is_double in ok.
  apply andb_prop in ok. destruct ok as [ok He]. apply andb_prop in ok.
  destruct ok as [Hm He'].
  apply Z.ltb_lt in Hm. apply Z.leb_le in He'.
  apply (round_exact _ m e); [reflexivity | exact Hm | exact He'].
Qed.

End Floats.

(** ** Arithmetic of the geometric fallback *)

Lemma int_Qeq (x y : Q) : (x == y)%Q -> int x = int y.
Proof.
  unfold Qeq, int. destruct x as [a b], y as [c d]. simpl. intro H.
  rewrite <- (Z.quot_mul_cancel_r a (Zpos b) (Zpos d)) by lia.
  rewrite H.
  rewrite (Z.mul_comm (Zpos b) (Zpos d)).
  apply Z.quot_mul_cancel_r; lia.
Qed.

(** The offsets of the corner squares, before truncation. *)
Lemma corner_offsets (d : Q) :
  ((inject_Z 0 * (d / 8) + d / 8 / 2 == d / 16) /\
   (inject_Z (7 - 0) * (d / 8) + d / 8 / 2 == d * 15 / 16) /\
   (inject_Z 7 * (d / 8) + d / 8 / 2 == d * 15 / 16) /\
   (inject_Z (7 - 7) * (d / 8) + d / 8 / 2 == d / 16))%Q.
Proof. repeat split; simpl; field. Qed.

Section OffsetValue.

Local Open Scope Q_scope.

Import pyfloat.

Lemma eighth_of_double d n k :
  d == inject_Z n * pow2 k -> d / 8 == inject_Z n * pow2 (k - 3).
Proof.
  intro E. rewrite E. replace (k - 3)%Z with (k + -3)%Z by lia.
  rewrite pow2_add. assert (E3 : pow2 (-3) == 1 # 8) by reflexivity.
  rewrite E3. field.
Qed.

Lemma half_of_double d n k :
  d == inject_Z n * pow2 k -> d / 2 == inject_Z n * pow2 (k - 1).
Proof.
  intro E. rewrite E. replace (k - 1)%Z with (k + -1)%Z by lia.
  rewrite pow2_add. assert (E1 : pow2 (-1) == 1 # 2) by reflexivity.
  rewrite E1. field.
Qed.

(** On a size that is carried exactly no operation of the formula rounds. *)
Lemma offset_value_exact d i :
  carried_exactly d -> (0 <= i <= 7)%Z ->
  offset_value d i == inject_Z i * (d / 8) + d / 8 / 2.
Proof.
  intros (n & k & E & Hn & Hk) Hi.
  pose proof (eighth_of_double d n k E) as E8.
  pose proof (half_of_double (d / 8) n (k - 3) E8) as E16.
  replace (k - 3 - 1)%Z with (k - 4)%Z in E16 by lia.
  assert (Es : side d == d / 8).
  { unfold side. apply (round_exact _ n (k - 3)); [exact E8 | lia | lia]. }
  assert (Ea : round (inject_Z i * side d) == inject_Z i * (d / 8)).
  { rewrite (round_comp _ (inject_Z i * (d / 8))) by (rewrite Es; reflexivity).
    apply (round_exact _ (i * n) (k - 3)).
    - rewrite E8, inject_Z_mult. ring.
    - rewrite Z.abs_mul. rewrite (Z.abs_eq i) by lia.
      pose proof (Z.abs_nonneg n). nia.
    - lia. }
  assert (Eh : round (side d / 2) == d / 8 / 2).
  { rewrite (round_comp _ (d / 8 / 2)) by (rewrite Es; reflexivity).
    apply (round_exact _ n (k - 4)); [exact E16 | lia | lia]. }
  unfold offset_value.
  rewrite (round_comp _ (inject_Z i * (d / 8) + d / 8 / 2)) by (rewrite Ea, Eh; reflexivity).
  apply (round_exact _ ((2 * i + 1) * n) (k - 4)).
  - assert (E2 : d / 8 == 2 * (d / 8 / 2)) by field.
    rewrite E2 at 1. rewrite E16.
    rewrite inject_Z_mult, inject_Z_plus, inject_Z_mult.
    change (inject_Z 2) with 2. change (inject_Z 1) with 1. ring.
  - rewrite Z.abs_mul. rewrite (Z.abs_eq (2 * i + 1)) by lia.
    pose proof (Z.abs_nonneg n). nia.
  - lia.
Qed.

Lemma carried_exactly_pixels n : (Z.abs n < 2 ^ 49)%Z -> carried_exactly (inject_Z n).
Proof.
  intro H. exists n, 0%Z. split; [| split; [exact H | lia]].
  unfold pow2. rewrite Qpower_0_r. ring.
Qed.

End OffsetValue.

(** The steps of the arithmetic along one axis. *)
Lemma offset_parts d i x :
  offset d i = Some x ->
  exists side across half,
    pyfloat.div_int (pyfloat.finite d) 8 = Some side /\
    pyfloat.int_mul i side = Some across /\
    pyfloat.div_int side 2 = Some half /\
    x = pyfloat.add across half.
Proof.
  unfold offset.
  destruct (pyfloat.div_int (pyfloat.finite d) 8) as [sd |]; [| discriminate].
  destruct (pyfloat.int_mul i sd) as [across |] eqn:Ea; [| discriminate].
  destruct (pyfloat.div_int sd 2) as [half |] eqn:Eh; [| discriminate].
  intro H. injection H as <-.
  exists sd, across, half. repeat split; assumption.
Qed.

(** What [get_square_center_coordinates] does when [rect] answers, for a
    square of the board: no operation raises, and the pixel is the
    truncation of the rounded offsets. *)
Lemma get_square_center_coordinates_ok env info s (w h : pyfloat.double) :
  rect env (history s) (element info) = Ok (w, h) ->
  0 <= file_index info <= 7 ->
  0 <= rank_index info <= 7 ->
  exists x y,
    (x == offset_value w (file_index info))%Q /\
    (y == offset_value h (7 - rank_index info))%Q /\
    get_square_center_coordinates env info s =
      (Ok (int x, int y),
       logging DEBUG (Square_offset (square info) (pyfloat.finite x) (pyfloat.finite y))
         (called (get_rect (element info)) s)).
Proof.
  intros Hrect Hf Hr.
  destruct (offset_run w (file_index info) (double_range w) Hf) as (x & Ex & Hx).
  destruct (offset_run h (7 - rank_index info) (double_range h)) as (y & Ey & Hy); [lia |].
  exists x, y. split; [exact Hx |]. split; [exact Hy |].
  destruct (offset_parts _ _ _ Ex) as (sw & ax & hx & Esw & Eax & Ehx & Eaddx).
  destruct (offset_parts _ _ _ Ey) as (sh & ay & hy & Esh & Eay & Ehy & Eaddy).
  unfold get_square_center_coordinates, try_except, bind, call.
  rewrite Hrect. cbn [fst snd].
  rewrite Esw, Esh. cbn [or_raise ret].
  rewrite Eax, Ehx. cbn [or_raise ret].
  rewrite Eay, Ehy. cbn [or_raise ret].
  rewrite <- Eaddx, <- Eaddy. reflexivity.
Qed.

(** C7 (as amended): for a board whose [rect] is read without error and
    whose width W and height H are carried exactly by the float arithmetic
    (as is every whole number of pixels),
    [get_square_center_coordinates] returns the centre of square (file 0,
    rank 0) as [(int(W/16), int(H*15/16))] and the centre of square (file 7,
    rank 7) as [(int(W*15/16), int(H/16))]: the exact values of the formula,
    truncated towards zero to whole pixels. *)
Theorem geometric_fallback_corners env s el sq (W H : pyfloat.double) :
  rect env (history s) el = Ok (W, H) ->
  carried_exactly W ->
  carried_exactly H ->
  fst (get_square_center_coordinates env
         {| element := el; file_index := 0; rank_index := 0; square := sq |} s)
    = Ok (int (W / 16), int (H * 15 / 16)) /\
  fst (get_square_center_coordinates env
         {| element := el; file_index := 7; rank_index := 7; square := sq |} s)
    = Ok (int (W * 15 / 16), int (H / 16)).
Proof.
  intros Hrect HW HH.
  destruct (corner_offsets W) as (Wa & _ & Wh & _).
  destruct (corner_offsets H) as (_ & Ha & _ & Hh).
  split.
  - destruct (get_square_center_coordinates_ok env
                {| element := el; file_index := 0; rank_index := 0; square := sq |}
                s W H Hrect) as (x & y & Hx & Hy & ->); cbn [file_index rank_index]; try lia.
    cbn [file_index rank_index fst] in *.
    rewrite (int_Qeq x (W / 16)%Q), (int_Qeq y (H * 15 / 16)%Q).
    + reflexivity.
    + rewrite Hy, offset_value_exact by (assumption || lia). exact Ha.
    + rewrite Hx, offset_value_exact by (assumption || lia). exact Wa.
  - destruct (get_square_center_coordinates_ok env
                {| element := el; file_index := 7; rank_index := 7; square := sq |}
                s W H Hrect) as (x & y & Hx & Hy & ->); cbn [file_index rank_index]; try lia.
    cbn [file_index rank_index fst] in *.
    rewrite (int_Qeq x (W * 15 / 16)%Q), (int_Qeq y (H / 16)%Q).
    + reflexivity.
    + rewrite Hy, offset_value_exact by (assumption || lia). exact Hh.
    + rewrite Hx, offset_value_exact by (assumption || lia). exact Wh.
Qed.

Lemma geometric_fallback_corners_witness :
  fst (get_square_center_coordinates Stub.working_page Stub.a1 (new_bot true))
    = Ok (int (pyfloat.pixels 800 / 16), int (pyfloat.pixels 800 * 15 / 16)) /\
  fst (get_square_center_coordinates Stub.working_page Stub.h8 (new_bot true))
    = Ok (int (pyfloat.pixels 800 * 15 / 16), int (pyfloat.pixels 800 / 16)).
Proof.
  apply (geometric_fallback_corners Stub.working_page (new_bot true) 1%nat).
  - reflexivity.
  - exists 800, 0. split; [reflexivity | split; lia].
  - exists 800, 0. split; [reflexivity | split; lia].
Defined.

(** C7 (as stated) fails: on a 600 by 600 board the centre of a1 is
    (37.5, 562.5) by the formula, and the function returns (37, 562). *)
Lemma geometric_fallback_not_exact :
  exists x y : Z,
    fst (get_square_center_coordinates
           (Stub.env true 600 600 true Stub.engine) Stub.a1 (new_bot true))
      = Ok (x, y) /\
    ~ (inject_Z x == 600 / 16)%Q /\ ~ (inject_Z y == 600 * 15 / 16)%Q.
Proof.
  exists 37, 562. split; [vm_compute; reflexivity|]. split; intro H; discriminate H.
Qed.

(** The restriction to sizes carried exactly is needed: on a board of
    522.6666666666666 pixels a side the sum for h8 is rounded up to 490,
    where the exact value of the formula is 489.99999999999994; on a board
    [2^53 + 2] wide it is rounded up to the next even number. *)
Example geometric_fallback_rounds :
  fst (get_square_center_coordinates zoomed_page Stub.h8 (new_bot true)) = Ok (490, 32) /\
  int (zoomed_side * 15 / 16) = 489 /\
  fst (get_square_center_coordinates huge_page Stub.h8 (new_bot true))
    = Ok (8444249301319682, 50) /\
  int (inject_Z (2 ^ 53 + 2) * 15 / 16) = 8444249301319681.
Proof. vm_compute. repeat split. Qed.

(** ** Footprints *)

Section Footprints.

Variable F : Footprint.

Lemma within_refl s : within F s s.
Proof.
  split; [reflexivity | exists [] | exists [] | exists []]; split; auto.
  symmetry. apply app_nil_r.
Qed.

Lemma within_trans s1 s2 s3 : within F s1 s2 -> within F s2 s3 -> within F s1 s3.
Proof.
  intros [L1 (a1 & Ea1 & Fa1) (c1 & Ec1 & Fc1) (e1 & Ee1 & Fe1)]
         [L2 (a2 & Ea2 & Fa2) (c2 & Ec2 & Fc2) (e2 & Ee2 & Fe2)].
  split.
  - congruence.
  - exists (a2 ++ a1)%list. rewrite Ea2, Ea1, app_assoc. split; auto.
    apply Forall_app; auto.
  - exists (c2 ++ c1)%list. rewrite Ec2, Ec1, app_assoc. split; auto.
    apply Forall_app; auto.
  - exists (e1 ++ e2)%list. rewrite Ee2, Ee1, app_assoc. split; auto.
    apply Forall_app; auto.
Qed.

Lemma within_logging lvl msg s :
  may_log F (lvl, msg) -> within F s (logging lvl msg s).
Proof.
  intro H. split; simpl; [reflexivity | exists [(lvl, msg)] | exists [] | exists []];
    split; auto. symmetry. apply app_nil_r.
Qed.

Lemma within_called c s : may_call F c -> within F s (called c s).
Proof.
  intro H. split; simpl; [reflexivity | exists [] | exists [c] | exists []];
    split; auto. symmetry. apply app_nil_r.
Qed.

Lemma within_appended e s : may_append F e -> within F s (appended e s).
Proof.
  intro H. split; simpl; [reflexivity | exists [] | exists [] | exists [e]];
    split; auto.
Qed.

Lemma stays_ret {A} (a : A) : stays_within F (ret a).
Proof. intro s. apply within_refl. Qed.

Lemma stays_raise {A} e : stays_within F (@raise A e).
Proof. intro s. apply within_refl. Qed.

Lemma stays_or_raise {A} (o : option A) : stays_within F (or_raise o).
Proof. destruct o; [apply stays_ret | apply stays_raise]. Qed.

Lemma stays_bind {A B} (c : M A) (k : A -> M B) :
  stays_within F c -> (forall a, stays_within F (k a)) -> stays_within F (bind c k).
Proof.
  intros Hc Hk s. unfold bind. specialize (Hc s).
  destruct (c s) as [[a | e] s']; simpl in *; auto.
  eapply within_trans; [exact Hc | apply Hk].
Qed.

Lemma stays_try_except {A} (body handler : M A) :
  stays_within F body -> stays_within F handler ->
  stays_within F (try_except body handler).
Proof.
  intros Hb Hh s. unfold try_except. specialize (Hb s).
  destruct (body s) as [[a | [ | ]] s']; simpl in *; auto.
  eapply within_trans; [exact Hb | apply Hh].
Qed.

Lemma stays_log lvl msg : may_log F (lvl, msg) -> stays_within F (log lvl msg).
Proof. intros H s. apply within_logging, H. Qed.

Lemma stays_call {A} c (oracle : History -> Result A) :
  may_call F c -> stays_within F (call c oracle).
Proof. intros H s. apply within_called, H. Qed.

Lemma stays_append e : may_append F e -> stays_within F (append_move_log e).
Proof. intros H s. apply within_appended, H. Qed.

Lemma stays_get_log_moves : stays_within F get_log_moves.
Proof. intro s. apply within_refl. Qed.

Lemma stays_get_move_log : stays_within F get_move_log.
Proof. intro s. apply within_refl. Qed.

Lemma stays_now env : stays_within F (now env).
Proof. intro s. apply within_refl. Qed.

End Footprints.

Lemma within_weaken (F G : Footprint) s s' :
  (forall r, may_log F r -> may_log G r) ->
  (forall c, may_call F c -> may_call G c) ->
  (forall e, may_append F e -> may_append G e) ->
  within F s s' -> within G s s'.
Proof.
  intros Hl Hc He [L (a & Ea & Fa) (c & Ec & Fc) (e & Ee & Fe)].
  split; [assumption | exists a | exists c | exists e]; split; auto;
    eapply Forall_impl; eauto.
Qed.

(** Walks through a computation written with [bind], [try_except], [log]
    and [call], splitting on what it branches on. *)
Ltac footprint_with known :=
  repeat first
    [ known
    | lazymatch goal with
      | |- stays_within _ (ret _) => apply stays_ret
      | |- stays_within _ (raise _) => apply stays_raise
      | |- stays_within _ (or_raise _) => apply stays_or_raise
      | |- stays_within _ (try_except _ _) => apply stays_try_except
      | |- stays_within _ (bind _ _) => apply stays_bind; [ | intro ]
      | |- stays_within _ (log _ _) => apply stays_log; first [reflexivity | exact I]
      | |- stays_within _ (call _ _) => apply stays_call; reflexivity
      | |- stays_within _ (match ?x with _ => _ end) => destruct x
      end
    | apply stays_ret | apply stays_raise | apply stays_or_raise
    | apply stays_get_log_moves | apply stays_get_move_log | apply stays_now
    | apply stays_log; first [reflexivity | exact I]
    | apply stays_call; reflexivity
    | apply stays_append; exact I
    | apply stays_try_except
    | apply stays_bind; [ | intro ]
    | match goal with
      | |- stays_within _ (match ?x with _ => _ end) => destruct x
      | |- stays_within _ (let '(_, _) := ?x in _) => destruct x
      end ].

Ltac footprint := footprint_with fail.

Lemma find_square_by_position_footprint env sq :
  stays_within strategy_footprint (find_square_by_position env sq).
Proof. unfold find_square_by_position. footprint. Qed.

Lemma get_square_center_coordinates_footprint env info :
  stays_within strategy_footprint (get_square_center_coordinates env info).
Proof. unfold get_square_center_coordinates. footprint. Qed.

Lemma drag_drop_footprint env m :
  stays_within strategy_footprint (execute_move_with_drag_drop env m).
Proof.
  unfold execute_move_with_drag_drop.
  footprint_with
    ltac:(idtac;
          lazymatch goal with
          | |- stays_within _ (find_square_by_position _ _) =>
              apply find_square_by_position_footprint
          | |- stays_within _ (get_square_center_coordinates _ _) =>
              apply get_square_center_coordinates_footprint
          end).
Qed.

Lemma javascript_footprint env m :
  stays_within strategy_footprint (execute_move_with_javascript env m).
Proof. unfold execute_move_with_javascript. footprint. Qed.

Lemma keyboard_footprint env m :
  stays_within strategy_footprint (execute_move_with_keyboard env m).
Proof. unfold execute_move_with_keyboard. footprint. Qed.

Lemma methods_footprint env m name f :
  In (name, f) (methods env) -> stays_within strategy_footprint (f m).
Proof.
  simpl. intros [H | [H | [H | []]]]; inversion H; subst.
  - apply drag_drop_footprint.
  - apply javascript_footprint.
  - apply keyboard_footprint.
Qed.

(** ** The execution events of a log *)

Lemma exec_events_app a b :
  exec_events (a ++ b) = (exec_events b ++ exec_events a)%list.
Proof.
  induction a as [| r a IH]; simpl.
  - symmetry. apply app_nil_r.
  - rewrite IH. symmetry. apply app_assoc.
Qed.

Lemma strategy_records_silent added :
  Forall (fun r => from_a_strategy r = true) added -> exec_events added = [].
Proof.
  induction 1 as [| [lvl msg] rest H _ IH]; simpl; [reflexivity |].
  rewrite IH. destruct msg; try discriminate H; reflexivity.
Qed.

Lemma strategy_records_execution added :
  Forall (fun r => from_a_strategy r = true) added ->
  Forall (fun r => from_execution r = true) added.
Proof.
  apply Forall_impl. intros [lvl msg]. unfold from_a_strategy, from_execution.
  simpl. destruct (origin msg); auto.
Qed.

(** ** Shapes of a chain *)


Lemma chain_winner m names evs winner r :
  chain m names evs winner r ->
  match winner with
  | Some name =>
      r = Ok true /\ In name names /\
      exists before, evs = (map Tried before ++ [Tried name; Succeeded name m])%list
  | None => r <> Ok true /\ evs = map Tried (tried evs)
  end.
Proof.
  induction 1 as [| name rest | name rest | name rest evs winner r _ IH]; simpl.
  - split; [discriminate | reflexivity].
  - split; [reflexivity |]. split; [left; reflexivity |]. exists []. reflexivity.
  - split; [discriminate | reflexivity].
  - destruct winner as [w |].
    + destruct IH as (Hr & Hin & before & Hev). split; [assumption |].
      split; [right; assumption |]. exists (name :: before). rewrite Hev. reflexivity.
    + destruct IH as (Hr & Hev). split; [assumption |]. rewrite <- Hev. reflexivity.
Qed.

Lemma tried_map_Tried names : tried (map Tried names) = names.
Proof. induction names; simpl; congruence. Qed.


Lemma executed_map_Tried names : executed (map Tried names) = [].
Proof. induction names; simpl; congruence. Qed.


Lemma executed_app a b : executed (a ++ b) = (executed a ++ executed b)%list.
Proof. induction a as [| [n | n m] a IH]; simpl; congruence. Qed.

Lemma chain_executed m names evs winner r :
  chain m names evs winner r ->
  executed evs = match winner with Some _ => [m] | None => [] end.
Proof.
  intro H. apply chain_winner in H. destruct winner.
  - destruct H as (_ & _ & before & ->).
    rewrite executed_app, executed_map_Tried. reflexivity.
  - destruct H as (_ & ->). apply executed_map_Tried.
Qed.


(** ** [execute_move] *)

(** One pass of the [for] loop of [execute_move]. *)
Lemma for_methods_cons env name func rest m f t s :
  for_methods env ((name, func) :: rest) m f t s =
  match func m (logging INFO (Trying_method name) s) with
  | (Ok true, s2) =>
      (Ok true,
       logging INFO (Move_executed_successfully_with name m)
         (if log_moves s2
          then appended (entry_of (now_isoformat env (history s2)) m f t name) s2
          else s2))
  | (Ok false, s2) => for_methods env rest m f t s2
  | (Raise Exception, s2) =>
      for_methods env rest m f t (logging DEBUG (Method_failed name) s2)
  | (Raise KeyboardInterrupt, s2) => (Raise KeyboardInterrupt, s2)
  end.
Proof.
  simpl. unfold bind, try_except, log, get_log_moves, now, append_move_log, ret.
  destruct (func m _) as [[[|] | [|]] s2]; try reflexivity.
  destruct (log_moves s2); reflexivity.
Qed.

Lemma for_methods_spec env m f t ms :
  (forall name func, In (name, func) ms -> stays_within strategy_footprint (func m)) ->
  forall s, exists new winner es,
    logger (snd (for_methods env ms m f t s)) = (new ++ logger s)%list /\
    Forall (fun r => from_execution r = true) new /\
    chain m (map fst ms) (exec_events new) winner (fst (for_methods env ms m f t s)) /\
    move_log (snd (for_methods env ms m f t s)) = (move_log s ++ es)%list /\
    entries_for (log_moves s) winner m f t es.
Proof.
  induction ms as [| [name func] rest IH]; intros Hms s.
  - exists [(ERROR, All_move_execution_methods_failed m)], None, [].
    simpl. repeat split; auto using app_nil_r.
    constructor.
  - assert (Hfunc : stays_within strategy_footprint (func m))
      by (apply (Hms name); left; reflexivity).
    assert (Hrest : forall n g, In (n, g) rest -> stays_within strategy_footprint (g m))
      by (intros n g Hin; apply (Hms n); right; exact Hin).
    specialize (IH Hrest).
    specialize (Hfunc (logging INFO (Trying_method name) s)).
    rewrite for_methods_cons.
    destruct (func m (logging INFO (Trying_method name) s)) as [[[|] | [|]] s2];
      simpl in Hfunc;
      destruct Hfunc as [Hlm (added & Hadd & Fadd) _ (es0 & Hes0 & Fes0)];
      simpl in Hadd, Hlm, Hes0;
      assert (es0 = []) by (destruct Fes0 as [| ? ? []]; reflexivity); subst es0;
      rewrite app_nil_r in Hes0;
      pose proof (strategy_records_silent added Fadd) as Hsilent;
      pose proof (strategy_records_execution added Fadd) as Hexec.
    + (* the method reports success *)
      exists ((INFO, Move_executed_successfully_with name m) :: added
              ++ [(INFO, Trying_method name)])%list, (Some name),
             (if log_moves s
              then [entry_of (now_isoformat env (history s2)) m f t name]
              else []).
      rewrite Hlm. simpl. rewrite <- app_assoc. simpl.
      split; [| split; [| split; [| split]]].
      * destruct (log_moves s); simpl; rewrite Hadd; reflexivity.
      * constructor; [reflexivity |]. apply Forall_app. split; auto.
      * rewrite exec_events_app, Hsilent. simpl. constructor.
      * destruct (log_moves s); simpl; rewrite Hes0; auto using app_nil_r.
      * destruct (log_moves s); [eexists |]; reflexivity.
    + (* the method reports failure *)
      destruct (IH s2) as (new & winner & es & Hnew & Fnew & Hchain & Hes & Hent).
      exists (new ++ added ++ [(INFO, Trying_method name)])%list, winner, es.
      rewrite Hnew, Hadd, Hes, Hes0. rewrite <- !app_assoc. simpl.
      split; [| split; [| split; [| split]]]; auto.
      * apply Forall_app. split; auto. apply Forall_app. split; auto.
      * rewrite !exec_events_app, Hsilent. simpl. constructor. exact Hchain.
      * rewrite <- Hlm. exact Hent.
    + (* the method raises an Exception: the handler goes on *)
      destruct (IH (logging DEBUG (Method_failed name) s2))
        as (new & winner & es & Hnew & Fnew & Hchain & Hes & Hent).
      exists (new ++ (DEBUG, Method_failed name) :: added
              ++ [(INFO, Trying_method name)])%list, winner, es.
      rewrite Hnew, Hes. simpl. rewrite Hadd, Hes0. rewrite <- !app_assoc. simpl.
      split; [| split; [| split; [| split]]]; auto.
      * rewrite <- app_assoc. reflexivity.
      * apply Forall_app. split; auto. constructor; [reflexivity |].
        apply Forall_app. split; auto.
      * rewrite exec_events_app. simpl. rewrite exec_events_app, Hsilent. simpl.
        constructor. exact Hchain.
      * simpl in Hent. rewrite <- Hlm. exact Hent.
    + (* the method is interrupted *)
      exists (added ++ [(INFO, Trying_method name)])%list, None, [].
      simpl. rewrite Hadd, Hes0. rewrite <- !app_assoc. simpl.
      split; [| split; [| split; [| split]]]; auto using app_nil_r.
      * apply Forall_app. split; auto.
      * rewrite exec_events_app, Hsilent. simpl. constructor.
Qed.

Lemma execute_move_unfold env m s :
  execute_move env m s =
  match chess.square_name (chess.from_square m),
        chess.square_name (chess.to_square m) with
  | Some f, Some t =>
      match for_methods env (methods env) m f t (logging INFO (Executing_move f t) s) with
      | (Raise Exception, s') => (Ok false, logging ERROR (Failed_to_execute_move m) s')
      | r => r
      end
  | _, _ => (Ok false, logging ERROR (Failed_to_execute_move m) s)
  end.
Proof.
  unfold execute_move, try_except, bind, or_raise, ret, raise, log.
  destruct (chess.square_name (chess.from_square m)); [| reflexivity].
  destruct (chess.square_name (chess.to_square m)); reflexivity.
Qed.

(** What [execute_move] logs, appends and returns. *)
Lemma execute_move_spec env m s :
  exists new winner es,
    logger (snd (execute_move env m s)) = (new ++ logger s)%list /\
    Forall (fun r => from_execution r = true) new /\
    (chain m method_names (exec_events new) winner (fst (execute_move env m s)) \/
     exec_events new = [] /\ winner = None /\ fst (execute_move env m s) = Ok false) /\
    move_log (snd (execute_move env m s)) = (move_log s ++ es)%list /\
    match winner with
    | Some name =>
        if log_moves s
        then exists e, es = [e] /\ move e = m /\ method e = name /\ well_formed_entry e
        else es = []
    | None => es = []
    end.
Proof.
  rewrite execute_move_unfold.
  destruct (chess.square_name (chess.from_square m)) as [f |] eqn:Ef;
    [destruct (chess.square_name (chess.to_square m)) as [t |] eqn:Et |].
  - destruct (for_methods_spec env m f t (methods env) (methods_footprint env m)
                (logging INFO (Executing_move f t) s))
      as (new & winner & es & Hnew & Fnew & Hchain & Hes & Hent).
    change (map fst (methods env)) with method_names in Hchain.
    change (logger (logging INFO (Executing_move f t) s))
      with ((INFO, Executing_move f t) :: logger s) in Hnew.
    change (move_log (logging INFO (Executing_move f t) s)) with (move_log s) in Hes.
    change (log_moves (logging INFO (Executing_move f t) s)) with (log_moves s) in Hent.
    unfold entries_for in Hent.
    pose proof (chain_winner _ _ _ _ _ Hchain) as Hwin.
    destruct (for_methods env (methods env) m f t (logging INFO (Executing_move f t) s))
      as [[b | [|]] s']; cbn [fst snd] in *.
    + exists (new ++ [(INFO, Executing_move f t)])%list, winner, es.
      rewrite <- app_assoc. simpl. split; [assumption |].
      split; [apply Forall_app; split; auto |].
      split; [left; rewrite exec_events_app; exact Hchain |].
      split; [assumption |].
      destruct winner as [name |]; [| assumption].
      destruct (log_moves s); [| assumption].
      destruct Hent as [stamp ->]. eexists. split; [reflexivity |].
      unfold well_formed_entry. simpl. tauto.
    + exfalso. clear Hwin. revert Hchain. generalize method_names (exec_events new).
      intros names evs Hc. remember (@Raise bool Exception) as r eqn:Er.
      induction Hc; try discriminate; auto.
    + exists (new ++ [(INFO, Executing_move f t)])%list, winner, es.
      rewrite <- app_assoc. simpl. split; [assumption |].
      split; [apply Forall_app; split; auto |].
      split; [left; rewrite exec_events_app; exact Hchain |].
      split; [assumption |].
      destruct winner as [name |]; [| assumption].
      destruct Hwin as (Hr & _). discriminate Hr.
  - exists [(ERROR, Failed_to_execute_move m)], None, []. simpl.
    repeat split; auto using app_nil_r.
  - exists [(ERROR, Failed_to_execute_move m)], None, []. simpl.
    repeat split; auto using app_nil_r.
Qed.

Lemma for_methods_browser_only env m f t ms :
  (forall name func, In (name, func) ms -> stays_within strategy_footprint (func m)) ->
  stays_within browser_only (for_methods env ms m f t).
Proof.
  induction ms as [| [name func] rest IH]; intro Hms; simpl.
  - footprint.
  - assert (Hfunc : stays_within browser_only (func m)).
    { intro s. eapply within_weaken; [| | | apply (Hms name func); left; reflexivity];
        simpl; auto. }
    assert (Hrest : stays_within browser_only (for_methods env rest m f t))
      by (apply IH; intros n g Hin; apply (Hms n); right; exact Hin).
    repeat first [exact Hfunc | exact Hrest | progress footprint].
Qed.

Lemma execute_move_browser_only env m :
  stays_within browser_only (execute_move env m).
Proof.
  unfold execute_move.
  footprint_with
    ltac:(idtac;
          lazymatch goal with
          | |- stays_within _ (for_methods _ _ _ _ _) =>
              apply for_methods_browser_only; apply methods_footprint
          end).
Qed.

(** ** The order of the strategies *)




(** ** One pass of the game loop *)

Lemma calculate_best_move_unfold rules env b t s :
  calculate_best_move rules env b t s =
  if chess.is_game_over rules b then
    (Ok None, logging INFO Game_is_over_no_moves_to_calculate s)
  else
    match play env (history s) b t with
    | Ok (Some m) =>
        if chess.Move_bool m
        then (Ok (Some m),
              logging INFO (Calculated_best_move m) (called (engine_play b t) s))
        else (Ok None,
              logging WARNING Engine_returned_no_move (called (engine_play b t) s))
    | Ok None =>
        (Ok None, logging WARNING Engine_returned_no_move (called (engine_play b t) s))
    | Raise Exception =>
        (Ok None, logging ERROR Move_calculation_failed (called (engine_play b t) s))
    | Raise KeyboardInterrupt =>
        (Raise KeyboardInterrupt, called (engine_play b t) s)
    end.
Proof.
  unfold calculate_best_move, try_except, bind, call, log, ret.
  destruct (chess.is_game_over rules b); [reflexivity |].
  destruct (play env (history s) b t) as [[m |] | [|]]; simpl; try reflexivity.
  destruct (chess.Move_bool m); reflexivity.
Qed.

Lemma loop_body_unfold rules env l s :
  loop_body rules env l s =
  let b := current_board l in
  if chess.is_game_over rules b then
    (Break, l, logging INFO (game_over_message (chess.result rules b)) s)
  else
    let l0 := set_consecutive_failures 0 l in
    let s0 := called (engine_play b 2)
                (logging INFO (To_play (moves_played l + 1) (chess.turn b)) s) in
    match play env (history s) b 2 with
    | Ok (Some m) =>
        if chess.Move_bool m then
          match execute_move env m (logging INFO (Calculated_best_move m) s0) with
          | (Ok true, s2) => played rules m l0 s2
          | (Ok false, s2) => not_played l0 s2
          | (Raise e, s2) => on_exception e l0 s2
          end
        else skip_turn l0 (logging WARNING Engine_returned_no_move s0)
    | Ok None => skip_turn l0 (logging WARNING Engine_returned_no_move s0)
    | Raise Exception => skip_turn l0 (logging ERROR Move_calculation_failed s0)
    | Raise KeyboardInterrupt => on_exception KeyboardInterrupt l0 s0
    end.
Proof.
  unfold loop_body. cbv zeta.
  destruct (chess.is_game_over rules (current_board l)) eqn:Eover; [reflexivity |].
  rewrite calculate_best_move_unfold. cbn [current_board set_consecutive_failures].
  rewrite Eover. cbn [history logging moves_played].
  destruct (play env (history s) (current_board l) 2) as [[m |] | [|]]; try reflexivity.
  destruct (chess.Move_bool m) eqn:Em; simpl; [| reflexivity].
  rewrite Em. simpl. reflexivity.
Qed.

(** ** Progress of the game loop *)

Lemma engine_walk_trans env b1 b2 b3 :
  engine_walk env b1 b2 -> engine_walk env b2 b3 -> engine_walk env b1 b3.
Proof.
  intros H12 H23. induction H23 as [| b' h t m _ IH Hplay]; [exact H12 |].
  eapply walk_push; eauto.
Qed.

Lemma engine_requests_app a b :
  engine_requests (a ++ b) = (engine_requests a ++ engine_requests b)%list.
Proof.
  induction a as [| c a IH]; simpl; [reflexivity |].
  destruct c; simpl; rewrite IH; reflexivity.
Qed.

Lemma browser_calls_no_requests cmds :
  Forall (fun c => to_the_browser c = true) cmds -> engine_requests cmds = [].
Proof.
  induction 1 as [| c cmds H _ IH]; simpl; [reflexivity |].
  destruct c; try discriminate H; exact IH.
Qed.

Lemma execution_records_no_failure new :
  Forall (fun r => from_execution r = true) new ->
  filter is_execution_failure new = [] /\ filter is_abort new = [].
Proof.
  induction 1 as [| [lvl msg] new H _ [IH1 IH2]]; simpl; [auto |].
  destruct msg; try discriminate H; auto.
Qed.

Section Progress.

Variable rules : chess.Rules.
Variable env : Env.

Lemma progress_refl l s : progress rules env l s l s.
Proof.
  exists [], [], []. simpl. rewrite !app_nil_r, Z.add_0_r.
  repeat split; auto; try (destruct (log_moves s); reflexivity); try constructor.
Qed.

Lemma progress_trans l1 s1 l2 s2 l3 s3 :
  progress rules env l1 s1 l2 s2 -> progress rules env l2 s2 l3 s3 ->
  progress rules env l1 s1 l3 s3.
Proof.
  intros (n1 & c1 & e1 & Hn1 & Hc1 & He1 & Hl1 & Hb1 & Hp1 & Hm1 & Hw1 & Hr1 & Hk1)
         (n2 & c2 & e2 & Hn2 & Hc2 & He2 & Hl2 & Hb2 & Hp2 & Hm2 & Hw2 & Hr2 & Hk2).
  pose proof (engine_walk_trans _ _ _ _ Hk1 Hk2) as Hk.
  exists (n2 ++ n1)%list, (c2 ++ c1)%list, (e1 ++ e2)%list.
  rewrite Hn2, Hn1, Hc2, Hc1, He2, He1, Hl2, Hl1, Hb2, Hb1, Hp2, Hp1.
  rewrite exec_events_app, executed_app, length_app, Nat2Z.inj_add, !app_assoc.
  rewrite engine_requests_app.
  repeat split; auto.
  - lia.
  - rewrite Hl1 in Hm2. destruct (log_moves s1).
    + rewrite map_app. congruence.
    + subst. reflexivity.
  - apply Forall_app. auto.
  - apply Forall_app. auto.
  - rewrite Hb2, Hb1 in Hk. exact Hk.
Qed.

Lemma progress_same_game l l' s : same_game l l' -> progress rules env l s l' s.
Proof.
  intros [Hb Hp]. exists [], [], []. simpl. rewrite !app_nil_r, Z.add_0_r, Hb.
  repeat split; auto; try (destruct (log_moves s); reflexivity); try constructor.
Qed.

Lemma progress_logging l s lvl msg :
  exec_event (lvl, msg) = [] -> progress rules env l s l (logging lvl msg s).
Proof.
  intro H. exists [(lvl, msg)], [], []. simpl. rewrite H. simpl.
  rewrite !app_nil_r, Z.add_0_r.
  repeat split; auto; try (destruct (log_moves s); reflexivity); try constructor.
Qed.

Lemma progress_request l s t :
  chess.is_game_over rules (current_board l) = false ->
  progress rules env l s l (called (engine_play (current_board l) t) s).
Proof.
  intro H. exists [], [engine_play (current_board l) t], []. simpl.
  rewrite !app_nil_r, Z.add_0_r.
  repeat split; auto; try (destruct (log_moves s); reflexivity); try constructor.
Qed.

Lemma progress_execute_move l s m :
  (exists h t, play env h (current_board l) t = Ok (Some m)) ->
  progress rules env l s
    (match fst (execute_move env m s) with
     | Ok true => {| moves_played := moves_played l + 1;
                     consecutive_failures := consecutive_failures l;
                     current_board := chess.push (current_board l) m |}
     | _ => l
     end)
    (snd (execute_move env m s)).
Proof.
  intros (h & t & Hplay).
  destruct (execute_move_spec env m s) as (new & winner & es & Hnew & _ & Hshape & Hes & Hent).
  destruct (execute_move_browser_only env m s) as [Hlm _ (cmds & Hcmds & Fcmds) _].
  simpl in Fcmds.
  assert (Hcase : (exists name, winner = Some name /\ fst (execute_move env m s) = Ok true /\
                     executed (exec_events new) = [m]) \/
                  (winner = None /\ fst (execute_move env m s) <> Ok true /\
                     executed (exec_events new) = [])).
  { destruct Hshape as [Hchain | (Hev & -> & Hr)].
    - pose proof (chain_winner _ _ _ _ _ Hchain) as Hwin.
      pose proof (chain_executed _ _ _ _ _ Hchain) as Hexe.
      destruct winner as [name |].
      + left. exists name. tauto.
      + right. tauto.
    - right. rewrite Hev, Hr. repeat split; auto. discriminate. }
  exists new, cmds, es.
  rewrite (browser_calls_no_requests cmds Fcmds).
  destruct Hcase as [(name & -> & Hr & Hexe) | (-> & Hr & Hexe)]; rewrite Hexe.
  - rewrite Hr. simpl. repeat split; auto.
    + destruct (log_moves s).
      * destruct Hent as (e & -> & He & _). simpl. congruence.
      * assumption.
    + destruct (log_moves s).
      * destruct Hent as (e & -> & _ & _ & He). constructor; [exact He | constructor].
      * subst es. constructor.
    + eapply walk_push; [constructor | exact Hplay].
  - subst es.
    assert (Hl : match fst (execute_move env m s) with
                 | Ok true => {| moves_played := moves_played l + 1;
                                 consecutive_failures := consecutive_failures l;
                                 current_board := chess.push (current_board l) m |}
                 | _ => l
                 end = l).
    { destruct (fst (execute_move env m s)) as [[|] |]; congruence. }
    rewrite Hl. simpl. rewrite app_nil_r in Hes. rewrite !app_nil_r, Z.add_0_r.
    repeat split; auto; try (destruct (log_moves s); reflexivity); try constructor.
Qed.

Lemma game_over_message_quiet lvl result :
  exec_event (lvl, game_over_message result) = [].
Proof.
  unfold game_over_message.
  repeat match goal with |- context [String.eqb ?a ?b] => destruct (String.eqb a b) end;
    reflexivity.
Qed.

(** Closes [progress l s l' (logging .. (logging .. s))] for locals that
    hold the same game. *)
Ltac only_logs :=
  match goal with
  | |- progress _ _ ?l ?s ?l' _ =>
      apply (progress_trans l s l' s);
      [ apply progress_same_game; split; reflexivity
      | repeat first
          [ apply progress_refl
          | eapply progress_trans; [| apply progress_logging; reflexivity] ] ]
  end.

Lemma loop_body_progress l s :
  progress rules env l s
    (snd (fst (loop_body rules env l s))) (snd (loop_body rules env l s)).
Proof.
  rewrite loop_body_unfold. cbv zeta.
  destruct (chess.is_game_over rules (current_board l)) eqn:Eover.
  - simpl. apply progress_logging, game_over_message_quiet.
  - set (l0 := set_consecutive_failures 0 l).
    set (s0 := called (engine_play (current_board l) 2)
                 (logging INFO (To_play (moves_played l + 1)
                                        (chess.turn (current_board l))) s)).
    assert (H0 : progress rules env l s l0 s0).
    { eapply (progress_trans l s l
                (logging INFO (To_play (moves_played l + 1)
                                       (chess.turn (current_board l))) s));
        [apply progress_logging; reflexivity |].
      eapply (progress_trans _ _ l s0); [apply progress_request; exact Eover |].
      apply progress_same_game. split; reflexivity. }
    destruct (play env (history s) (current_board l) 2) as [[m |] | [|]] eqn:Eplay.
    + destruct (chess.Move_bool m).
      * pose proof (progress_execute_move l0 (logging INFO (Calculated_best_move m) s0) m
                      (ex_intro _ _ (ex_intro _ _ Eplay))) as H2.
        eapply progress_trans; [exact H0 |].
        eapply (progress_trans _ _ l0 (logging INFO (Calculated_best_move m) s0));
          [apply progress_logging; reflexivity |].
        destruct (execute_move env m (logging INFO (Calculated_best_move m) s0))
          as [[[|] | e] s2]; cbn [fst snd] in H2.
        -- eapply progress_trans; [exact H2 |]. unfold played.
           destruct (chess.san rules (current_board l0) m);
             destruct ((moves_played l0 + 1) mod 10 =? 0); cbn [fst snd]; only_logs.
        -- eapply progress_trans; [exact H2 |]. unfold not_played.
           destruct (consecutive_failures _ >=? max_failures); cbn [fst snd]; only_logs.
        -- eapply progress_trans; [exact H2 |]. unfold on_exception.
           destruct e; [destruct (consecutive_failures _ >=? max_failures) |];
             cbn [fst snd]; only_logs.
      * eapply progress_trans; [exact H0 |]. unfold skip_turn. cbn [fst snd]. only_logs.
    + eapply progress_trans; [exact H0 |]. unfold skip_turn. cbn [fst snd]. only_logs.
    + eapply progress_trans; [exact H0 |]. unfold skip_turn. cbn [fst snd]. only_logs.
    + eapply progress_trans; [exact H0 |]. unfold on_exception. cbn [fst snd]. only_logs.
Qed.

Lemma while_loop_progress fuel max_moves l s :
  progress rules env l s
    (snd (fst (while_loop rules env fuel max_moves l s)))
    (snd (while_loop rules env fuel max_moves l s)).
Proof.
  revert l s. induction fuel as [| fuel IH]; intros l s; simpl.
  - destruct (moves_played l <? max_moves); apply progress_refl.
  - destruct (moves_played l <? max_moves); [| apply progress_refl].
    pose proof (loop_body_progress l s) as Hbody.
    destruct (loop_body rules env l s) as [[[|] l'] s']; cbn [fst snd] in *.
    + eapply progress_trans; [exact Hbody | apply IH].
    + exact Hbody.
Qed.

End Progress.

(** ** What one pass logs *)

Lemma execute_move_outcome env m s :
  exists new,
    logger (snd (execute_move env m s)) = new ++ logger s /\
    Forall (fun r => from_execution r = true) new /\
    (fst (execute_move env m s) = Ok true /\ executed (exec_events new) = [m] \/
     fst (execute_move env m s) <> Ok true /\ executed (exec_events new) = []).
Proof.
  destruct (execute_move_spec env m s) as (new & winner & es & Hnew & Fnew & Hshape & _).
  exists new. split; [exact Hnew |]. split; [exact Fnew |].
  destruct Hshape as [Hchain | (Hev & -> & Hr)].
  - pose proof (chain_winner _ _ _ _ _ Hchain) as Hwin.
    pose proof (chain_executed _ _ _ _ _ Hchain) as Hexe.
    destruct winner; [left | right]; tauto.
  - right. rewrite Hev, Hr. split; [discriminate | reflexivity].
Qed.

(** In one pass of the loop either no move is reported as executed, or no
    execution failure is logged and the loop goes on. *)
Lemma loop_body_turn rules env l s :
  exists new,
    logger (snd (loop_body rules env l s)) = new ++ logger s /\
    (executed (exec_events new) = [] \/
     filter is_execution_failure new = [] /\
     fst (fst (loop_body rules env l s)) = Continue).
Proof.
  rewrite loop_body_unfold. cbv zeta.
  destruct (chess.is_game_over rules (current_board l)).
  { eexists [_]. split; [reflexivity |]. left. simpl.
    rewrite game_over_message_quiet. reflexivity. }
  destruct (play env (history s) (current_board l) 2) as [[m |] | [|]];
    [destruct (chess.Move_bool m) | | |];
    try (unfold skip_turn, on_exception; cbn [fst snd];
         eexists [_; _]; split; [reflexivity | left; reflexivity]);
    try (unfold skip_turn, on_exception; cbn [fst snd];
         eexists [_; _; _]; split; [reflexivity | left; reflexivity]).
  match goal with
  | |- context [execute_move env m ?s1] =>
      destruct (execute_move_outcome env m s1) as (new & Hnew & Fnew & Hcase);
      destruct (execute_move env m s1) as [[[|] | e] s2]
  end; cbn [fst snd] in *;
    destruct Hcase as [(Hr & Hexe) | (Hr & Hexe)]; try discriminate Hr;
    try (exfalso; apply Hr; reflexivity).
  - (* played *)
    unfold played.
    destruct (chess.san rules _ m); destruct (_ mod 10 =? 0); cbn [fst snd logger logging];
      rewrite Hnew;
      [ eexists ([_; _] ++ new ++ [_; _]) | eexists ([_] ++ new ++ [_; _])
      | eexists ([_; _] ++ new ++ [_; _]) | eexists ([_] ++ new ++ [_; _]) ];
      (split; [simpl; rewrite <- app_assoc; reflexivity |]); right;
      (split; [| reflexivity]);
      rewrite !filter_app, (proj1 (execution_records_no_failure new Fnew)); reflexivity.
  - (* not played *)
    unfold not_played.
    destruct (consecutive_failures _ >=? max_failures); cbn [fst snd logger logging];
      rewrite Hnew;
      [ eexists ([_; _] ++ new ++ [_; _]) | eexists ([_] ++ new ++ [_; _]) ];
      (split; [simpl; rewrite <- app_assoc; reflexivity |]); left;
      rewrite !exec_events_app, !executed_app, Hexe; reflexivity.
  - (* an exception *)
    unfold on_exception.
    destruct e; [destruct (consecutive_failures _ >=? max_failures) |];
      cbn [fst snd logger logging]; rewrite Hnew;
      eexists ([_] ++ new ++ [_; _]);
      (split; [simpl; rewrite <- app_assoc; reflexivity |]); left;
      rewrite !exec_events_app, !executed_app, Hexe; reflexivity.
Qed.

(** ** The board and the log *)

Lemma failure_logged new :
  In (ERROR, Move_execution_failed_retrying) new ->
  filter is_execution_failure new <> [].
Proof.
  intros Hin Hnil.
  assert (H : In (ERROR, Move_execution_failed_retrying) (filter is_execution_failure new))
    by (apply filter_In; split; [exact Hin | reflexivity]).
  rewrite Hnil in H. exact H.
Qed.

(** C5: in a pass of the loop in which move execution is reported to have
    failed ("Move execution failed, retrying..."), the internal board is left
    as it was. More generally the board only ever changes by a push of a move
    that [execute_move] has just reported as executed: after any number of
    passes it is the board at the start followed by exactly the moves
    reported as executed, in order, and [moves_played] has grown by their
    number. *)
Theorem board_changes_only_on_reported_success rules env :
  (forall l s,
      exists new,
        logger (snd (loop_body rules env l s)) = new ++ logger s /\
        current_board (snd (fst (loop_body rules env l s)))
          = current_board l ++ executed (exec_events new) /\
        (In (ERROR, Move_execution_failed_retrying) new ->
         current_board (snd (fst (loop_body rules env l s))) = current_board l)) /\
  (forall fuel max_moves l s,
      exists new,
        logger (snd (while_loop rules env fuel max_moves l s)) = new ++ logger s /\
        current_board (snd (fst (while_loop rules env fuel max_moves l s)))
          = current_board l ++ executed (exec_events new) /\
        moves_played (snd (fst (while_loop rules env fuel max_moves l s)))
          = moves_played l + Z.of_nat (List.length (executed (exec_events new)))).
Proof.
  split.
  - intros l s.
    destruct (loop_body_progress rules env l s)
      as (new & _ & _ & Hnew & _ & _ & _ & Hboard & _).
    destruct (loop_body_turn rules env l s) as (new' & Hnew' & Hturn).
    assert (new' = new) by (eapply app_inv_tail; rewrite <- Hnew, <- Hnew'; reflexivity).
    subst new'. exists new. split; [exact Hnew |]. split; [exact Hboard |].
    intro Hin. rewrite Hboard. destruct Hturn as [-> | [Hnone _]].
    + apply app_nil_r.
    + exfalso. exact (failure_logged new Hin Hnone).
  - intros fuel max_moves l s.
    destruct (while_loop_progress rules env fuel max_moves l s)
      as (new & _ & _ & Hnew & _ & _ & _ & Hboard & Hplayed & _).
    exists new. auto.
Qed.

Lemma save_move_log_unfold env s :
  save_move_log env s =
  match move_log s with
  | [] => (Ok tt, s)
  | _ :: _ =>
      match write_json env (history s) (move_log s) with
      | Ok _ => (Ok tt, logging INFO Move_log_saved (called (json_dump (move_log s)) s))
      | Raise Exception =>
          (Ok tt, logging ERROR Failed_to_save_move_log (called (json_dump (move_log s)) s))
      | Raise KeyboardInterrupt =>
          (Raise KeyboardInterrupt, called (json_dump (move_log s)) s)
      end
  end.
Proof.
  unfold save_move_log, bind, get_move_log, try_except, call, log, ret.
  destruct (move_log s) as [| e es]; [reflexivity |].
  destruct (write_json env (history s) (e :: es)) as [[] | [|]]; reflexivity.
Qed.

(** C6 (as amended): over any number of passes of the game loop, the moves
    applied to the board are exactly the moves reported as executed, in
    order. When logging of moves is enabled ([log_moves], the default), the
    entries appended to [move_log] are, in order, one for each of them; when
    it is off no entry is appended, and a log that was empty stays empty, so
    that [save_move_log] writes nothing. Each entry names one of the three
    methods (drag_drop, javascript, keyboard) and the squares of its move;
    and [save_move_log] hands [json.dump] exactly [move_log] whenever the log
    is not empty, and calls nothing when it is empty. *)
Theorem applied_moves_logged_once rules env fuel max_moves l s :
  exists new es,
    logger (snd (while_loop rules env fuel max_moves l s)) = new ++ logger s /\
    move_log (snd (while_loop rules env fuel max_moves l s)) = move_log s ++ es /\
    current_board (snd (fst (while_loop rules env fuel max_moves l s)))
      = current_board l ++ executed (exec_events new) /\
    (if log_moves s then map move es = executed (exec_events new) else es = []) /\
    Forall well_formed_entry es /\
    (log_moves s = false -> move_log s = [] ->
     save_move_log env (snd (while_loop rules env fuel max_moves l s))
       = (Ok tt, snd (while_loop rules env fuel max_moves l s))) /\
    (forall s', history (snd (save_move_log env s')) =
                match move_log s' with
                | [] => history s'
                | _ :: _ => json_dump (move_log s') :: history s'
                end).
Proof.
  destruct (while_loop_progress rules env fuel max_moves l s)
    as (new & cmds & es & Hnew & _ & Hes & _ & Hboard & _ & Hmap & Hwf & _).
  exists new, es.
  split; [exact Hnew |]. split; [exact Hes |]. split; [exact Hboard |].
  split; [exact Hmap |]. split; [exact Hwf |]. split.
  - intros Hoff Hempty. rewrite Hoff in Hmap. subst es.
    rewrite save_move_log_unfold, Hes, Hempty. reflexivity.
  - intro s'. rewrite save_move_log_unfold.
    destruct (move_log s') as [| e rest]; [reflexivity |].
    destruct (write_json env (history s') (e :: rest)) as [[] | [|]]; reflexivity.
Qed.

(** ** Legal positions *)

Lemma legal_from_app rules stack moves m :
  legal_from rules stack (moves ++ [m]) =
  legal_from rules stack moves && chess.is_legal rules (stack ++ moves) m.
Proof.
  revert stack. induction moves as [| x moves IH]; intro stack; simpl.
  - rewrite app_nil_r, andb_true_r. reflexivity.
  - rewrite IH. unfold chess.push. rewrite <- app_assoc, andb_assoc. reflexivity.
Qed.

Lemma legal_position_push rules b m :
  legal_position rules (chess.push b m) =
  legal_position rules b && chess.is_legal rules b m.
Proof. unfold legal_position, chess.push. apply legal_from_app. Qed.

(** C3: provided the engine only returns moves that are legal on the board
    it is asked about, every board that the game loop reaches from a legal
    position is a legal position; and whatever the engine returns, every move
    pushed on the internal board is a move that the engine returned for
    exactly the board it is pushed on. *)
Theorem loop_keeps_position_legal rules env fuel max_moves l s :
  (forall h b t m, play env h b t = Ok (Some m) -> chess.is_legal rules b m = true) ->
  legal_position rules (current_board l) = true ->
  engine_walk env (current_board l)
    (current_board (snd (fst (while_loop rules env fuel max_moves l s)))) /\
  legal_position rules
    (current_board (snd (fst (while_loop rules env fuel max_moves l s)))) = true.
Proof.
  intros Hengine Hlegal.
  destruct (while_loop_progress rules env fuel max_moves l s)
    as (new & cmds & es & _ & _ & _ & _ & _ & _ & _ & _ & _ & Hwalk).
  split; [exact Hwalk |].
  induction Hwalk as [| b' h t m _ IH Hplay]; [exact Hlegal |].
  rewrite legal_position_push, IH. simpl. eapply Hengine. exact Hplay.
Qed.

(** C6 (as stated) fails: with [log_moves] switched off, e2e4 is executed by
    drag and drop and applied to the board, and the move log stays empty, so
    that nothing is persisted. *)
Lemma applied_move_not_logged :
  exists l s,
    play_game_loop Stub.endless Stub.working_page 5 1 (new_bot false) = Some (l, s) /\
    executed (exec_events (logger s)) = [Stub.e2e4] /\
    current_board l = [Stub.e2e4] /\
    move_log s = [] /\
    history (snd (save_move_log Stub.working_page s)) = history s.
Proof.
  eexists. eexists. split; [vm_compute; reflexivity |].
  repeat split; vm_compute; reflexivity.
Qed.

Lemma stub_engine_legal h b t m :
  play Stub.working_page h b t = Ok (Some m) ->
  chess.is_legal Stub.endless b m = true.
Proof.
  simpl. unfold Stub.engine. intro H. inversion H as [Hnth]. clear H.
  destruct (List.length b) as [| [| [| [| n]]]]; simpl in Hnth.
  1-4: inversion Hnth; reflexivity.
  destruct n; discriminate Hnth.
Qed.

Lemma loop_keeps_position_legal_witness :
  engine_walk Stub.working_page (current_board initial_locals)
    (current_board (snd (fst (while_loop Stub.endless Stub.working_page 5 3
                                initial_locals (new_bot true))))) /\
  legal_position Stub.endless
    (current_board (snd (fst (while_loop Stub.endless Stub.working_page 5 3
                                initial_locals (new_bot true))))) = true.
Proof.
  apply (loop_keeps_position_legal Stub.endless Stub.working_page 5 3
           initial_locals (new_bot true)).
  - exact stub_engine_legal.
  - reflexivity.
Defined.

(** ** A finished game *)

(** C9: when the board reports that the game is over, the pass of the loop
    that finds it so leaves the loop at once: it logs the classification of
    the result, changes neither the board nor the counters, and makes no call
    to the engine; [calculate_best_move] itself returns [None] on such a
    position without calling the engine. Over any run, the engine is only
    ever asked about positions that are not over. *)
Theorem game_over_stops_the_loop rules env l s :
  chess.is_game_over rules (current_board l) = true ->
  loop_body rules env l s =
    (Break, l, logging INFO (game_over_message (chess.result rules (current_board l))) s) /\
  (forall fuel max_moves,
      moves_played l < max_moves ->
      while_loop rules env (S fuel) max_moves l s =
        (Exited, l,
         logging INFO (game_over_message (chess.result rules (current_board l))) s)) /\
  history (snd (loop_body rules env l s)) = history s /\
  (forall t s1,
      calculate_best_move rules env (current_board l) t s1 =
        (Ok None, logging INFO Game_is_over_no_moves_to_calculate s1)) /\
  game_over_message "1-0" = Game_Over_White_wins /\
  game_over_message "0-1" = Game_Over_Black_wins /\
  game_over_message "1/2-1/2" = Game_Over_Draw /\
  (forall fuel max_moves l0 s0,
      exists cmds,
        history (snd (while_loop rules env fuel max_moves l0 s0)) = cmds ++ history s0 /\
        Forall (fun b => chess.is_game_over rules b = false) (engine_requests cmds)).
Proof.
  intro Hover.
  assert (Hbody : loop_body rules env l s =
                  (Break, l, logging INFO
                               (game_over_message (chess.result rules (current_board l))) s)).
  { rewrite loop_body_unfold. cbv zeta. rewrite Hover. reflexivity. }
  split; [exact Hbody |]. split; [| split; [rewrite Hbody; reflexivity |]].
  - intros fuel max_moves Hlt. simpl.
    apply Z.ltb_lt in Hlt. rewrite Hlt, Hbody. reflexivity.
  - split; [intros t s1; rewrite calculate_best_move_unfold, Hover; reflexivity |].
    repeat split.
    intros fuel max_moves l0 s0.
    destruct (while_loop_progress rules env fuel max_moves l0 s0)
      as (new & cmds & es & _ & Hcmds & _ & _ & _ & _ & _ & _ & Hreq & _).
    exists cmds. auto.
Qed.

Lemma game_over_stops_the_loop_witness :
  let l := {| moves_played := 4; consecutive_failures := 0;
              current_board := Stub.line |} in
  let s := new_bot true in
  loop_body Stub.four_plies Stub.working_page l s =
    (Break, l, logging INFO Game_Over_Black_wins s) /\
  while_loop Stub.four_plies Stub.working_page 1 100 l s =
    (Exited, l, logging INFO Game_Over_Black_wins s) /\
  history (snd (loop_body Stub.four_plies Stub.working_page l s)) = [].
Proof.
  intros l s.
  destruct (game_over_stops_the_loop Stub.four_plies Stub.working_page l s eq_refl)
    as (Hbody & Hloop & Hhist & _).
  split; [exact Hbody |]. split; [| exact Hhist].
  apply (Hloop 0%nat 100). reflexivity.
Defined.

(** ** When execution keeps failing *)

Lemma filter_quiet {A} (p : A -> bool) new old :
  filter p new = [] -> filter p (new ++ old) = filter p old.
Proof. intro H. rewrite filter_app, H. reflexivity. Qed.

(** A pass of the loop in which the engine has a move and [execute_move]
    reports failure: one more failure is logged, nothing else changes, and
    the loop goes on with the counter at 1. *)
Lemma failing_pass rules env l s :
  chess.is_game_over rules (current_board l) = false ->
  (forall h t, exists m,
      play env h (current_board l) t = Ok (Some m) /\ chess.Move_bool m = true) ->
  (forall m s, fst (execute_move env m s) = Ok false) ->
  exists s',
    loop_body rules env l s = (Continue, set_consecutive_failures 1 l, s') /\
    execution_failures (logger s') = S (execution_failures (logger s)) /\
    filter is_abort (logger s') = filter is_abort (logger s).
Proof.
  intros Hover Hengine Hfail.
  rewrite loop_body_unfold. cbv zeta. rewrite Hover.
  destruct (Hengine (history s) 2%Q) as (m & -> & ->).
  match goal with
  | |- context [execute_move env m ?s1] =>
      destruct (execute_move_outcome env m s1) as (new & Hnew & Fnew & _);
      pose proof (Hfail m s1) as Hr;
      destruct (execute_move env m s1) as [r s2]
  end.
  cbn [fst snd] in *. subst r.
  destruct (execution_records_no_failure new Fnew) as [Hnf Hna].
  eexists. split; [reflexivity |].
  unfold execution_failures. cbn [logger logging]. rewrite Hnew.
  cbn [filter is_execution_failure is_abort snd].
  rewrite (filter_quiet _ _ _ Hnf), (filter_quiet _ _ _ Hna). split; reflexivity.
Qed.

Lemma failing_run rules env max_moves :
  forall n l s,
    chess.is_game_over rules (current_board l) = false ->
    (forall h t, exists m,
        play env h (current_board l) t = Ok (Some m) /\ chess.Move_bool m = true) ->
    (forall m s, fst (execute_move env m s) = Ok false) ->
    moves_played l < max_moves ->
    exists l' s',
      while_loop rules env n max_moves l s = (Running, l', s') /\
      moves_played l' = moves_played l /\
      current_board l' = current_board l /\
      consecutive_failures l' = match n with O => consecutive_failures l | S _ => 1 end /\
      execution_failures (logger s') = (execution_failures (logger s) + n)%nat /\
      filter is_abort (logger s') = filter is_abort (logger s).
Proof.
  induction n as [| n IH]; intros l s Hover Hengine Hfail Hlt; simpl;
    rewrite (proj2 (Z.ltb_lt _ _) Hlt).
  - exists l, s. rewrite Nat.add_0_r. repeat split; auto.
  - destruct (failing_pass rules env l s Hover Hengine Hfail) as (s1 & -> & Hf1 & Ha1).
    destruct (IH (set_consecutive_failures 1 l) s1 Hover Hengine Hfail Hlt)
      as (l' & s' & -> & Hp & Hb & Hc & Hf & Ha).
    exists l', s'. split; [reflexivity |]. split; [exact Hp |]. split; [exact Hb |].
    split; [| split; [rewrite Hf, Hf1; lia | congruence]].
    rewrite Hc. destruct n; reflexivity.
Qed.

(** On the page without a board, each strategy reports failure. *)
Lemma dead_page_strategy name func m s :
  In (name, func) (methods Stub.dead_page) -> exists s', func m s = (Ok false, s').
Proof.
  simpl. intros [H | [H | [H | []]]]; inversion H; subst; clear H;
    unfold execute_move_with_drag_drop, execute_move_with_javascript,
      execute_move_with_keyboard, find_square_by_position,
      try_except, bind, or_raise, call, log, ret, raise;
    destruct (chess.square_name (chess.from_square m));
    destruct (chess.square_name (chess.to_square m)); cbn; eexists; reflexivity.
Qed.

Lemma dead_page_fails m s : fst (execute_move Stub.dead_page m s) = Ok false.
Proof.
  rewrite execute_move_unfold.
  destruct (chess.square_name (chess.from_square m)) as [f |]; [| reflexivity].
  destruct (chess.square_name (chess.to_square m)) as [t |]; [| reflexivity].
  generalize (logging INFO (Executing_move f t) s).
  generalize (dead_page_strategy).
  generalize (methods Stub.dead_page).
  intro ms. induction ms as [| [name func] rest IH]; intros Hfail s0; [reflexivity |].
  rewrite for_methods_cons.
  destruct (Hfail name func m (logging INFO (Trying_method name) s0)) as [s1 ->];
    [left; reflexivity |].
  specialize (IH (fun n g m s H => Hfail n g m s (or_intror H)) s1).
  destruct (for_methods Stub.dead_page rest m f t s1) as [[b | [|]] s2]; exact IH.
Qed.

(** C1 (the code does not do this): while the engine has a move and
    [execute_move] reports failure every time, the loop is still running
    after any number [n] of passes: [n] execution failures in a row have been
    logged, the counter of consecutive failures stands at 1 (it is reset at
    the start of each pass) and "Too many move execution failures" has not
    been logged. The loop does not stop after 3 failures, nor after any other
    number. *)
Theorem failures_never_reach_the_threshold rules env max_moves n l s :
  chess.is_game_over rules (current_board l) = false ->
  (forall h t, exists m,
      play env h (current_board l) t = Ok (Some m) /\ chess.Move_bool m = true) ->
  (forall m s, fst (execute_move env m s) = Ok false) ->
  moves_played l < max_moves ->
  exists l' s',
    while_loop rules env n max_moves l s = (Running, l', s') /\
    execution_failures (logger s') = (execution_failures (logger s) + n)%nat /\
    consecutive_failures l' = match n with O => consecutive_failures l | S _ => 1 end /\
    filter is_abort (logger s') = filter is_abort (logger s).
Proof.
  intros Hover Hengine Hfail Hlt.
  destruct (failing_run rules env max_moves n l s Hover Hengine Hfail Hlt)
    as (l' & s' & Hrun & _ & _ & Hc & Hf & Ha).
  exists l', s'. auto.
Qed.

Lemma failures_never_reach_the_threshold_witness :
  exists l' s',
    while_loop Stub.endless Stub.dead_page 4 100 initial_locals (new_bot true)
      = (Running, l', s') /\
    execution_failures (logger s') = (execution_failures (logger (new_bot true)) + 4)%nat /\
    consecutive_failures l' = 1 /\
    filter is_abort (logger s') = filter is_abort (logger (new_bot true)).
Proof.
  apply (failures_never_reach_the_threshold Stub.endless Stub.dead_page 100 4
           initial_locals (new_bot true)).
  - reflexivity.
  - intros h t. exists Stub.e2e4. split; reflexivity.
  - exact dead_page_fails.
  - reflexivity.
Defined.

(** C2 (the code does not do this): while the engine has a move for the
    initial position and [execute_move] reports failure every time,
    [play_game_loop] does not return, whatever number of passes it is given:
    neither the move ceiling nor the failure ceiling is ever reached. *)
Theorem play_game_loop_need_not_terminate rules env max_moves s :
  chess.is_game_over rules chess.initial = false ->
  (forall h t, exists m,
      play env h chess.initial t = Ok (Some m) /\ chess.Move_bool m = true) ->
  (forall m s, fst (execute_move env m s) = Ok false) ->
  0 < max_moves ->
  forall fuel, play_game_loop rules env fuel max_moves s = None.
Proof.
  intros Hover Hengine Hfail Hlt fuel. unfold play_game_loop.
  destruct (failing_run rules env max_moves fuel initial_locals
              (logging INFO (Starting_game max_moves) s) Hover Hengine Hfail Hlt)
    as (l' & s' & -> & _).
  reflexivity.
Qed.

Lemma play_game_loop_need_not_terminate_witness :
  play_game_loop Stub.endless Stub.dead_page 1000 100 (new_bot true) = None.
Proof.
  refine (play_game_loop_need_not_terminate Stub.endless Stub.dead_page 100
            (new_bot true) _ _ _ _ 1000%nat).
  - reflexivity.
  - intros h t. exists Stub.e2e4. split; reflexivity.
  - exact dead_page_fails.
  - reflexivity.
Defined.

(** ** The engine advisor *)

(** C8 (as amended): [calculate_best_move] returns [None] both when the
    engine reports no move and when the communication with it fails; the two
    cases differ only in the record logged (a warning "Engine returned no
    move", an error "Move calculation failed"). The caller receives the same
    value [None] in both, and [play_game_loop] goes on in the same way,
    skipping the turn. *)
Theorem engine_failure_and_no_move_return_None rules env_failed env_silent b t s :
  chess.is_game_over rules b = false ->
  play env_failed (history s) b t = Raise Exception ->
  play env_silent (history s) b t = Ok None ->
  calculate_best_move rules env_failed b t s =
    (Ok None, logging ERROR Move_calculation_failed (called (engine_play b t) s)) /\
  calculate_best_move rules env_silent b t s =
    (Ok None, logging WARNING Engine_returned_no_move (called (engine_play b t) s)) /\
  (forall l, current_board l = b -> t = 2%Q ->
     fst (loop_body rules env_failed l s) = (Continue, set_consecutive_failures 0 l) /\
     fst (loop_body rules env_silent l s) = (Continue, set_consecutive_failures 0 l)).
Proof.
  intros Hover Hfailed Hsilent.
  rewrite !calculate_best_move_unfold, Hover, Hfailed, Hsilent.
  split; [reflexivity |]. split; [reflexivity |].
  intros l Hb Ht. subst b t. rewrite !loop_body_unfold. cbv zeta.
  rewrite Hover, Hfailed, Hsilent. split; reflexivity.
Qed.

Lemma engine_failure_and_no_move_return_None_witness :
  calculate_best_move Stub.endless Stub.broken_engine chess.initial 2 (new_bot true) =
    (Ok None, logging ERROR Move_calculation_failed
                (called (engine_play chess.initial 2) (new_bot true))) /\
  calculate_best_move Stub.endless Stub.silent_engine chess.initial 2 (new_bot true) =
    (Ok None, logging WARNING Engine_returned_no_move
                (called (engine_play chess.initial 2) (new_bot true))) /\
  (forall l, current_board l = chess.initial -> 2%Q = 2%Q ->
     fst (loop_body Stub.endless Stub.broken_engine l (new_bot true))
       = (Continue, set_consecutive_failures 0 l) /\
     fst (loop_body Stub.endless Stub.silent_engine l (new_bot true))
       = (Continue, set_consecutive_failures 0 l)).
Proof.
  apply (engine_failure_and_no_move_return_None Stub.endless
           Stub.broken_engine Stub.silent_engine chess.initial 2 (new_bot true));
    reflexivity.
Defined.

(** C8 (as stated) fails: a failed communication with the engine and an
    engine without a move give the caller the same value, and the game loop
    the same continuation. *)
Lemma engine_failure_not_distinguished :
  fst (calculate_best_move Stub.endless Stub.broken_engine chess.initial 2 (new_bot true))
    = fst (calculate_best_move Stub.endless Stub.silent_engine chess.initial 2 (new_bot true)) /\
  fst (loop_body Stub.endless Stub.broken_engine initial_locals (new_bot true))
    = fst (loop_body Stub.endless Stub.silent_engine initial_locals (new_bot true)).
Proof. split; reflexivity. Qed.

(** ** What reaches the page *)

Lemma agree_refl s : agree s s.
Proof. repeat split. Qed.

Lemma agrees_ret {A} (a : A) : agrees (ret a) (ret a).
Proof. intros s1 s2 H. split; [reflexivity | exact H]. Qed.

Lemma agrees_raise {A} e : agrees (@raise A e) (raise e).
Proof. intros s1 s2 H. split; [reflexivity | exact H]. Qed.

Lemma agrees_or_raise {A} (o : option A) : agrees (or_raise o) (or_raise o).
Proof. destruct o; [apply agrees_ret | apply agrees_raise]. Qed.

Lemma agrees_bind {A B} (c1 c2 : M A) (k1 k2 : A -> M B) :
  agrees c1 c2 -> (forall a, agrees (k1 a) (k2 a)) -> agrees (bind c1 k1) (bind c2 k2).
Proof.
  intros Hc Hk s1 s2 H. unfold bind. destruct (Hc s1 s2 H) as [Hr Hs].
  destruct (c1 s1) as [[a1 | e1] s1'], (c2 s2) as [[a2 | e2] s2'];
    simpl in *; try discriminate Hr.
  - inversion Hr. subst a2. apply Hk, Hs.
  - inversion Hr. split; [reflexivity | assumption].
Qed.

Lemma agrees_try_except {A} (b1 b2 h1 h2 : M A) :
  agrees b1 b2 -> agrees h1 h2 -> agrees (try_except b1 h1) (try_except b2 h2).
Proof.
  intros Hb Hh s1 s2 H. unfold try_except. destruct (Hb s1 s2 H) as [Hr Hs].
  destruct (b1 s1) as [[a1 | e1] s1'], (b2 s2) as [[a2 | e2] s2'];
    simpl in *; try discriminate Hr.
  - split; assumption.
  - inversion Hr. subst e2. destruct e1; [apply Hh, Hs | split; assumption].
Qed.

(** Log records do not count, whatever they say. *)
Lemma agrees_log lvl1 msg1 lvl2 msg2 : agrees (log lvl1 msg1) (log lvl2 msg2).
Proof. intros s1 s2 H. split; [reflexivity | exact H]. Qed.

Lemma agrees_call {A} c (oracle : History -> Result A) :
  agrees (call c oracle) (call c oracle).
Proof.
  intros s1 s2 (Hh & Hm & Hl). unfold call, called, agree. simpl.
  rewrite Hh. repeat split; assumption.
Qed.

Ltac agreement :=
  repeat first
    [ lazymatch goal with
      | |- agrees (ret _) (ret _) => apply agrees_ret
      | |- agrees (raise _) (raise _) => apply agrees_raise
      | |- agrees (or_raise _) (or_raise _) => apply agrees_or_raise
      | |- agrees (try_except _ _) (try_except _ _) => apply agrees_try_except
      | |- agrees (bind _ _) (bind _ _) => apply agrees_bind; [ | intro ]
      end
    | apply agrees_ret | apply agrees_raise | apply agrees_or_raise
    | apply agrees_log | apply agrees_call
    | apply agrees_try_except
    | apply agrees_bind; [ | intro ]
    | match goal with
      | |- agrees (match ?x with _ => _ end) (match ?x with _ => _ end) => destruct x
      | |- agrees (let '(_, _) := ?x in _) (let '(_, _) := ?x in _) => destruct x
      end ].

Lemma strategies_ignore_promotion env f t p :
  agrees (execute_move_with_drag_drop env (chess.mkMove f t p))
         (execute_move_with_drag_drop env (chess.mkMove f t None)) /\
  agrees (execute_move_with_javascript env (chess.mkMove f t p))
         (execute_move_with_javascript env (chess.mkMove f t None)) /\
  agrees (execute_move_with_keyboard env (chess.mkMove f t p))
         (execute_move_with_keyboard env (chess.mkMove f t None)).
Proof.
  unfold execute_move_with_drag_drop, execute_move_with_javascript,
    execute_move_with_keyboard, find_square_by_position, get_square_center_coordinates.
  cbn [chess.from_square chess.to_square].
  split; [| split]; agreement.
Qed.

Lemma stays_bind_ret {A B} F (a : A) (k : A -> M B) :
  stays_within F (k a) -> stays_within F (bind (ret a) k).
Proof. intros H s. exact (H s). Qed.

Lemma find_square_by_position_calls env sq :
  stays_within drag_drop_calls (find_square_by_position env sq).
Proof.
  unfold find_square_by_position.
  repeat first [apply stays_call; left; reflexivity | progress footprint].
Qed.

Lemma get_square_center_coordinates_calls env info :
  stays_within drag_drop_calls (get_square_center_coordinates env info).
Proof.
  unfold get_square_center_coordinates.
  footprint_with
    ltac:(idtac;
          lazymatch goal with
          | |- stays_within _ (call _ _) =>
              apply stays_call; right; left; eexists; reflexivity
          end).
Qed.

Lemma drag_drop_calls_only env m :
  stays_within drag_drop_calls (execute_move_with_drag_drop env m).
Proof.
  unfold execute_move_with_drag_drop.
  footprint_with
    ltac:(idtac;
          lazymatch goal with
          | |- stays_within _ (find_square_by_position _ _) =>
              apply find_square_by_position_calls
          | |- stays_within _ (get_square_center_coordinates _ _) =>
              apply get_square_center_coordinates_calls
          | |- stays_within _ (call _ _) =>
              first
                [ apply stays_call; right; right; left; eexists; reflexivity
                | apply stays_call; right; right; right; do 5 eexists; reflexivity
                | apply stays_call; left; reflexivity
                | apply stays_call; right; left; eexists; reflexivity ]
          end).
Qed.

Lemma javascript_calls_only env m fn tn :
  chess.square_name (chess.from_square m) = Some fn ->
  chess.square_name (chess.to_square m) = Some tn ->
  stays_within (javascript_calls fn tn) (execute_move_with_javascript env m).
Proof.
  intros Hf Ht. unfold execute_move_with_javascript. rewrite Hf, Ht. cbn [or_raise].
  apply stays_try_except; [| footprint].
  do 2 apply stays_bind_ret. footprint.
Qed.

Lemma keyboard_calls_only env m fn tn :
  chess.square_name (chess.from_square m) = Some fn ->
  chess.square_name (chess.to_square m) = Some tn ->
  stays_within (keyboard_calls fn tn) (execute_move_with_keyboard env m).
Proof.
  intros Hf Ht. unfold execute_move_with_keyboard. rewrite Hf, Ht. cbn [or_raise].
  apply stays_try_except; [| footprint].
  do 2 apply stays_bind_ret.
  repeat first
    [ apply stays_call; left; reflexivity
    | apply stays_call; right; left; eexists; reflexivity
    | apply stays_call; right; right; reflexivity
    | progress footprint ].
Qed.

(** C10: a move's promotion piece reaches the page through none of the three
    strategies. Run on a move with a promotion piece and on the same move
    without it, each strategy makes the same calls to the browser and returns
    the same. The calls of the drag-and-drop strategy are the search for the
    board, the reading of its rectangle, the scroll and one drag between two
    points; the JavaScript strategy only runs the script with the names of
    the origin and destination squares; the keyboard strategy only looks for
    the board, clicks it, and types the two square names followed by ENTER. *)
Theorem promotion_never_reaches_the_page env f t p s :
  let m := chess.mkMove f t p in
  let m0 := chess.mkMove f t None in
  (fst (execute_move_with_drag_drop env m s) = fst (execute_move_with_drag_drop env m0 s) /\
   history (snd (execute_move_with_drag_drop env m s))
     = history (snd (execute_move_with_drag_drop env m0 s))) /\
  (fst (execute_move_with_javascript env m s) = fst (execute_move_with_javascript env m0 s) /\
   history (snd (execute_move_with_javascript env m s))
     = history (snd (execute_move_with_javascript env m0 s))) /\
  (fst (execute_move_with_keyboard env m s) = fst (execute_move_with_keyboard env m0 s) /\
   history (snd (execute_move_with_keyboard env m s))
     = history (snd (execute_move_with_keyboard env m0 s))) /\
  (exists cmds,
      history (snd (execute_move_with_drag_drop env m s)) = cmds ++ history s /\
      Forall (may_call drag_drop_calls) cmds) /\
  (forall fn tn,
      chess.square_name f = Some fn -> chess.square_name t = Some tn ->
      (exists cmds,
          history (snd (execute_move_with_javascript env m s)) = cmds ++ history s /\
          Forall (fun c => c = run_move_script fn tn) cmds) /\
      (exists cmds,
          history (snd (execute_move_with_keyboard env m s)) = cmds ++ history s /\
          Forall (may_call (keyboard_calls fn tn)) cmds)).
Proof.
  intros m m0.
  destruct (strategies_ignore_promotion env f t p) as (Hdd & Hjs & Hkb).
  destruct (Hdd s s (agree_refl s)) as (Rdd & Add & _).
  destruct (Hjs s s (agree_refl s)) as (Rjs & Ajs & _).
  destruct (Hkb s s (agree_refl s)) as (Rkb & Akb & _).
  split; [split; assumption |]. split; [split; assumption |].
  split; [split; assumption |]. split.
  - apply (drag_drop_calls_only env m s).
  - intros fn tn Hf Ht. split.
    + apply (javascript_calls_only env m fn tn Hf Ht s).
    + apply (keyboard_calls_only env m fn tn Hf Ht s).
Qed.

(** The move e7e8q is written "e7e8q"; the keyboard strategy types "e7e8",
    and the script is given "e7" and "e8". *)
Example promotion_dropped :
  chess.uci Stub.e7e8q = Some "e7e8q"%string /\
  history (snd (execute_move_with_keyboard Stub.working_page Stub.e7e8q (new_bot true)))
    = [ perform [send_keys "e7e8"; send_keys_ENTER]; click 1%nat; find_wc_chess_board ] /\
  history (snd (execute_move_with_javascript Stub.working_page Stub.e7e8q (new_bot true)))
    = [ run_move_script "e7" "e8" ].
Proof. repeat split. Qed.

(** ** Actions completed on the page *)



Section Acts.

Variable env : Env.







End Acts.








(** ** Concrete runs *)

Example square_names :
  chess.square_name 0%N = Some "a1"%string /\
  chess.square_name 28%N = Some "e4"%string /\
  chess.square_name 63%N = Some "h8"%string /\
  chess.square_name 64%N = None.
Proof. repeat split. Qed.

(** A page without a board element whose script works: drag and drop is
    tried and fails, JavaScript is tried and succeeds, the keyboard is not
    tried. *)
Example javascript_after_drag_drop :
  let s := snd (execute_move (Stub.env false 800 800 true Stub.engine)
                  Stub.e2e4 (new_bot true)) in
  fst (execute_move (Stub.env false 800 800 true Stub.engine) Stub.e2e4 (new_bot true))
    = Ok true /\
  exec_events (logger s)
    = [Tried "drag_drop"; Tried "javascript"; Succeeded "javascript" Stub.e2e4] /\
  map method (move_log s) = ["javascript"%string] /\
  history s = [run_move_script "e2" "e4"; find_wc_chess_board; find_wc_chess_board].
Proof. vm_compute. repeat split. Qed.

(** Five passes on the page where nothing works: five failures, no abort. *)
Example five_failures_in_a_row :
  let '(status, l, s) :=
    while_loop Stub.endless Stub.dead_page 5 100 initial_locals (new_bot true) in
  status = Running /\ execution_failures (logger s) = 5%nat /\
  consecutive_failures l = 1 /\ filter is_abort (logger s) = [] /\
  current_board l = [].
Proof. vm_compute. repeat split. Qed.

(** A whole game on the working page, over after four plies. *)
Example four_ply_game :
  exists l s,
    play_game_loop Stub.four_plies Stub.working_page 10 100 (new_bot true) = Some (l, s) /\
    current_board l = Stub.line /\
    map move (move_log s) = Stub.line /\
    engine_requests (history s)
      = [ [Stub.e2e4; Stub.e7e5; Stub.g1f3]; [Stub.e2e4; Stub.e7e5]; [Stub.e2e4]; [] ] /\
    In (INFO, Game_Over_Black_wins) (logger s).
Proof.
  eexists. eexists. split; [vm_compute; reflexivity |].
  repeat split; vm_compute; tauto.
Qed.

(** An engine that never has a move keeps the loop turning as well. *)
Example no_move_no_progress :
  fst (fst (while_loop Stub.endless Stub.silent_engine 50 100
              initial_locals (new_bot true))) = Running.
Proof. vm_compute. reflexivity. Qed.

(** * Further properties of the code *)


(** ** Square names and indices *)

Lemma below_64 (sq : N) :
  (sq < 64)%N -> In sq (map N.of_nat (seq 0 64)).
Proof.
  intro H. rewrite <- (N2Nat.id sq). apply in_map, in_seq. lia.
Qed.

(** The name of a square, read back as [find_square_by_position] reads it. *)
Lemma square_name_parse sq :
  (sq < 64)%N ->
  exists f r,
    chess.square_name sq = Some (String f (String r EmptyString)) /\
    ord f - ord "a" = Z.of_N (chess.square_file sq) /\
    int_of_char r = Some (Z.of_N (chess.square_rank sq) + 1).
Proof.
  intro H. apply below_64 in H. cbv [seq map] in H. simpl in H.
  repeat (destruct H as [<- | H];
          [eexists; eexists; repeat split; vm_compute; reflexivity |]).
  contradiction.
Qed.

(** X1: the name that python-chess gives a square is read back by
    [find_square_by_position] into the file and rank of that square: for
    every square of the board, when the board element is found, the result
    holds the element, [square_file] as file index and [square_rank] as rank
    index. *)
Theorem find_square_by_position_round_trip env sq el s :
  (sq < 64)%N ->
  find_element env (history s) = Ok (Some el) ->
  exists name,
    chess.square_name sq = Some name /\
    find_square_by_position env name s =
      (Ok (Some {| element := el;
                   file_index := Z.of_N (chess.square_file sq);
                   rank_index := Z.of_N (chess.square_rank sq);
                   square := name |}),
       called find_wc_chess_board s).
Proof.
  intros Hsq Hfind.
  destruct (square_name_parse sq Hsq) as (f & r & Hname & Hf & Hr).
  exists (String f (String r EmptyString)). split; [exact Hname |].
  unfold find_square_by_position, try_except, bind, call, or_raise, ret.
  rewrite Hfind. cbn [String.get]. rewrite Hr, Hf.
  replace (Z.of_N (chess.square_rank sq) + 1 - 1) with (Z.of_N (chess.square_rank sq)) by lia.
  reflexivity.
Qed.

Lemma find_square_by_position_round_trip_witness :
  exists name,
    chess.square_name 28%N = Some name /\
    find_square_by_position Stub.working_page name (new_bot true) =
      (Ok (Some {| element := 1%nat;
                   file_index := Z.of_N (chess.square_file 28%N);
                   rank_index := Z.of_N (chess.square_rank 28%N);
                   square := name |}),
       called find_wc_chess_board (new_bot true)).
Proof.
  apply (find_square_by_position_round_trip Stub.working_page 28%N 1%nat (new_bot true));
    reflexivity.
Defined.

(** ** Pixels *)

Lemma int_floor (q : Q) : (0 <= q)%Q -> int q = Qfloor q.
Proof.
  destruct q as [n d]. unfold Qle, int, Qfloor. simpl. intro H.
  apply Z.quot_div_nonneg; lia.
Qed.

Lemma int_nonneg (q : Q) : (0 <= q)%Q -> 0 <= int q.
Proof.
  intro H. rewrite (int_floor q H).
  change 0 with (Qfloor 0). apply Qfloor_resp_le, H.
Qed.

Lemma int_below (q : Q) : (0 <= q)%Q -> (inject_Z (int q) <= q)%Q.
Proof. intro H. rewrite (int_floor q H). apply Qfloor_le. Qed.

Lemma int_mono (q q' : Q) : (0 <= q)%Q -> (q <= q')%Q -> int q <= int q'.
Proof.
  intros H Hle. rewrite (int_floor q H), (int_floor q').
  - apply Qfloor_resp_le, Hle.
  - eapply Qle_trans; eassumption.
Qed.

Lemma int_at_least_1 (q : Q) : (1 <= q)%Q -> 1 <= int q.
Proof.
  intro H. change 1 with (int 1). apply int_mono; [discriminate | exact H].
Qed.

(** The rounded offset of a centre along an axis of length [d]: inside the
    axis, and in the order of the indices. *)
Section OffsetBounds.

Local Open Scope Q_scope.

Import pyfloat.

Lemma index_Q i : (0 <= i <= 7)%Z -> 0 <= inject_Z i /\ inject_Z i <= 7.
Proof.
  intro H. split.
  - change 0 with (inject_Z 0). rewrite <- Zle_Qle. lia.
  - change 7 with (inject_Z 7). rewrite <- Zle_Qle. lia.
Qed.

Lemma side_nonneg d : 0 <= d -> 0 <= side d.
Proof.
  intro H. unfold side. apply round_ge_0.
  assert (E : d / 8 == d * (1 # 8)) by field. rewrite E. lra.
Qed.

Lemma half_nonneg q : 0 <= q -> 0 <= q / 2.
Proof. intro H. assert (E : q / 2 == q * (1 # 2)) by field. rewrite E. lra. Qed.

Lemma offset_value_nonneg d i : 0 <= d -> (0 <= i)%Z -> 0 <= offset_value d i.
Proof.
  intros Hd Hi. pose proof (side_nonneg d Hd) as Hs.
  assert (Hi' : 0 <= inject_Z i) by (change 0 with (inject_Z 0); rewrite <- Zle_Qle; lia).
  unfold offset_value. apply round_ge_0.
  assert (0 <= round (inject_Z i * side d))
    by (apply round_ge_0, Qmult_le_0_compat; assumption).
  assert (0 <= round (side d / 2)) by (apply round_ge_0, half_nonneg, Hs).
  lra.
Qed.

Lemma offset_value_mono d i j :
  0 <= d -> (0 <= i <= j)%Z -> offset_value d i <= offset_value d j.
Proof.
  intros Hd Hij. pose proof (side_nonneg d Hd) as Hs.
  assert (Hi : 0 <= inject_Z i) by (change 0 with (inject_Z 0); rewrite <- Zle_Qle; lia).
  assert (Hle : inject_Z i <= inject_Z j) by (rewrite <- Zle_Qle; lia).
  assert (H0 : 0 <= inject_Z i * side d) by (apply Qmult_le_0_compat; assumption).
  assert (Hacross : round (inject_Z i * side d) <= round (inject_Z j * side d)).
  { apply round_mono; [exact H0 |]. apply Qmult_le_compat_r; assumption. }
  assert (0 <= round (inject_Z i * side d)) by (apply round_ge_0, H0).
  assert (0 <= round (side d / 2)) by (apply round_ge_0, half_nonneg, Hs).
  unfold offset_value. apply round_mono; lra.
Qed.

(** On a board of at most a pixel the offsets stay below 1. *)
Lemma offset_value_small d i :
  0 <= d -> d <= 1 -> (0 <= i <= 7)%Z -> offset_value d i <= 15 # 16.
Proof.
  intros Hd H1 Hi. pose proof (side_nonneg d Hd) as Hs.
  destruct (index_Q i Hi) as [Hi0 Hi7].
  assert (Hside : side d <= 1 # 8).
  { unfold side. apply (round_le_double _ _ 1 (-3)); [reflexivity | reflexivity | lia | |].
    - assert (E : d / 8 == d * (1 # 8)) by field. rewrite E. lra.
    - assert (E : d / 8 == d * (1 # 8)) by field. rewrite E. lra. }
  assert (H0 : 0 <= inject_Z i * side d) by (apply Qmult_le_0_compat; assumption).
  assert (Hacross : round (inject_Z i * side d) <= 7 # 8).
  { apply (round_le_double _ _ 7 (-3)); [reflexivity | reflexivity | lia | exact H0 |].
    apply Qle_trans with (7 * side d); [apply Qmult_le_compat_r; assumption | lra]. }
  assert (Hhalf : round (side d / 2) <= 1 # 16).
  { apply (round_le_double _ _ 1 (-4)); [reflexivity | reflexivity | lia | |].
    - apply half_nonneg, Hs.
    - assert (E : side d / 2 == side d * (1 # 2)) by field. rewrite E. lra. }
  assert (0 <= round (inject_Z i * side d)) by (apply round_ge_0, H0).
  assert (0 <= round (side d / 2)) by (apply round_ge_0, half_nonneg, Hs).
  unfold offset_value.
  apply (round_le_double _ _ 15 (-4)); [reflexivity | reflexivity | lia | lra | lra].
Qed.

(** Above the subnormal numbers a rounding adds less than one part in a
    hundred. *)
Lemma round_above_percent q : pow2 (-1022) <= q -> round q <= q * (101 # 100).
Proof.
  intro H. eapply Qle_trans; [apply round_above, H |].
  pose proof (pow2_pos (-1022)) as Hp.
  assert (E : 1 + pow2 (-53) <= 101 # 100) by (intro C; vm_compute in C; discriminate C).
  rewrite !(Qmult_comm q). apply Qmult_le_compat_r; [exact E | lra].
Qed.

Lemma normal_above_sixteenth q : (1 # 16) <= q -> pow2 (-1022) <= q.
Proof.
  intro H. apply Qle_trans with (pow2 (-4)); [apply pow2_le; lia |].
  assert (E : pow2 (-4) == 1 # 16) by reflexivity. rewrite E. exact H.
Qed.

(** On a board of at least a pixel the offsets stay below its size. *)
Lemma offset_value_below d i :
  1 <= d -> (0 <= i <= 7)%Z -> offset_value d i < d.
Proof.
  intros Hd Hi. destruct (index_Q i Hi) as [Hi0 Hi7].
  assert (E8 : d / 8 == d * (1 # 8)) by field.
  assert (Hlow : (1 # 8) <= side d).
  { unfold side. apply (round_ge_double _ _ 1 (-3)); [reflexivity | reflexivity | lia | lra |].
    rewrite E8. lra. }
  assert (Hside : side d <= d * (101 # 800)).
  { unfold side. eapply Qle_trans.
    - apply round_above_percent, normal_above_sixteenth. rewrite E8. lra.
    - rewrite E8. lra. }
  assert (H0 : 0 <= inject_Z i * side d) by (apply Qmult_le_0_compat; lra).
  assert (H7 : inject_Z i * side d <= 7 * side d)
    by (apply Qmult_le_compat_r; lra).
  assert (Hacross : round (inject_Z i * side d) <= 7 * side d * (101 # 100)).
  { destruct (Qlt_le_dec (inject_Z i * side d) (1 # 16)) as [Hsmall | Hbig].
    - apply Qle_trans with (1 # 16); [| lra].
      apply (round_le_double _ _ 1 (-4)); [reflexivity | reflexivity | lia | exact H0 | lra].
    - eapply Qle_trans; [apply round_above_percent, normal_above_sixteenth, Hbig |]. lra. }
  assert (Eh : side d / 2 == side d * (1 # 2)) by field.
  assert (Hhalf : round (side d / 2) <= side d * (101 # 200)).
  { eapply Qle_trans.
    - apply round_above_percent, normal_above_sixteenth. rewrite Eh. lra.
    - rewrite Eh. lra. }
  assert (Hhalf0 : (1 # 16) <= round (side d / 2)).
  { apply (round_ge_double _ _ 1 (-4)); [reflexivity | reflexivity | lia | lra |].
    rewrite Eh. lra. }
  assert (Hacross0 : 0 <= round (inject_Z i * side d)) by (apply round_ge_0, H0).
  unfold offset_value. eapply Qle_lt_trans.
  - apply round_above_percent, normal_above_sixteenth. lra.
  - lra.
Qed.

(** On a board of at least 16 pixels the offsets are at least a pixel. *)
Lemma offset_value_at_least_1 d i :
  16 <= d -> (0 <= i)%Z -> 1 <= offset_value d i.
Proof.
  intros Hd Hi.
  assert (Hi' : 0 <= inject_Z i) by (change 0 with (inject_Z 0); rewrite <- Zle_Qle; lia).
  assert (E8 : d / 8 == d * (1 # 8)) by field.
  assert (Hside : 2 <= side d).
  { unfold side. apply (round_ge_double _ _ 2 0); [reflexivity | reflexivity | lia | lra |].
    rewrite E8. lra. }
  assert (Eh : side d / 2 == side d * (1 # 2)) by field.
  assert (Hhalf : 1 <= round (side d / 2)).
  { apply (round_ge_double _ _ 1 0); [reflexivity | reflexivity | lia | lra |].
    rewrite Eh. lra. }
  assert (Hacross : 0 <= round (inject_Z i * side d)).
  { apply round_ge_0, Qmult_le_0_compat; lra. }
  unfold offset_value.
  apply (round_ge_double _ _ 1 0); [reflexivity | reflexivity | lia | lra | lra].
Qed.

End OffsetBounds.

Lemma offset_inside (d : Q) (i : Z) :
  0 <= i <= 7 -> (0 < d)%Q ->
  0 <= int (offset_value d i) /\
  (inject_Z (int (offset_value d i)) < d)%Q /\
  ((16 <= d)%Q -> 1 <= int (offset_value d i)).
Proof.
  intros Hi Hd.
  assert (H0 : (0 <= offset_value d i)%Q) by (apply offset_value_nonneg; [lra | lia]).
  split; [apply int_nonneg, H0 |]. split.
  - destruct (Qlt_le_dec d 1) as [Hsmall | Hbig].
    + assert (Hz : int (offset_value d i) <= int (15 # 16)).
      { apply int_mono; [exact H0 | apply offset_value_small; [lra | lra | exact Hi]]. }
      change (int (15 # 16)) with 0 in Hz.
      apply Qle_lt_trans with 0%Q; [| exact Hd].
      change 0%Q with (inject_Z 0). rewrite <- Zle_Qle. exact Hz.
    + eapply Qle_lt_trans; [apply int_below, H0 | apply offset_value_below; assumption].
  - intro H16. apply int_at_least_1, offset_value_at_least_1; [exact H16 | lia].
Qed.

Lemma get_square_center_coordinates_run env info s (W H : pyfloat.double) :
  rect env (history s) (element info) = Ok (W, H) ->
  0 <= file_index info <= 7 ->
  0 <= rank_index info <= 7 ->
  exists x y,
    get_square_center_coordinates env info s =
      (Ok (center_x W (file_index info), center_y H (rank_index info)),
       logging DEBUG (Square_offset (square info) x y)
         (called (get_rect (element info)) s)).
Proof.
  intros Hrect Hf Hr.
  destruct (get_square_center_coordinates_ok env info s W H Hrect Hf Hr)
    as (x & y & Hx & Hy & E).
  exists (pyfloat.finite x), (pyfloat.finite y). rewrite E.
  unfold center_x, center_y. rewrite (int_Qeq _ _ Hx), (int_Qeq _ _ Hy). reflexivity.
Qed.

Lemma get_square_center_coordinates_value env info s (W H : pyfloat.double) :
  rect env (history s) (element info) = Ok (W, H) ->
  0 <= file_index info <= 7 ->
  0 <= rank_index info <= 7 ->
  fst (get_square_center_coordinates env info s) =
    Ok (center_x W (file_index info), center_y H (rank_index info)).
Proof.
  intros Hrect Hf Hr.
  destruct (get_square_center_coordinates_run env info s W H Hrect Hf Hr) as (x & y & ->).
  reflexivity.
Qed.

(** X2: on a board of positive width and height, the pixel computed for a
    square with file and rank indices between 0 and 7 lies inside the board:
    0 <= x < W and 0 <= y < H. On a board at least 16 pixels wide x is at
    least 1, so that the value 0, which the function returns on an error and
    which the drag-and-drop strategy rejects, is not the centre of any
    square. *)
Theorem square_center_inside_board env info s (W H : pyfloat.double) :
  rect env (history s) (element info) = Ok (W, H) ->
  0 <= file_index info <= 7 ->
  0 <= rank_index info <= 7 ->
  (0 < W)%Q -> (0 < H)%Q ->
  exists x y,
    fst (get_square_center_coordinates env info s) = Ok (x, y) /\
    0 <= x /\ (inject_Z x < W)%Q /\
    0 <= y /\ (inject_Z y < H)%Q /\
    ((16 <= W)%Q -> 1 <= x).
Proof.
  intros Hrect Hf Hr HW HH.
  exists (center_x W (file_index info)), (center_y H (rank_index info)).
  split; [apply get_square_center_coordinates_value; assumption |].
  destruct (offset_inside W (file_index info) Hf HW) as (Hx0 & HxW & Hx1).
  assert (Hr' : 0 <= 7 - rank_index info <= 7) by lia.
  destruct (offset_inside H (7 - rank_index info) Hr' HH) as (Hy0 & HyH & _).
  unfold center_x, center_y. repeat split; assumption.
Qed.

Lemma square_center_inside_board_witness :
  exists x y,
    fst (get_square_center_coordinates Stub.working_page Stub.h8 (new_bot true))
      = Ok (x, y) /\
    0 <= x /\ (inject_Z x < pyfloat.pixels 800)%Q /\
    0 <= y /\ (inject_Z y < pyfloat.pixels 800)%Q /\
    ((16 <= pyfloat.pixels 800)%Q -> 1 <= x).
Proof.
  apply (square_center_inside_board Stub.working_page Stub.h8 (new_bot true)
           (pyfloat.pixels 800) (pyfloat.pixels 800));
    simpl; try reflexivity; lia.
Defined.

(** X3: the pixels follow the board as White sees it, whatever side is to
    move: on one and the same board a square on a higher file is not to the
    left of one on a lower file, and a square on a higher rank is not below
    one on a lower rank (pixel rows count downwards). The squares are
    squares of the board, with file and rank indices between 0 and 7. *)
Theorem squares_laid_out_for_white env low high s (W H : pyfloat.double) :
  rect env (history s) (element low) = Ok (W, H) ->
  element high = element low ->
  (0 <= W)%Q -> (0 <= H)%Q ->
  0 <= file_index low <= file_index high ->
  file_index high <= 7 ->
  0 <= rank_index low ->
  rank_index low <= rank_index high <= 7 ->
  exists x y x' y',
    fst (get_square_center_coordinates env low s) = Ok (x, y) /\
    fst (get_square_center_coordinates env high s) = Ok (x', y') /\
    x <= x' /\ y' <= y.
Proof.
  intros Hrect Hel HW HH Hf Hf7 Hr0 Hr.
  exists (center_x W (file_index low)), (center_y H (rank_index low)),
         (center_x W (file_index high)), (center_y H (rank_index high)).
  split; [apply get_square_center_coordinates_value; [exact Hrect | lia | lia] |].
  split; [apply get_square_center_coordinates_value;
            [rewrite Hel; exact Hrect | lia | lia] |].
  unfold center_x, center_y. split.
  - apply int_mono; [apply offset_value_nonneg | apply offset_value_mono]; (assumption || lia).
  - apply int_mono; [apply offset_value_nonneg | apply offset_value_mono]; (assumption || lia).
Qed.

Lemma squares_laid_out_for_white_witness :
  exists x y x' y',
    fst (get_square_center_coordinates Stub.working_page Stub.a1 (new_bot true))
      = Ok (x, y) /\
    fst (get_square_center_coordinates Stub.working_page Stub.h8 (new_bot true))
      = Ok (x', y') /\
    x <= x' /\ y' <= y.
Proof.
  apply (squares_laid_out_for_white Stub.working_page Stub.a1 Stub.h8 (new_bot true)
           (pyfloat.pixels 800) (pyfloat.pixels 800));
    simpl; try reflexivity; try discriminate; lia.
Defined.

(** Beyond the board the order is lost: with a file index that no float
    holds, [int * float] raises [OverflowError] and the function returns
    (0, 0), to the left of every centre. *)
Example overflowing_index_gives_origin :
  fst (get_square_center_coordinates Stub.working_page
         {| element := 1%nat; file_index := 2 ^ 1024; rank_index := 0; square := "a1" |}
         (new_bot true)) = Ok (0, 0) /\
  fst (get_square_center_coordinates Stub.working_page Stub.a1 (new_bot true)) = Ok (50, 750).
Proof. split; vm_compute; reflexivity. Qed.

(** ** The drag-and-drop strategy *)

Lemma find_square_by_position_found env sq el s :
  (sq < 64)%N ->
  find_element env (history s) = Ok (Some el) ->
  exists name,
    chess.square_name sq = Some name /\
    forall s',
      find_element env (history s') = Ok (Some el) ->
      find_square_by_position env name s' =
        (Ok (Some {| element := el;
                     file_index := Z.of_N (chess.square_file sq);
                     rank_index := Z.of_N (chess.square_rank sq);
                     square := name |}),
         called find_wc_chess_board s').
Proof.
  intros Hsq _.
  destruct (square_name_parse sq Hsq) as (f & r & Hname & Hf & Hr).
  exists (String f (String r EmptyString)). split; [exact Hname |].
  intros s' Hfind.
  unfold find_square_by_position, try_except, bind, call, or_raise, ret.
  rewrite Hfind. cbn [String.get]. rewrite Hr, Hf.
  replace (Z.of_N (chess.square_rank sq) + 1 - 1) with (Z.of_N (chess.square_rank sq)) by lia.
  reflexivity.
Qed.

Lemma square_file_range sq : 0 <= Z.of_N (chess.square_file sq) <= 7.
Proof.
  unfold chess.square_file. change 7%N with (N.ones 3).
  rewrite N.land_ones.
  assert (H : (sq mod 2 ^ 3 < 2 ^ 3)%N) by (apply N.mod_upper_bound; discriminate).
  revert H. generalize (sq mod 2 ^ 3)%N. intros n H.
  change (2 ^ 3)%N with 8%N in H. lia.
Qed.

Lemma square_rank_range sq : (sq < 64)%N -> 0 <= Z.of_N (chess.square_rank sq) <= 7.
Proof.
  intro H. unfold chess.square_rank. rewrite N.shiftr_div_pow2.
  assert (H8 : (sq / 2 ^ 3 < 8)%N) by (apply N.Div0.div_lt_upper_bound; exact H).
  revert H8. generalize (sq / 2 ^ 3)%N. intros n H8. lia.
Qed.

Lemma center_x_positive W sq : (16 <= W)%Q -> 1 <= center_x W (Z.of_N (chess.square_file sq)).
Proof.
  intro HW. unfold center_x. apply int_at_least_1.
  apply offset_value_at_least_1; [exact HW | apply square_file_range].
Qed.

(** The run of the drag-and-drop strategy on a page that lets it through. *)
Lemma execute_move_with_drag_drop_run env m el (W H : pyfloat.double) s :
  well_formed_move m ->
  (forall h, find_element env h = Ok (Some el)) ->
  (forall h, rect env h el = Ok (W, H)) ->
  (16 <= W)%Q ->
  (forall h, execute_scroll env h el = Ok tt) ->
  (forall h steps, perform_actions env h steps = Ok tt) ->
  fst (execute_move_with_drag_drop env m s) = Ok true /\
  history (snd (execute_move_with_drag_drop env m s)) =
    perform
      (drag_steps el
         (center_x W (Z.of_N (chess.square_file (chess.from_square m))))
         (center_y H (Z.of_N (chess.square_rank (chess.from_square m))))
         (center_x W (Z.of_N (chess.square_file (chess.to_square m))))
         (center_y H (Z.of_N (chess.square_rank (chess.to_square m)))))
    :: scroll_into_view el :: get_rect el :: get_rect el
    :: find_wc_chess_board :: find_wc_chess_board :: history s.
Proof.
  intros [Hfrom Hto] Hfind Hrect HW Hscroll Hperform.
  destruct (find_square_by_position_found env _ el s Hfrom (Hfind _))
    as (fname & Hfname & Hf).
  destruct (find_square_by_position_found env _ el s Hto (Hfind _))
    as (tname & Htname & Ht).
  pose proof (center_x_positive W (chess.from_square m) HW) as Hfx.
  pose proof (center_x_positive W (chess.to_square m) HW) as Htx.
  unfold execute_move_with_drag_drop, try_except, bind.
  rewrite Hfname, Htname. cbn [or_raise ret log].
  rewrite Hf by apply Hfind. rewrite Ht by apply Hfind.
  cbn [element].
  match goal with
  | |- context [get_square_center_coordinates env ?info ?s1] =>
      destruct (get_square_center_coordinates_run env info s1 W H (Hrect _))
        as (x1 & y1 & ->);
      [apply square_file_range | apply square_rank_range, Hfrom |]
  end.
  match goal with
  | |- context [get_square_center_coordinates env ?info ?s1] =>
      destruct (get_square_center_coordinates_run env info s1 W H (Hrect _))
        as (x2 & y2 & ->);
      [apply square_file_range | apply square_rank_range, Hto |]
  end.
  cbn [file_index rank_index element square].
  replace (center_x W (Z.of_N (chess.square_file (chess.from_square m))) =? 0) with false
    by (symmetry; apply Z.eqb_neq; lia).
  replace (center_x W (Z.of_N (chess.square_file (chess.to_square m))) =? 0) with false
    by (symmetry; apply Z.eqb_neq; lia).
  cbn [orb]. unfold call. rewrite Hscroll, Hperform. split; reflexivity.
Qed.

(** X4: on a page where the board element is found, its rectangle is read
    as W by H with W at least 16, and the scroll and the pointer sequence go
    through, the drag-and-drop strategy succeeds on every well-formed move
    with exactly these calls: two searches for the board, two readings of its
    rectangle, one scroll, and one pointer sequence that presses at the
    centre of the origin square and releases at the centre of the
    destination square, each centre as the float arithmetic of
    [get_square_center_coordinates] rounds it. *)
Theorem drag_drop_drags_between_centres env m el (W H : pyfloat.double) s :
  well_formed_move m ->
  (forall h, find_element env h = Ok (Some el)) ->
  (forall h, rect env h el = Ok (W, H)) ->
  (16 <= W)%Q ->
  (forall h, execute_scroll env h el = Ok tt) ->
  (forall h steps, perform_actions env h steps = Ok tt) ->
  fst (execute_move_with_drag_drop env m s) = Ok true /\
  history (snd (execute_move_with_drag_drop env m s)) =
    perform
      (drag_steps el
         (center_x W (Z.of_N (chess.square_file (chess.from_square m))))
         (center_y H (Z.of_N (chess.square_rank (chess.from_square m))))
         (center_x W (Z.of_N (chess.square_file (chess.to_square m))))
         (center_y H (Z.of_N (chess.square_rank (chess.to_square m)))))
    :: scroll_into_view el :: get_rect el :: get_rect el
    :: find_wc_chess_board :: find_wc_chess_board :: history s.
Proof. exact (execute_move_with_drag_drop_run env m el W H s). Qed.

Lemma drag_drop_drags_between_centres_witness :
  fst (execute_move_with_drag_drop zoomed_page Stub.h2h4 (new_bot true)) = Ok true /\
  history (snd (execute_move_with_drag_drop zoomed_page Stub.h2h4 (new_bot true))) =
    perform
      (drag_steps 1%nat
         (center_x zoomed_side (Z.of_N (chess.square_file (chess.from_square Stub.h2h4))))
         (center_y zoomed_side (Z.of_N (chess.square_rank (chess.from_square Stub.h2h4))))
         (center_x zoomed_side (Z.of_N (chess.square_file (chess.to_square Stub.h2h4))))
         (center_y zoomed_side (Z.of_N (chess.square_rank (chess.to_square Stub.h2h4)))))
    :: scroll_into_view 1%nat :: get_rect 1%nat :: get_rect 1%nat
    :: find_wc_chess_board :: find_wc_chess_board :: history (new_bot true).
Proof.
  apply (drag_drop_drags_between_centres zoomed_page Stub.h2h4 1%nat zoomed_side zoomed_side
           (new_bot true)).
  - split; reflexivity.
  - reflexivity.
  - reflexivity.
  - discriminate.
  - reflexivity.
  - reflexivity.
Defined.

(** The centres are those of the float arithmetic: on a board of
    522.6666666666666 pixels a side h2h4 is dragged from (490, 424) to
    (490, 294), where the exact values of the formula give (489, 424) and
    (489, 293); on a board of 800 pixels e2e4 is dragged from (450, 650) to
    (450, 450). *)
Example drag_on_a_zoomed_board :
  history (snd (execute_move_with_drag_drop zoomed_page Stub.h2h4 (new_bot true))) =
    [perform (drag_steps 1%nat 490 424 490 294);
     scroll_into_view 1%nat; get_rect 1%nat; get_rect 1%nat;
     find_wc_chess_board; find_wc_chess_board] /\
  history (snd (execute_move_with_drag_drop Stub.working_page Stub.e2e4 (new_bot true))) =
    [perform (drag_steps 1%nat 450 650 450 450);
     scroll_into_view 1%nat; get_rect 1%nat; get_rect 1%nat;
     find_wc_chess_board; find_wc_chess_board].
Proof. split; vm_compute; reflexivity. Qed.

Lemma get_square_center_coordinates_error env info s :
  rect env (history s) (element info) = Raise Exception ->
  get_square_center_coordinates env info s =
    (Ok (0, 0),
     logging ERROR Error_calculating_coordinates (called (get_rect (element info)) s)).
Proof.
  intro Hrect.
  unfold get_square_center_coordinates, try_except, bind, call, log, ret.
  rewrite Hrect. reflexivity.
Qed.

(** X5: when the size of the board cannot be read ([rect] raises), the
    coordinates come back as the (0, 0) that [get_square_center_coordinates]
    returns on an error, and the drag-and-drop strategy gives up before it
    touches the page: it returns [False] having only searched for the board
    and tried to read its rectangle, with no scroll and no pointer
    sequence. *)
Theorem drag_drop_gives_up_without_size env m el s :
  well_formed_move m ->
  (forall h, find_element env h = Ok (Some el)) ->
  (forall h, rect env h el = Raise Exception) ->
  fst (execute_move_with_drag_drop env m s) = Ok false /\
  history (snd (execute_move_with_drag_drop env m s)) =
    get_rect el :: get_rect el :: find_wc_chess_board :: find_wc_chess_board :: history s.
Proof.
  intros [Hfrom Hto] Hfind Hrect.
  destruct (find_square_by_position_found env _ el s Hfrom (Hfind _))
    as (fname & Hfname & Hf).
  destruct (find_square_by_position_found env _ el s Hto (Hfind _))
    as (tname & Htname & Ht).
  unfold execute_move_with_drag_drop, try_except, bind.
  rewrite Hfname, Htname. cbn [or_raise ret log].
  rewrite Hf by apply Hfind. rewrite Ht by apply Hfind.
  cbn [element].
  rewrite get_square_center_coordinates_error by apply Hrect.
  rewrite get_square_center_coordinates_error by apply Hrect.
  split; reflexivity.
Qed.

Lemma drag_drop_gives_up_without_size_witness :
  fst (execute_move_with_drag_drop unreadable_board Stub.e2e4 (new_bot true)) = Ok false /\
  history (snd (execute_move_with_drag_drop unreadable_board Stub.e2e4 (new_bot true))) =
    get_rect 1%nat :: get_rect 1%nat :: find_wc_chess_board :: find_wc_chess_board
    :: history (new_bot true).
Proof.
  apply (drag_drop_gives_up_without_size unreadable_board Stub.e2e4 1%nat (new_bot true)).
  - split; reflexivity.
  - reflexivity.
  - reflexivity.
Defined.

(** ** Exceptions that stay inside *)

Lemma contained_try_except {A} (body handler : M A) :
  contained handler -> contained (try_except body handler).
Proof.
  intros Hh s. unfold try_except.
  destruct (body s) as [[a | [|]] s']; simpl; try discriminate. apply Hh.
Qed.

Lemma contained_log_ret {A} lvl msg (a : A) : contained (log lvl msg ;;; ret a).
Proof. intro s. discriminate. Qed.

(** X6: no method of the move path lets an [Exception] out: the locator
    ([find_square_by_position], [get_square_center_coordinates]), the three
    strategies and [execute_move] on a well-formed move,
    [calculate_best_move] and [save_move_log] return normally (or are
    interrupted by the user) whatever the browser, the engine and the file
    system do. *)
Theorem exceptions_stay_inside rules env :
  (forall sq, contained (find_square_by_position env sq)) /\
  (forall info, contained (get_square_center_coordinates env info)) /\
  (forall m, well_formed_move m ->
     contained (execute_move_with_drag_drop env m) /\
     contained (execute_move_with_javascript env m) /\
     contained (execute_move_with_keyboard env m) /\
     contained (execute_move env m)) /\
  (forall b t, contained (calculate_best_move rules env b t)) /\
  contained (save_move_log env).
Proof.
  split; [intro sq; apply contained_try_except, contained_log_ret |].
  split; [intro info; apply contained_try_except, contained_log_ret |].
  split; [| split].
  - intros m _.
    repeat split; try (apply contained_try_except, contained_log_ret).
  - intros b t. apply contained_try_except, contained_log_ret.
  - intro s. rewrite save_move_log_unfold.
    destruct (move_log s); [discriminate |].
    destruct (write_json env (history s) _) as [[] | [|]]; discriminate.
Qed.

(** ** How the game loop goes on and ends *)

(** One pass of the loop: it logs no abort, leaves the failure counter at 0
    or 1 unless it changes nothing, plays at most one move, and breaks only
    on a finished game or on an interrupt. *)
Lemma loop_body_pass rules env l s :
  (exists new,
      logger (snd (loop_body rules env l s)) = new ++ logger s /\
      filter is_abort new = []) /\
  (snd (fst (loop_body rules env l s)) = l \/
   0 <= consecutive_failures (snd (fst (loop_body rules env l s))) <= 1) /\
  moves_played l <= moves_played (snd (fst (loop_body rules env l s)))
    <= moves_played l + 1 /\
  (fst (fst (loop_body rules env l s)) = Break ->
   chess.is_game_over rules (current_board l) = true /\
   loop_body rules env l s =
     (Break, l, logging INFO (game_over_message (chess.result rules (current_board l))) s)
   \/
   exists s0, snd (loop_body rules env l s) = logging INFO Game_loop_interrupted_by_user s0).
Proof.
  rewrite loop_body_unfold. cbv zeta.
  destruct (chess.is_game_over rules (current_board l)) eqn:Eover.
  { cbn [fst snd logger logging]. split; [| split; [| split]].
    - eexists [_]. split; [reflexivity |].
      unfold game_over_message.
      repeat match goal with
             | |- context [String.eqb ?a ?b] => destruct (String.eqb a b)
             end; reflexivity.
    - left. reflexivity.
    - lia.
    - intros _. left. split; reflexivity. }
  assert (Hskip : forall s1 new1,
             logger s1 = new1 ++ logger s -> filter is_abort new1 = [] ->
             (exists new,
                 logger (snd (skip_turn (set_consecutive_failures 0 l) s1)) = new ++ logger s /\
                 filter is_abort new = []) /\
             (snd (fst (skip_turn (set_consecutive_failures 0 l) s1)) = l \/
              0 <= consecutive_failures (snd (fst (skip_turn (set_consecutive_failures 0 l) s1))) <= 1) /\
             moves_played l <= moves_played (snd (fst (skip_turn (set_consecutive_failures 0 l) s1)))
               <= moves_played l + 1 /\
             (fst (fst (skip_turn (set_consecutive_failures 0 l) s1)) = Break ->
              false = true /\
              skip_turn (set_consecutive_failures 0 l) s1 =
                (Break, l, logging INFO (game_over_message (chess.result rules (current_board l))) s)
              \/
              exists s0, snd (skip_turn (set_consecutive_failures 0 l) s1)
                         = logging INFO Game_loop_interrupted_by_user s0)).
  { intros s1 new1 Hs1 Hnew1. unfold skip_turn. cbn [fst snd logger logging].
    split; [| split; [| split]].
    - exists ((ERROR, Could_not_calculate_move_skipping_turn) :: new1).
      rewrite Hs1. split; [reflexivity |]. simpl. exact Hnew1.
    - right. simpl. lia.
    - simpl. lia.
    - discriminate. }
  destruct (play env (history s) (current_board l) 2) as [[m |] | [|]];
    [destruct (chess.Move_bool m) | | |];
    try (eapply Hskip; cbn [logger logging called]; [eexists [_; _]; reflexivity | reflexivity]);
    try (eapply (Hskip _ [_; _]); reflexivity).
  - (* a move to execute *)
    match goal with
    | |- context [execute_move env m ?s1] =>
        destruct (execute_move_outcome env m s1) as (new & Hnew & Fnew & _);
        destruct (execute_move env m s1) as [[[|] | e] s2]
    end; cbn [fst snd logger logging called] in Hnew;
      destruct (execution_records_no_failure new Fnew) as [_ Hna].
    + unfold played.
      destruct (chess.san rules _ m); destruct (_ mod 10 =? 0);
        cbn [fst snd logger logging moves_played consecutive_failures
             set_consecutive_failures];
        (split; [| split; [right; lia | split; [lia | discriminate]]]);
        rewrite Hnew;
        [ eexists ([_; _] ++ new ++ [_; _]) | eexists ([_] ++ new ++ [_; _])
        | eexists ([_; _] ++ new ++ [_; _]) | eexists ([_] ++ new ++ [_; _]) ];
        (split; [simpl; rewrite <- app_assoc; reflexivity |]);
        rewrite !filter_app, Hna; reflexivity.
    + unfold not_played.
      cbn [consecutive_failures set_consecutive_failures].
      change (0 + 1 >=? max_failures) with false.
      cbn [fst snd logger logging moves_played consecutive_failures
           set_consecutive_failures].
      split; [| split; [right; lia | split; [lia | discriminate]]].
      rewrite Hnew. eexists ([_] ++ new ++ [_; _]).
      split; [simpl; rewrite <- app_assoc; reflexivity |].
      rewrite !filter_app, Hna. reflexivity.
    + unfold on_exception. destruct e.
      * cbn [consecutive_failures set_consecutive_failures].
        change (0 + 1 >=? max_failures) with false.
        cbn [fst snd logger logging moves_played consecutive_failures
           set_consecutive_failures].
        split; [| split; [right; lia | split; [lia | discriminate]]].
        rewrite Hnew. eexists ([_] ++ new ++ [_; _]).
        split; [simpl; rewrite <- app_assoc; reflexivity |].
        rewrite !filter_app, Hna. reflexivity.
      * cbn [fst snd logger logging moves_played consecutive_failures
             set_consecutive_failures].
        split; [| split; [right; lia | split; [lia |]]].
        -- rewrite Hnew. eexists ([_] ++ new ++ [_; _]).
           split; [simpl; rewrite <- app_assoc; reflexivity |].
           rewrite !filter_app, Hna. reflexivity.
        -- intros _. right. eexists. reflexivity.
  - (* interrupted while the engine thinks *)
    unfold on_exception.
    cbn [fst snd logger logging called moves_played consecutive_failures
         set_consecutive_failures].
    split; [| split; [right; lia | split; [lia |]]].
    + eexists [_; _]. split; reflexivity.
    + intros _. right. eexists. reflexivity.
Qed.

(** X7: whatever the engine and the page do, the counter of consecutive
    failures never exceeds 1 in the game loop (a pass that gets as far as
    asking the engine has reset it to 0 first), and the loop never logs "Too
    many move execution failures, stopping": its abort on repeated failures
    is never taken. *)
Theorem failure_counter_never_exceeds_one rules env fuel max_moves l s :
  (exists new,
      logger (snd (while_loop rules env fuel max_moves l s)) = new ++ logger s /\
      filter is_abort new = []) /\
  (snd (fst (while_loop rules env fuel max_moves l s)) = l \/
   0 <= consecutive_failures (snd (fst (while_loop rules env fuel max_moves l s))) <= 1).
Proof.
  revert l s. induction fuel as [| fuel IH]; intros l s; simpl.
  - destruct (moves_played l <? max_moves); simpl;
      (split; [exists []; split; reflexivity | left; reflexivity]).
  - destruct (moves_played l <? max_moves); simpl;
      [| split; [exists []; split; reflexivity | left; reflexivity]].
    destruct (loop_body_pass rules env l s) as ((new & Hnew & Hna) & Hcf & _).
    destruct (loop_body rules env l s) as [[[|] l1] s1]; cbn [fst snd] in *.
    + destruct (IH l1 s1) as ((new' & Hnew' & Hna') & Hcf').
      split.
      * exists (new' ++ new). rewrite Hnew', Hnew, app_assoc, filter_app, Hna', Hna.
        split; reflexivity.
      * destruct Hcf' as [-> | Hcf']; [exact Hcf | right; exact Hcf'].
    + split; [exists new; split; assumption | exact Hcf].
Qed.

(** X8: the game loop is left in three ways only: the number of moves played
    has reached [max_moves]; the board reports the game over, and the
    classified result is the last record logged; or the user interrupted, and
    "Game loop interrupted by user" is the last record logged. *)
Theorem loop_exits rules env fuel max_moves l s :
  fst (fst (while_loop rules env fuel max_moves l s)) = Exited ->
  max_moves <= moves_played (snd (fst (while_loop rules env fuel max_moves l s))) \/
  (chess.is_game_over rules
     (current_board (snd (fst (while_loop rules env fuel max_moves l s)))) = true /\
   exists rest,
     logger (snd (while_loop rules env fuel max_moves l s)) =
       (INFO, game_over_message
                (chess.result rules
                   (current_board (snd (fst (while_loop rules env fuel max_moves l s))))))
       :: rest) \/
  (exists rest,
      logger (snd (while_loop rules env fuel max_moves l s)) =
        (INFO, Game_loop_interrupted_by_user) :: rest).
Proof.
  revert l s. induction fuel as [| fuel IH]; intros l s; simpl.
  - destruct (moves_played l <? max_moves) eqn:E; simpl; [discriminate |].
    intros _. left. apply Z.ltb_ge, E.
  - destruct (moves_played l <? max_moves) eqn:E; simpl;
      [| intros _; left; apply Z.ltb_ge, E].
    destruct (loop_body_pass rules env l s) as (_ & _ & _ & Hbreak).
    destruct (loop_body rules env l s) as [[[|] l1] s1] eqn:Ebody; cbn [fst snd] in *.
    + apply IH.
    + intros _. destruct (Hbreak eq_refl) as [[Hover Heq] | [s0 Heq]].
      * inversion Heq. subst. right. left. split; [exact Hover |].
        eexists. reflexivity.
      * subst. right. right. eexists. reflexivity.
Qed.

Lemma loop_exits_witness :
  let run := while_loop Stub.four_plies Stub.working_page 10 100
               initial_locals (new_bot true) in
  100 <= moves_played (snd (fst run)) \/
  (chess.is_game_over Stub.four_plies (current_board (snd (fst run))) = true /\
   exists rest,
     logger (snd run) =
       (INFO, game_over_message
                (chess.result Stub.four_plies (current_board (snd (fst run))))) :: rest) \/
  (exists rest, logger (snd run) = (INFO, Game_loop_interrupted_by_user) :: rest).
Proof.
  apply (loop_exits Stub.four_plies Stub.working_page 10 100 initial_locals (new_bot true)).
  vm_compute. reflexivity.
Defined.

(** X9: the game loop never plays more than [max_moves] moves: started with
    [moves_played] at most [max_moves], it keeps it so, never decreases it,
    and the number of moves reported as executed is the increase of
    [moves_played]. *)
Theorem moves_played_bounded rules env fuel max_moves l s :
  moves_played l <= max_moves ->
  moves_played l
    <= moves_played (snd (fst (while_loop rules env fuel max_moves l s)))
    <= max_moves /\
  exists new,
    logger (snd (while_loop rules env fuel max_moves l s)) = new ++ logger s /\
    Z.of_nat (List.length (executed (exec_events new))) =
      moves_played (snd (fst (while_loop rules env fuel max_moves l s))) - moves_played l.
Proof.
  intro Hle. split.
  - revert l s Hle. induction fuel as [| fuel IH]; intros l s Hle; simpl.
    + destruct (moves_played l <? max_moves); simpl; lia.
    + destruct (moves_played l <? max_moves) eqn:E; simpl; [| lia].
      apply Z.ltb_lt in E.
      destruct (loop_body_pass rules env l s) as (_ & _ & Hmoves & _).
      destruct (loop_body rules env l s) as [[[|] l1] s1]; cbn [fst snd] in *; [| lia].
      assert (H1 : moves_played l1 <= max_moves) by lia.
      specialize (IH l1 s1 H1). lia.
  - destruct (while_loop_progress rules env fuel max_moves l s)
      as (new & _ & _ & Hnew & _ & _ & _ & _ & Hplayed & _).
    exists new. split; [exact Hnew | lia].
Qed.

Lemma moves_played_bounded_witness :
  let run := while_loop Stub.endless Stub.working_page 10 3
               initial_locals (new_bot true) in
  moves_played initial_locals <= moves_played (snd (fst run)) <= 3 /\
  exists new,
    logger (snd run) = new ++ logger (new_bot true) /\
    Z.of_nat (List.length (executed (exec_events new))) =
      moves_played (snd (fst run)) - moves_played initial_locals.
Proof.
  apply (moves_played_bounded Stub.endless Stub.working_page 10 3
           initial_locals (new_bot true)).
  simpl. lia.
Defined.

(** X10: when [play_game_loop] returns, its summary tells the game as it was
    played: the final board holds exactly the moves reported as executed
    during the run, in order; if there are any, "Game completed with n moves
    played" gives their number and "Final position" that board; if there are
    none, "No moves were played" is logged instead. *)
Theorem summary_reports_the_game rules env fuel max_moves s l s' :
  play_game_loop rules env fuel max_moves s = Some (l, s') ->
  exists new,
    logger s' = new ++ logger s /\
    current_board l = executed (exec_events new) /\
    moves_played l = Z.of_nat (List.length (current_board l)) /\
    match current_board l with
    | [] => exists rest, new = (INFO, No_moves_were_played) :: rest
    | _ :: _ =>
        exists rest,
          new = (INFO, Final_position (current_board l))
                :: (INFO, Game_completed (moves_played l)) :: rest
    end.
Proof.
  unfold play_game_loop.
  destruct (while_loop_progress rules env fuel max_moves initial_locals
              (logging INFO (Starting_game max_moves) s))
    as (new & _ & _ & Hnew & _ & _ & _ & Hboard & Hplayed & _).
  destruct (while_loop rules env fuel max_moves initial_locals
              (logging INFO (Starting_game max_moves) s)) as [[[|] l1] s1];
    cbn [fst snd] in *; [discriminate |].
  intro H. inversion H. subst l1 s'. clear H.
  simpl in Hboard, Hplayed, Hnew.
  assert (Hlen : moves_played l = Z.of_nat (List.length (current_board l)))
    by (rewrite Hboard; exact Hplayed).
  unfold summary.
  destruct (current_board l) as [| m0 rest0] eqn:Eb.
  - simpl in Hlen. rewrite Hlen. simpl.
    exists ((INFO, No_moves_were_played) :: new ++ [(INFO, Starting_game max_moves)]).
    rewrite Hnew. simpl. rewrite <- app_assoc. simpl.
    repeat split; eauto.
    rewrite exec_events_app. cbn [exec_events exec_event snd app].
    rewrite app_nil_r. exact Hboard.
  - assert (Hpos : (moves_played l >? 0) = true)
      by (apply Z.gtb_lt; rewrite Hlen; simpl; lia).
    rewrite Hpos. simpl.
    exists ((INFO, Final_position (m0 :: rest0)) :: (INFO, Game_completed (moves_played l))
            :: new ++ [(INFO, Starting_game max_moves)]).
    rewrite Hnew. simpl. rewrite <- app_assoc. simpl.
    repeat split; eauto.
    rewrite exec_events_app. cbn [exec_events exec_event snd app].
    rewrite !app_nil_r. exact Hboard.
Qed.

Lemma summary_reports_the_game_witness :
  exists l s' new,
    play_game_loop Stub.four_plies Stub.working_page 10 100 (new_bot true) = Some (l, s') /\
    logger s' = new ++ logger (new_bot true) /\
    current_board l = executed (exec_events new) /\
    moves_played l = Z.of_nat (List.length (current_board l)) /\
    match current_board l with
    | [] => exists rest, new = (INFO, No_moves_were_played) :: rest
    | _ :: _ =>
        exists rest,
          new = (INFO, Final_position (current_board l))
                :: (INFO, Game_completed (moves_played l)) :: rest
    end.
Proof.
  destruct (play_game_loop Stub.four_plies Stub.working_page 10 100 (new_bot true))
    as [[l s'] |] eqn:E; [| vm_compute in E; discriminate E].
  exists l, s'.
  destruct (summary_reports_the_game Stub.four_plies Stub.working_page 10 100
              (new_bot true) l s' E) as (new & H).
  exists new. split; [reflexivity | exact H].
Defined.
(** ** The session *)

Lemma grows_refl ss : grows ss ss.
Proof.
  constructor; auto; exists []; reflexivity.
Qed.

Lemma grows_trans ss1 ss2 ss3 : grows ss1 ss2 -> grows ss2 ss3 -> grows ss1 ss3.
Proof.
  intros [[c1 Hc1] [r1 Hr1] Hh1 Hp1 Hd1 He1] [[c2 Hc2] [r2 Hr2] Hh2 Hp2 Hd2 He2].
  constructor.
  - exists (c2 ++ c1). rewrite Hc2, Hc1, app_assoc. reflexivity.
  - exists (r2 ++ r1). rewrite Hr2, Hr1, app_assoc. reflexivity.
  - congruence.
  - congruence.
  - auto.
  - auto.
Qed.

Lemma grows_slogging lvl msg ss : grows ss (slogging lvl msg ss).
Proof.
  constructor; auto; [exists [] | exists [(lvl, msg)]]; reflexivity.
Qed.

Lemma grows_scalled c ss : grows ss (scalled c ss).
Proof.
  constructor; auto; [exists [c] | exists []]; reflexivity.
Qed.

Lemma grows_with_bot b ss : grows ss (with_bot b ss).
Proof.
  constructor; auto; exists []; reflexivity.
Qed.

Lemma Grows_sret A (a : A) : Grows (sret a).
Proof. intro ss. apply grows_refl. Qed.

Lemma Grows_sraise A e : Grows (@sraise A e).
Proof. intro ss. apply grows_refl. Qed.

Lemma Grows_slog lvl msg : Grows (slog lvl msg).
Proof. intro ss. apply grows_slogging. Qed.

Lemma Grows_scall A c (oracle : Past -> SResult A) : Grows (scall c oracle).
Proof. intro ss. apply grows_scalled. Qed.

Lemma Grows_sask A c (oracle : Past -> A) : Grows (sask c oracle).
Proof. intro ss. apply grows_scalled. Qed.

Lemma Grows_on_driver A c (oracle : Past -> SResult A) : Grows (on_driver c oracle).
Proof.
  intro ss. unfold on_driver. destruct (driver ss); [apply grows_scalled | apply grows_refl].
Qed.

Lemma Grows_reading A (field : Session -> A) : Grows (reading field).
Proof. intro ss. apply grows_refl. Qed.

Lemma Grows_set_driver : Grows (assigning set_driver).
Proof.
  intro ss. constructor; auto; exists []; reflexivity.
Qed.

Lemma Grows_set_engine : Grows (assigning set_engine).
Proof.
  intro ss. constructor; auto; exists []; reflexivity.
Qed.

Lemma Grows_on_bot A (c : M A) : Grows (on_bot c).
Proof.
  intro ss. unfold on_bot. destruct (c (bot ss)) as [[a | [|]] b]; apply grows_with_bot.
Qed.

Lemma Grows_sbind A B (c : MS A) (k : A -> MS B) :
  Grows c -> (forall a, Grows (k a)) -> Grows (sbind c k).
Proof.
  intros Hc Hk ss. unfold sbind. specialize (Hc ss).
  destruct (c ss) as [[a | e] ss1]; cbn [snd] in *; [| exact Hc].
  eapply grows_trans; [exact Hc | apply Hk].
Qed.

Lemma Grows_try_catch A caught (body : MS A) handler :
  Grows body -> (forall e, Grows (handler e)) -> Grows (try_catch caught body handler).
Proof.
  intros Hb Hh ss. unfold try_catch. specialize (Hb ss).
  destruct (body ss) as [[a | e] ss1]; cbn [snd] in *; [exact Hb |].
  destruct (caught e); [| exact Hb].
  eapply grows_trans; [exact Hb | apply Hh].
Qed.

Lemma Grows_try_finally A (body : MS A) final :
  Grows body -> Grows final -> Grows (try_finally body final).
Proof.
  intros Hb Hf ss. unfold try_finally. specialize (Hb ss).
  destruct (body ss) as [r ss1]. specialize (Hf ss1).
  destruct (final ss1) as [[[] | e] ss2]; cbn [snd] in *; eapply grows_trans; eassumption.
Qed.

Ltac grows :=
  repeat first
    [ apply Grows_sret | apply Grows_sraise | apply Grows_slog | apply Grows_scall
    | apply Grows_sask | apply Grows_on_driver | apply Grows_reading
    | apply Grows_set_driver | apply Grows_set_engine | apply Grows_on_bot
    | assumption
    | match goal with H : context [Grows] |- Grows _ => apply H end
    | apply Grows_sbind | apply Grows_try_catch | apply Grows_try_finally
    | match goal with |- forall _, _ => intro end
    | match goal with
      | |- Grows (if ?b then _ else _) => destruct b
      | |- Grows (match ?x with _ => _ end) => destruct x
      | |- Grows (let _ := _ in _) => cbv zeta
      end ].

Lemma Grows_setup_browser senv : Grows (setup_browser senv).
Proof. unfold setup_browser. grows. Qed.

Lemma Grows_setup_engine senv : Grows (setup_engine senv).
Proof. unfold setup_engine. grows. Qed.

Lemma Grows_for_popups senv selectors : Grows (for_popups senv selectors).
Proof. induction selectors; simpl; grows. Qed.

Lemma Grows_handle_popups senv : Grows (handle_popups senv).
Proof. unfold handle_popups. pose proof (Grows_for_popups senv). grows. Qed.

Lemma Grows_for_username senv selectors : Grows (for_username senv selectors).
Proof. induction selectors; simpl; grows. Qed.

Lemma Grows_for_field senv msg selectors current :
  Grows (for_field senv msg selectors current).
Proof. revert current. induction selectors; intros; simpl; grows. Qed.

Lemma Grows_for_success senv selectors : Grows (for_success senv selectors).
Proof. induction selectors; simpl; grows. Qed.

Lemma Grows_login senv username password : Grows (login senv username password).
Proof.
  unfold login.
  pose proof (Grows_handle_popups senv). pose proof (Grows_for_username senv).
  pose proof (Grows_for_field senv). pose proof (Grows_for_success senv).
  grows.
Qed.

Lemma Grows_for_board senv selectors : Grows (for_board senv selectors).
Proof. induction selectors; simpl; grows. Qed.

Lemma Grows_navigate_to_analysis_board senv : Grows (navigate_to_analysis_board senv).
Proof.
  unfold navigate_to_analysis_board.
  pose proof (Grows_handle_popups senv). pose proof (Grows_for_board senv).
  grows.
Qed.

Lemma Grows_cleanup env senv : Grows (cleanup env senv).
Proof. unfold cleanup. grows. Qed.

Lemma Grows_prepare senv username password : Grows (prepare senv username password).
Proof.
  unfold prepare.
  pose proof (Grows_setup_browser senv). pose proof (Grows_setup_engine senv).
  pose proof (Grows_login senv). pose proof (Grows_navigate_to_analysis_board senv).
  grows.
Qed.

(** ** Running a method of the session step by step *)

Lemma post_sret A (a : A) ss (Q : SResult A -> Session -> Prop) :
  Q (SOk a) ss -> post (sret a) ss Q.
Proof. intro H; exact H. Qed.

Lemma post_sraise A e ss (Q : SResult A -> Session -> Prop) :
  Q (SRaise e) ss -> post (sraise e) ss Q.
Proof. intro H; exact H. Qed.

Lemma post_slog lvl msg ss (Q : SResult unit -> Session -> Prop) :
  Q (SOk tt) (slogging lvl msg ss) -> post (slog lvl msg) ss Q.
Proof. intro H; exact H. Qed.

Lemma post_reading A (field : Session -> A) ss (Q : SResult A -> Session -> Prop) :
  Q (SOk (field ss)) ss -> post (reading field) ss Q.
Proof. intro H; exact H. Qed.

Lemma post_assigning update ss (Q : SResult unit -> Session -> Prop) :
  Q (SOk tt) (update ss) -> post (assigning update) ss Q.
Proof. intro H; exact H. Qed.

Lemma post_scall A c (oracle : Past -> SResult A) ss (Q : SResult A -> Session -> Prop) :
  (forall r, oracle (past ss) = r -> Q r (scalled c ss)) -> post (scall c oracle) ss Q.
Proof. intro H. apply H. reflexivity. Qed.

Lemma post_sask A c (oracle : Past -> A) ss (Q : SResult A -> Session -> Prop) :
  (forall a, oracle (past ss) = a -> Q (SOk a) (scalled c ss)) -> post (sask c oracle) ss Q.
Proof. intro H. apply H. reflexivity. Qed.

Lemma post_on_driver A c (oracle : Past -> SResult A) ss (Q : SResult A -> Session -> Prop) :
  (driver ss = true -> forall r, oracle (past ss) = r -> Q r (scalled c ss)) ->
  (driver ss = false -> Q (SRaise OtherException) ss) ->
  post (on_driver c oracle) ss Q.
Proof.
  intros Hset Hnone. unfold post, on_driver.
  destruct (driver ss); [apply Hset | apply Hnone]; reflexivity.
Qed.

Lemma post_on_bot A (c : M A) ss (Q : SResult A -> Session -> Prop) :
  (forall r b, c (bot ss) = (r, b) ->
     Q match r with
       | Ok a => SOk a
       | Raise Exception => SRaise OtherException
       | Raise KeyboardInterrupt => SRaise Interrupt
       end (with_bot b ss)) ->
  post (on_bot c) ss Q.
Proof.
  intro H. unfold post, on_bot.
  destruct (c (bot ss)) as [r b] eqn:E. specialize (H r b eq_refl).
  destruct r as [a | [|]]; exact H.
Qed.

Lemma post_sbind A B (c : MS A) (k : A -> MS B) ss (Q : SResult B -> Session -> Prop) :
  post c ss (fun r ss1 =>
               match r with
               | SOk a => post (k a) ss1 Q
               | SRaise e => Q (SRaise e) ss1
               end) ->
  post (sbind c k) ss Q.
Proof.
  unfold post, sbind. destruct (c ss) as [[a | e] ss1]; intro H; exact H.
Qed.

Lemma post_try_catch A (caught : Raised -> bool) (body : MS A)
    (handler : Raised -> MS A) ss (Q : SResult A -> Session -> Prop) :
  post body ss (fun r ss1 =>
                  match r with
                  | SOk a => Q (SOk a) ss1
                  | SRaise e => if caught e then post (handler e) ss1 Q
                                else Q (SRaise e) ss1
                  end) ->
  post (try_catch caught body handler) ss Q.
Proof.
  unfold post, try_catch. destruct (body ss) as [[a | e] ss1]; cbn [fst snd]; [intro H; exact H |].
  destruct (caught e); intro H; exact H.
Qed.

Lemma post_try_finally A (body : MS A) (final : MS unit) ss (Q : SResult A -> Session -> Prop) :
  post body ss (fun r ss1 =>
                  post final ss1 (fun r' ss2 =>
                                    match r' with
                                    | SOk _ => Q r ss2
                                    | SRaise e => Q (SRaise e) ss2
                                    end)) ->
  post (try_finally body final) ss Q.
Proof.
  unfold post, try_finally. destruct (body ss) as [r ss1]; cbn [fst snd].
  destruct (final ss1) as [[[] | e] ss2]; intro H; exact H.
Qed.

Lemma post_consequence A (c : MS A) ss (Q Q' : SResult A -> Session -> Prop) :
  post c ss Q -> (forall r ss', Q r ss' -> Q' r ss') -> post c ss Q'.
Proof. intros H HQ. apply HQ, H. Qed.

(** One step of a method: the rule of its head, and a case for each answer
    of a call. *)
Ltac step :=
  lazymatch goal with
  | |- post (sbind _ _) _ _ => apply post_sbind
  | |- post (try_catch _ _ _) _ _ => apply post_try_catch
  | |- post (try_finally _ _) _ _ => apply post_try_finally
  | |- post (sret _) _ _ => apply post_sret
  | |- post (sraise _) _ _ => apply post_sraise
  | |- post (slog _ _) _ _ => apply post_slog
  | |- post (reading _) _ _ => apply post_reading
  | |- post (assigning _) _ _ => apply post_assigning
  | |- post (scall _ _) _ _ =>
      let r := fresh "r" in let E := fresh "E" in
      apply post_scall; intros r E; destruct r as [? | []]
  | |- post (sask _ _) _ _ =>
      let a := fresh "a" in let E := fresh "E" in
      apply post_sask; intros a E
  | |- post (on_driver _ _) _ _ =>
      let r := fresh "r" in let E := fresh "E" in let D := fresh "D" in
      apply post_on_driver; [intros D r E; destruct r as [? | []] | intros D]
  | |- post (if ?b then _ else _) _ _ => destruct b eqn:?
  | |- post (match ?x with _ => _ end) _ _ => destruct x eqn:?
  | |- post (let _ := _ in _) _ _ => cbv zeta
  end; cbn [only is_Exception].

Ltac steps := repeat step.

Ltac calls_prefix l base :=
  lazymatch l with
  | base => constr:(@nil SCall)
  | ?c :: ?rest => let p := calls_prefix rest base in constr:(c :: p)
  end.

Ltac records_prefix l base :=
  lazymatch l with
  | base => constr:(@nil (Level * SMsg))
  | ?r :: ?rest => let p := records_prefix rest base in constr:(r :: p)
  end.

Ltac session_fields :=
  unfold past in *;
  cbn [session_calls session_log bot driver engine headless stockfish_path
       scalled slogging set_driver set_engine with_bot past] in *.

(** The calls and the records added since [ss]: read off the session when it
    is written out, and added to those of a part already run otherwise. *)
Ltac since :=
  lazymatch goal with
  | Hcalls : calls_since ?ss1 ?ss' ?calls, Hrecords : records_since ?ss1 ?ss' ?records
    |- exists calls' records', calls_since ?ss ?ss' calls' /\ records_since ?ss ?ss' records' /\ _ =>
      let l := eval cbn [session_calls session_log scalled slogging set_driver set_engine
                         with_bot] in (session_calls ss1) in
      let p := calls_prefix l (session_calls ss) in
      let r := eval cbn [session_calls session_log scalled slogging set_driver set_engine
                         with_bot] in (session_log ss1) in
      let q := records_prefix r (session_log ss) in
      exists (calls ++ p), (records ++ q);
      split; [unfold calls_since in *; rewrite Hcalls, <- app_assoc; reflexivity |];
      split; [unfold records_since in *; rewrite Hrecords, <- app_assoc; reflexivity |]
  | |- exists calls' records', calls_since ?ss ?ss' calls' /\ records_since ?ss ?ss' records' /\ _ =>
      let l := eval cbn [session_calls session_log scalled slogging set_driver set_engine
                         with_bot] in (session_calls ss') in
      let p := calls_prefix l (session_calls ss) in
      let r := eval cbn [session_calls session_log scalled slogging set_driver set_engine
                         with_bot] in (session_log ss') in
      let q := records_prefix r (session_log ss) in
      exists p, q; split; [reflexivity |]; split; [reflexivity |]
  end.

Lemma successful_clicks_app senv h later earlier base :
  successful_clicks senv h (later ++ earlier) base =
  (successful_clicks senv h later (earlier ++ base)
   + successful_clicks senv h earlier base)%nat.
Proof.
  induction later as [| c later IH]; simpl; [reflexivity |].
  rewrite IH, <- app_assoc. lia.
Qed.

(** The loop of [handle_popups] leaves the bot alone, and reports each click
    that did not raise, of which there is at most one. *)
Lemma for_popups_calls senv selectors ss :
  post (for_popups senv selectors) ss (fun _ ss' =>
    bot ss' = bot ss /\
    exists calls records,
      calls_since ss ss' calls /\
      records_since ss ss' records /\
      successful_clicks senv (history (bot ss)) calls (session_calls ss)
        = List.length (filter is_dismissed records) /\
      (List.length (filter is_dismissed records) <= 1)%nat).
Proof.
  revert ss. induction selectors as [| selector selectors IH]; intro ss.
  - simpl. steps. split; [reflexivity |]. exists [], []. repeat split; simpl; lia.
  - cbn [for_popups]. steps.
    all: try (eapply post_consequence; [apply IH |]; cbv beta;
              intros _ ss' (Hbot & calls & records & Hcalls & Hrecords & Hcount & Hone)).
    all: (split; [first [exact Hbot | reflexivity] |]); since.
    all: rewrite ?successful_clicks_app, ?filter_app, ?length_app;
      session_fields; cbn [app] in *;
      cbn [successful_clicks click_succeeded filter is_dismissed snd List.length app];
      repeat match goal with E : _ = _ |- _ => rewrite E end;
      try lia.
Qed.

(** X11: [handle_popups] dismisses at most one pop-up: among the clicks it
    makes, at most one does not raise, and each of those is reported by a
    "Dismissed popup" record; it leaves the bot as it is and lets no
    [Exception] out. *)
Theorem handle_popups_dismisses_at_most_one senv ss :
  no_Exception (fst (handle_popups senv ss)) /\
  bot (snd (handle_popups senv ss)) = bot ss /\
  exists calls records,
    calls_since ss (snd (handle_popups senv ss)) calls /\
    records_since ss (snd (handle_popups senv ss)) records /\
    successful_clicks senv (history (bot ss)) calls (session_calls ss)
      = List.length (filter is_dismissed records) /\
    (List.length (filter is_dismissed records) <= 1)%nat.
Proof.
  change (post (handle_popups senv) ss (fun r ss' =>
            no_Exception r /\
            bot ss' = bot ss /\
            exists calls records,
              calls_since ss ss' calls /\
              records_since ss ss' records /\
              successful_clicks senv (history (bot ss)) calls (session_calls ss)
                = List.length (filter is_dismissed records) /\
              (List.length (filter is_dismissed records) <= 1)%nat)).
  unfold handle_popups. step.
  eapply post_consequence; [apply for_popups_calls |]. cbv beta.
  intros r ss' (Hbot & calls & records & Hcalls & Hrecords & Hcount & Hone).
  destruct r as [[] | []]; cbn [is_Exception]; steps.
  all: (split; [exact I || reflexivity |]); (split; [exact Hbot |]).
  all: try (exists calls, records; repeat split; assumption).
  all: exists calls, ((DEBUG, No_popups_to_handle) :: records).
  all: repeat split; try assumption.
  all: unfold records_since in *; cbn; rewrite Hrecords; reflexivity.
Qed.

Ltac step_bot :=
  lazymatch goal with
  | |- post (on_bot _) _ _ =>
      let r := fresh "r" in let b := fresh "b" in let E := fresh "E" in
      apply post_on_bot; intros r b E; destruct r as [? | []]
  end; cbn [only is_Exception].

Ltac calls_since_now :=
  lazymatch goal with
  | |- exists calls', calls_since ?ss ?ss' calls' /\ _ =>
      let l := eval cbn [session_calls session_log scalled slogging set_driver set_engine
                         with_bot] in (session_calls ss') in
      let p := calls_prefix l (session_calls ss) in
      exists p; split; [reflexivity |]
  end.

Lemma save_move_log_history env s :
  exists new,
    history (snd (save_move_log env s)) = new ++ history s /\
    forallb is_json_dump new = true.
Proof.
  rewrite save_move_log_unfold.
  destruct (move_log s) as [| e es]; [exists []; split; reflexivity |].
  destruct (write_json env (history s) (e :: es)) as [[] | [|]];
    (exists [json_dump (e :: es)]; split; reflexivity).
Qed.

(** What [cleanup] does. *)
Lemma cleanup_post env senv ss :
  post (cleanup env senv) ss (fun r ss' =>
    no_Exception r /\
    engine ss' = engine ss /\
    driver ss' = driver ss /\
    (exists new,
        history (bot ss') = new ++ history (bot ss) /\ forallb is_json_dump new = true) /\
    exists calls,
      calls_since ss ss' calls /\
      Forall (fun c => c = engine_quit \/ c = driver_quit) calls /\
      (In engine_quit calls <-> engine ss = true) /\
      (In driver_quit calls -> driver ss = true) /\
      (driver ss = true ->
       (engine ss = true -> exists u, quit_engine senv (past ss) = SOk u) ->
       In driver_quit calls)).
Proof.
  unfold cleanup. repeat (step || step_bot).
  all: (split; [exact I || reflexivity |]).
  all: (split; [session_fields; congruence |]); (split; [session_fields; congruence |]).
  all: split;
    [ first
        [ exists []; split; reflexivity
        | match goal with
          | E : save_move_log ?env ?s = (_, ?b) |- _ =>
              let H := fresh in
              pose proof (save_move_log_history env s) as H; rewrite E in H; exact H
          end ]
    | ].
  all: calls_since_now.
  all: session_fields; cbn [In].
  all: (split; [repeat (apply Forall_cons;
                          [first [left; reflexivity | right; reflexivity] |]);
                apply Forall_nil |]).
  all: repeat split; intros;
    repeat match goal with
           | H : _ \/ _ |- _ => destruct H
           | H : True -> _ |- _ => specialize (H I)
           | H : ?x = ?x -> _ |- _ => specialize (H eq_refl)
           | H : exists _, _ |- _ => destruct H
           end;
    try congruence; try discriminate; try contradiction; auto.
Qed.

(** X12: [cleanup] lets no [Exception] out. It quits the engine exactly when
    one is set; it quits the browser only when one is set, and does so
    whenever the engine, if any, quit without raising. *)
Theorem cleanup_releases env senv ss :
  no_Exception (fst (cleanup env senv ss)) /\
  exists calls,
    calls_since ss (snd (cleanup env senv ss)) calls /\
    (In engine_quit calls <-> engine ss = true) /\
    (In driver_quit calls -> driver ss = true) /\
    (driver ss = true ->
     (engine ss = true -> exists u, quit_engine senv (past ss) = SOk u) ->
     In driver_quit calls).
Proof.
  destruct (cleanup_post env senv ss)
    as (Hno & _ & _ & _ & calls & Hcalls & _ & Hengine & Hdriver & Hquit).
  split; [exact Hno |]. exists calls. auto.
Qed.

(** X13: when quitting the engine raises, [cleanup] stops there: the browser
    is not quit and the move log is not saved, whatever is set. *)
Theorem cleanup_stops_when_engine_quit_fails env senv ss e :
  engine ss = true ->
  quit_engine senv (past ss) = SRaise e ->
  session_calls (snd (cleanup env senv ss)) = engine_quit :: session_calls ss /\
  bot (snd (cleanup env senv ss)) = bot ss /\
  fst (cleanup env senv ss) = (if is_Exception e then SOk tt else SRaise e).
Proof.
  intros Hengine Hquit.
  change (post (cleanup env senv) ss (fun r ss' =>
            session_calls ss' = engine_quit :: session_calls ss /\
            bot ss' = bot ss /\
            r = (if is_Exception e then SOk tt else SRaise e))).
  unfold cleanup. step. step. step. rewrite Hengine. step. step.
  apply post_scall. intros r E. rewrite Hquit in E. subst r.
  destruct e; cbn [is_Exception]; steps; repeat split.
Qed.

Lemma cleanup_stops_when_engine_quit_fails_witness :
  session_calls (snd (cleanup Stub.working_page SStub.stuck_engine SStub.started))
    = engine_quit :: session_calls SStub.started /\
  bot (snd (cleanup Stub.working_page SStub.stuck_engine SStub.started))
    = bot SStub.started /\
  fst (cleanup Stub.working_page SStub.stuck_engine SStub.started)
    = (if is_Exception OtherException then SOk tt else SRaise OtherException).
Proof.
  apply (cleanup_stops_when_engine_quit_fails Stub.working_page SStub.stuck_engine
           SStub.started OtherException); reflexivity.
Defined.

(** With a cookie banner on the page, [handle_popups] clicks its button,
    once, and stops looking. *)
Example handle_popups_dismisses_the_cookie_banner :
  filter is_click_on
    (session_calls (snd (handle_popups SStub.with_cookie_banner SStub.started)))
    = [click_on 7%nat] /\
  hd_error (session_calls (snd (handle_popups SStub.with_cookie_banner SStub.started)))
    = Some (click_on 7%nat).
Proof. split; vm_compute; reflexivity. Qed.

(** ** The methods before the game leave the bot alone *)

Lemma keeps_sret A (a : A) : keeps_bot (sret a).
Proof. intro ss. reflexivity. Qed.

Lemma keeps_sraise A e : keeps_bot (@sraise A e).
Proof. intro ss. reflexivity. Qed.

Lemma keeps_slog lvl msg : keeps_bot (slog lvl msg).
Proof. intro ss. reflexivity. Qed.

Lemma keeps_scall A c (oracle : Past -> SResult A) : keeps_bot (scall c oracle).
Proof. intro ss. reflexivity. Qed.

Lemma keeps_sask A c (oracle : Past -> A) : keeps_bot (sask c oracle).
Proof. intro ss. reflexivity. Qed.

Lemma keeps_on_driver A c (oracle : Past -> SResult A) : keeps_bot (on_driver c oracle).
Proof. intro ss. unfold on_driver. destruct (driver ss); reflexivity. Qed.

Lemma keeps_reading A (field : Session -> A) : keeps_bot (reading field).
Proof. intro ss. reflexivity. Qed.

Lemma keeps_set_driver : keeps_bot (assigning set_driver).
Proof. intro ss. reflexivity. Qed.

Lemma keeps_set_engine : keeps_bot (assigning set_engine).
Proof. intro ss. reflexivity. Qed.

Lemma keeps_sbind A B (c : MS A) (k : A -> MS B) :
  keeps_bot c -> (forall a, keeps_bot (k a)) -> keeps_bot (sbind c k).
Proof.
  intros Hc Hk ss. unfold sbind. specialize (Hc ss).
  destruct (c ss) as [[a | e] ss1]; cbn [snd] in *; [| exact Hc].
  rewrite Hk. exact Hc.
Qed.

Lemma keeps_try_catch A (caught : Raised -> bool) (body : MS A) (handler : Raised -> MS A) :
  keeps_bot body -> (forall e, keeps_bot (handler e)) ->
  keeps_bot (try_catch caught body handler).
Proof.
  intros Hb Hh ss. unfold try_catch. specialize (Hb ss).
  destruct (body ss) as [[a | e] ss1]; cbn [snd] in *; [exact Hb |].
  destruct (caught e); [| exact Hb].
  rewrite Hh. exact Hb.
Qed.

Ltac keeps :=
  repeat first
    [ apply keeps_sret | apply keeps_sraise | apply keeps_slog | apply keeps_scall
    | apply keeps_sask | apply keeps_on_driver | apply keeps_reading
    | apply keeps_set_driver | apply keeps_set_engine
    | assumption
    | match goal with H : context [keeps_bot] |- keeps_bot _ => apply H end
    | apply keeps_sbind | apply keeps_try_catch
    | match goal with |- forall _, _ => intro end
    | match goal with
      | |- keeps_bot (if ?b then _ else _) => destruct b
      | |- keeps_bot (match ?x with _ => _ end) => destruct x
      | |- keeps_bot (let _ := _ in _) => cbv zeta
      end ].

Lemma keeps_setup_browser senv : keeps_bot (setup_browser senv).
Proof. unfold setup_browser. keeps. Qed.

Lemma keeps_setup_engine senv : keeps_bot (setup_engine senv).
Proof. unfold setup_engine. keeps. Qed.

Lemma keeps_for_popups senv selectors : keeps_bot (for_popups senv selectors).
Proof. induction selectors; simpl; keeps. Qed.

Lemma keeps_handle_popups senv : keeps_bot (handle_popups senv).
Proof. unfold handle_popups. pose proof (keeps_for_popups senv). keeps. Qed.

Lemma keeps_for_username senv selectors : keeps_bot (for_username senv selectors).
Proof. induction selectors; simpl; keeps. Qed.

Lemma keeps_for_field senv msg selectors current :
  keeps_bot (for_field senv msg selectors current).
Proof. revert current. induction selectors; intros; simpl; keeps. Qed.

Lemma keeps_for_success senv selectors : keeps_bot (for_success senv selectors).
Proof. induction selectors; simpl; keeps. Qed.

Lemma keeps_login senv username password : keeps_bot (login senv username password).
Proof.
  unfold login.
  pose proof (keeps_handle_popups senv). pose proof (keeps_for_username senv).
  pose proof (keeps_for_field senv). pose proof (keeps_for_success senv).
  keeps.
Qed.

Lemma keeps_for_board senv selectors : keeps_bot (for_board senv selectors).
Proof. induction selectors; simpl; keeps. Qed.

Lemma keeps_navigate_to_analysis_board senv : keeps_bot (navigate_to_analysis_board senv).
Proof.
  unfold navigate_to_analysis_board.
  pose proof (keeps_handle_popups senv). pose proof (keeps_for_board senv).
  keeps.
Qed.

Lemma keeps_prepare senv username password : keeps_bot (prepare senv username password).
Proof.
  unfold prepare.
  pose proof (keeps_setup_browser senv). pose proof (keeps_setup_engine senv).
  pose proof (keeps_login senv). pose proof (keeps_navigate_to_analysis_board senv).
  keeps.
Qed.

(** ** No [Exception] out of the methods that catch them *)

Lemma no_Exception_try_catch A (body : MS A) (handler : Raised -> MS A) ss :
  (forall e ss1, no_Exception (fst (handler e ss1))) ->
  no_Exception (fst (try_catch is_Exception body handler ss)).
Proof.
  intro Hh. unfold try_catch.
  destruct (body ss) as [[a | e] ss1]; cbn [fst]; [exact I |].
  destruct e; cbn [is_Exception fst]; try apply Hh. reflexivity.
Qed.



(** ** The calls of a method *)

Lemma calls_within_refl P ss : calls_within P ss ss.
Proof. exists []. split; reflexivity. Qed.

Lemma calls_within_same P ss ss' :
  session_calls ss' = session_calls ss -> calls_within P ss ss'.
Proof. intro H. exists []. split; [exact H | reflexivity]. Qed.

Lemma calls_within_trans P ss1 ss2 ss3 :
  calls_within P ss1 ss2 -> calls_within P ss2 ss3 -> calls_within P ss1 ss3.
Proof.
  intros (c1 & H1 & P1) (c2 & H2 & P2). exists (c2 ++ c1). split.
  - rewrite H2, H1, app_assoc. reflexivity.
  - rewrite forallb_app, P1, P2. reflexivity.
Qed.



Lemma Within_sret A P (a : A) : Within P (sret a).
Proof. intro ss. apply calls_within_refl. Qed.

Lemma Within_sraise A P e : Within P (@sraise A e).
Proof. intro ss. apply calls_within_refl. Qed.

Lemma Within_slog P lvl msg : Within P (slog lvl msg).
Proof. intro ss. apply calls_within_same. reflexivity. Qed.

Lemma Within_reading A P (field : Session -> A) : Within P (reading field).
Proof. intro ss. apply calls_within_refl. Qed.

Lemma Within_set_driver P : Within P (assigning set_driver).
Proof. intro ss. apply calls_within_same. reflexivity. Qed.

Lemma Within_set_engine P : Within P (assigning set_engine).
Proof. intro ss. apply calls_within_same. reflexivity. Qed.

Lemma Within_scall A (P : SCall -> bool) c (oracle : Past -> SResult A) :
  P c = true -> Within P (scall c oracle).
Proof. intros HP ss. exists [c]. split; [reflexivity |]. simpl. rewrite HP. reflexivity. Qed.

Lemma Within_sask A (P : SCall -> bool) c (oracle : Past -> A) :
  P c = true -> Within P (sask c oracle).
Proof. intros HP ss. exists [c]. split; [reflexivity |]. simpl. rewrite HP. reflexivity. Qed.

Lemma Within_on_driver A (P : SCall -> bool) c (oracle : Past -> SResult A) :
  P c = true -> Within P (on_driver c oracle).
Proof.
  intros HP ss. unfold on_driver.
  destruct (driver ss); [apply Within_scall, HP | apply calls_within_refl].
Qed.

Lemma Within_on_bot A P (c : M A) : Within P (on_bot c).
Proof.
  intro ss. unfold on_bot. destruct (c (bot ss)) as [[a | [|]] b]; apply calls_within_same; reflexivity.
Qed.

Lemma Within_sbind A B P (c : MS A) (k : A -> MS B) :
  Within P c -> (forall a, Within P (k a)) -> Within P (sbind c k).
Proof.
  intros Hc Hk ss. unfold sbind. specialize (Hc ss).
  destruct (c ss) as [[a | e] ss1]; cbn [snd] in *; [| exact Hc].
  eapply calls_within_trans; [exact Hc | apply Hk].
Qed.

Lemma Within_try_catch A P (caught : Raised -> bool) (body : MS A)
    (handler : Raised -> MS A) :
  Within P body -> (forall e, Within P (handler e)) -> Within P (try_catch caught body handler).
Proof.
  intros Hb Hh ss. unfold try_catch. specialize (Hb ss).
  destruct (body ss) as [[a | e] ss1]; cbn [snd] in *; [exact Hb |].
  destruct (caught e); [| exact Hb].
  eapply calls_within_trans; [exact Hb | apply Hh].
Qed.

Ltac within :=
  repeat first
    [ apply Within_sret | apply Within_sraise | apply Within_slog | apply Within_reading
    | apply Within_set_driver | apply Within_set_engine | apply Within_on_bot
    | apply Within_scall; reflexivity | apply Within_sask; reflexivity
    | apply Within_on_driver; reflexivity
    | assumption
    | match goal with H : context [Within] |- Within _ _ => apply H end
    | apply Within_sbind | apply Within_try_catch
    | match goal with |- forall _, _ => intro end
    | match goal with
      | |- Within _ (if ?b then _ else _) => destruct b
      | |- Within _ (match ?x with _ => _ end) => destruct x
      | |- Within _ (let _ := _ in _) => cbv zeta
      end ].

Lemma no_typing_filter calls :
  forallb no_typing calls = true -> filter is_type_into calls = [].
Proof.
  induction calls as [| c calls IH]; simpl; [reflexivity |].
  unfold no_typing at 1. destruct (is_type_into c); simpl; [discriminate | exact IH].
Qed.

Lemma looks_only_no_typing c : looks_only c = true -> no_typing c = true.
Proof. destruct c; simpl; intro H; try discriminate H; reflexivity. Qed.

Lemma looks_only_for_username senv selectors :
  Within looks_only (for_username senv selectors).
Proof. induction selectors; simpl; within. Qed.

Lemma looks_only_for_field senv msg selectors current :
  Within looks_only (for_field senv msg selectors current).
Proof. revert current. induction selectors; intros; simpl; within. Qed.

Lemma looks_only_for_success senv selectors :
  Within looks_only (for_success senv selectors).
Proof. induction selectors; simpl; within. Qed.

Lemma looks_only_for_board senv selectors :
  Within looks_only (for_board senv selectors).
Proof. induction selectors; simpl; within. Qed.

Lemma no_typing_for_popups senv selectors :
  Within no_typing (for_popups senv selectors).
Proof. induction selectors; simpl; within. Qed.

Lemma no_typing_handle_popups senv : Within no_typing (handle_popups senv).
Proof. unfold handle_popups. pose proof (no_typing_for_popups senv). within. Qed.

(** ** Logging in *)


Ltac call_prefix l base :=
  lazymatch l with
  | base => constr:(@nil SCall)
  | ?c :: ?rest => let p := call_prefix rest base in constr:(c :: p)
  | ?cs ++ base => constr:(cs)
  | ?cs ++ ?rest => let p := call_prefix rest base in constr:(cs ++ p)
  end.

(** A call of a method whose calls satisfy [P]. *)
Ltac call_within P L :=
  lazymatch goal with
  | |- post ?c ?ss _ =>
      apply (post_consequence _ c ss (fun _ ss' => calls_within P ss ss') _ (L ss));
      let r := fresh "r" in
      let ss1 := fresh "ss" in
      let calls := fresh "calls" in
      let Hc := fresh "Hcalls" in
      let Hp := fresh "Hlooks" in
      intros r ss1 (calls & Hc & Hp); destruct r as [? | []]; cbn [only is_Exception]
  end.

Ltac calls_known :=
  session_fields;
  repeat match goal with
         | H : session_calls ?s = _ |- context [session_calls ?s] => rewrite H
         end.

Lemma looks_only_filter calls :
  forallb looks_only calls = true -> filter is_type_into calls = [].
Proof.
  intro H. apply no_typing_filter. rewrite forallb_forall in *.
  intros c Hc. apply looks_only_no_typing, H, Hc.
Qed.

Ltac login_step senv :=
  first
    [ step
    | lazymatch goal with
      | |- post (handle_popups _) _ _ =>
          call_within no_typing (no_typing_handle_popups senv)
      | |- post (for_username _ ?s) _ _ =>
          call_within looks_only (looks_only_for_username senv s)
      | |- post (for_field _ ?m ?s ?c) _ _ =>
          call_within looks_only (looks_only_for_field senv m s c)
      | |- post (for_success _ ?s) _ _ =>
          call_within looks_only (looks_only_for_success senv s)
      | |- post (for_board _ ?s) _ _ =>
          call_within looks_only (looks_only_for_board senv s)
      end ].

(** The calls added, written out. *)
Ltac calls_added :=
  unfold calls_since; calls_known;
  lazymatch goal with
  | |- exists calls, ?l = calls ++ ?base /\ _ =>
      let p := call_prefix l base in
      exists p; split; [repeat (rewrite <- app_assoc || cbn [app]); reflexivity |]
  end.

Ltac no_typing_there :=
  repeat first [rewrite filter_app | progress (cbn [filter is_type_into])];
  repeat match goal with
         | H : forallb looks_only ?c = true |- context [filter is_type_into ?c] =>
             rewrite (looks_only_filter c H)
         | H : forallb no_typing ?c = true |- context [filter is_type_into ?c] =>
             rewrite (no_typing_filter c H)
         end;
  cbn [app].

Ltac later_part l :=
  lazymatch l with
  | click_on _ :: _ => constr:(@nil SCall)
  | ?cs ++ click_on _ :: _ => constr:(cs)
  | ?c :: ?rest => let p := later_part rest in constr:(c :: p)
  | ?cs ++ ?rest => let p := later_part rest in constr:(cs ++ p)
  end.

Ltac earlier_part l :=
  lazymatch l with
  | click_on _ :: ?rest => constr:(rest)
  | _ :: ?rest => earlier_part rest
  | _ ++ ?rest => earlier_part rest
  end.

Lemma login_calls senv username password ss :
  post (login senv username password) ss (fun r ss' =>
    exists calls,
      calls_since ss ss' calls /\
      (filter is_type_into calls = [] \/
       (exists field, filter is_type_into calls = [type_into field username]) \/
       (exists field field',
           filter is_type_into calls
             = [type_into field' password; type_into field username])) /\
      (r = SOk true ->
       exists field field' button later earlier,
         calls = later ++ click_on button :: earlier /\
         filter is_type_into earlier
           = [type_into field' password; type_into field username] /\
         forallb looks_only later = true)).
Proof.
  unfold login. repeat (login_step senv).
  all: calls_added.
  all: split;
    [ first [ left; no_typing_there; reflexivity
            | right; left; eexists; no_typing_there; reflexivity
            | right; right; eexists; eexists; no_typing_there; reflexivity
            ]
    | ].
  all: try (intro Hr; discriminate Hr).
  all: intros _.
  all: lazymatch goal with
       | |- exists field field' button later earlier, ?l = _ /\ _ =>
           let p := later_part l in
           let q := earlier_part l in
           eexists; eexists; eexists; exists p, q
       end.
  all: split; [repeat (rewrite <- app_assoc || cbn [app]); reflexivity |].
  all: split; [no_typing_there; reflexivity |].
  all: cbn [forallb looks_only andb]; assumption.
Qed.




(** On a site where everything is found, [login] types both credentials,
    clicks, and returns [True]. *)
Example login_on_a_working_site :
  fst (login SStub.working "user" "secret" SStub.started) = SOk true /\
  filter is_type_into
    (session_calls (snd (login SStub.working "user" "secret" SStub.started)))
    = [type_into 2%nat "secret"; type_into 1%nat "user"].
Proof. split; vm_compute; reflexivity. Qed.

(** A password field that is found but hidden is typed into all the same:
    the loop keeps the last element found. *)
Example login_types_into_a_hidden_field :
  let site :=
    {| install_chrome_driver := install_chrome_driver SStub.working;
       start_chrome := start_chrome SStub.working;
       run_hide_webdriver_flag := run_hide_webdriver_flag SStub.working;
       os_path_exists := os_path_exists SStub.working;
       start_engine := start_engine SStub.working;
       configure_engine := configure_engine SStub.working;
       load_page := load_page SStub.working;
       until_clickable := until_clickable SStub.working;
       until_present := until_present SStub.working;
       find_element_by := find_element_by SStub.working;
       element_is_displayed := fun _ el => SOk (negb (Nat.eqb el 2));
       element_is_enabled := element_is_enabled SStub.working;
       clear_element := clear_element SStub.working;
       send_keys_to := send_keys_to SStub.working;
       click_element := click_element SStub.working;
       read_current_url := read_current_url SStub.working;
       quit_engine := quit_engine SStub.working;
       quit_driver := quit_driver SStub.working |} in
  In (type_into 2%nat "secret")
     (session_calls (snd (login site "user" "secret" SStub.started))).
Proof. vm_compute. tauto. Qed.

(** ** Running the bot *)

Lemma setup_browser_ok senv ss :
  post (setup_browser senv) ss (fun r ss' =>
    forall u, r = SOk u -> driver ss' = true).
Proof.
  unfold setup_browser. steps; intros u Hr; try discriminate Hr; reflexivity.
Qed.

Lemma setup_engine_ok senv ss :
  post (setup_engine senv) ss (fun r ss' =>
    forall u, r = SOk u -> engine ss' = true).
Proof.
  unfold setup_engine. steps; intros u Hr; try discriminate Hr; reflexivity.
Qed.

Lemma navigate_calls senv ss :
  post (navigate_to_analysis_board senv) ss (fun r ss' =>
    r = SOk true ->
    exists calls,
      calls_since ss ss' calls /\
      In (driver_get "https://www.chess.com/analysis") calls).
Proof.
  unfold navigate_to_analysis_board. repeat (login_step senv).
  all: try (intro Hr; discriminate Hr).
  all: intros _; calls_added.
  all: repeat (apply in_or_app; right). 
  all: left; reflexivity.
Qed.

Lemma post_Grows A (c : MS A) ss :
  Grows c -> post c ss (fun _ ss' => grows ss ss').
Proof. intro H. apply H. Qed.

Lemma post_and A (c : MS A) ss (Q1 Q2 : SResult A -> Session -> Prop) :
  post c ss Q1 -> post c ss Q2 -> post c ss (fun r ss' => Q1 r ss' /\ Q2 r ss').
Proof. intros H1 H2. split; assumption. Qed.

(** A call of a method of which [H] is known. *)
Ltac call_knowing H :=
  lazymatch goal with
  | |- post ?c ?ss _ =>
      lazymatch type of H with
      | post c ss ?Q0 => apply (post_consequence _ c ss Q0 _ H)
      end
  end.

(** The game is reached only with a browser and an engine set, after the
    password was typed and the analysis page loaded. *)
Lemma prepare_ok senv username password ss :
  post (prepare senv username password) ss (fun r ss' =>
    r = SOk tt ->
    driver ss' = true /\
    engine ss' = true /\
    exists calls records,
      calls_since ss ss' calls /\
      records_since ss ss' records /\
      (exists field, In (type_into field password) calls) /\
      In (driver_get "https://www.chess.com/analysis") calls /\
      In (INFO, Starting_game_loop) records).
Proof.
  unfold prepare. step.
  call_knowing (post_and _ _ _ _ _ (post_Grows _ _ ss (Grows_setup_browser senv))
                  (setup_browser_ok senv ss)).
  intros r ss1 [G1 D1]. destruct r as [[] | e]; [| intro Hr; discriminate Hr].
  specialize (D1 tt eq_refl). step.
  call_knowing (post_and _ _ _ _ _ (post_Grows _ _ ss1 (Grows_setup_engine senv))
                  (setup_engine_ok senv ss1)).
  intros r ss2 [G2 E2]. destruct r as [[] | e]; [| intro Hr; discriminate Hr].
  specialize (E2 tt eq_refl). step.
  call_knowing (post_and _ _ _ _ _
                  (post_Grows _ _ ss2 (Grows_login senv username password))
                  (login_calls senv username password ss2)).
  intros r ss3 [G3 L3]. destruct r as [[|] | e]; cbn [negb];
    [| step; intro Hr; discriminate Hr | intro Hr; discriminate Hr].
  destruct L3 as (calls3 & Hcalls3 & _ & Htyped).
  destruct (Htyped eq_refl) as (field & field' & button & later & earlier & Hsplit & Hfilter & _).
  step.
  call_knowing (post_and _ _ _ _ _
                  (post_Grows _ _ ss3 (Grows_navigate_to_analysis_board senv))
                  (navigate_calls senv ss3)).
  intros r ss4 [G4 N4]. destruct r as [[|] | e]; cbn [negb];
    [| step; intro Hr; discriminate Hr | intro Hr; discriminate Hr].
  destruct (N4 eq_refl) as (calls4 & Hcalls4 & Hget).
  step. intros _.
  pose proof (grows_trans _ _ _ G2 (grows_trans _ _ _ G3 G4)) as G24.
  split; [apply (grows_driver _ _ G24), D1 |].
  split; [apply (grows_engine _ _ (grows_trans _ _ _ G3 G4)), E2 |].
  destruct G1 as [[calls1 Hcalls1] [records1 Hrecords1] _ _ _ _].
  destruct G2 as [[calls2 Hcalls2] [records2 Hrecords2] _ _ _ _].
  destruct G3 as [_ [records3 Hrecords3] _ _ _ _].
  destruct G4 as [_ [records4 Hrecords4] _ _ _ _].
  unfold calls_since in *.
  exists (calls4 ++ calls3 ++ calls2 ++ calls1),
         ((INFO, Starting_game_loop) :: records4 ++ records3 ++ records2 ++ records1).
  split; [session_fields; rewrite Hcalls4, Hcalls3, Hcalls2, Hcalls1, <- !app_assoc;
          reflexivity |].
  split; [unfold records_since; session_fields;
          rewrite Hrecords4, Hrecords3, Hrecords2, Hrecords1;
          cbn [app]; rewrite <- !app_assoc; reflexivity |].
  split; [| split].
  - exists field'. apply in_or_app. right. apply in_or_app. left.
    assert (Hin : In (type_into field' password) (filter is_type_into earlier))
      by (rewrite Hfilter; left; reflexivity).
    apply filter_In in Hin. rewrite Hsplit. apply in_or_app. right. right. apply Hin.
  - apply in_or_app. left. exact Hget.
  - left. reflexivity.
Qed.

Lemma play_game_loop_history rules env fuel max_moves s l s' :
  play_game_loop rules env fuel max_moves s = Some (l, s') ->
  (exists cmds, history s' = cmds ++ history s) /\ log_moves s' = log_moves s.
Proof.
  unfold play_game_loop.
  destruct (while_loop_progress rules env fuel max_moves initial_locals
              (logging INFO (Starting_game max_moves) s))
    as (new & cmds & es & _ & Hcmds & _ & Hlog & _).
  destruct (while_loop rules env fuel max_moves initial_locals
              (logging INFO (Starting_game max_moves) s)) as [[[|] l1] s1];
    cbn [fst snd] in *; [discriminate |].
  intro H. inversion H. subst l1 s'. clear H.
  unfold summary.
  destruct (moves_played l >? 0); cbn; (split; [exists cmds; exact Hcmds | exact Hlog]).
Qed.

(** What the [except] and [finally] clauses of [run] do to the outcome of
    its [try] block. *)
Lemma conclude_post env senv r0 ss1 :
  no_Exception (fst (conclude env senv (r0, ss1))) /\
  engine (snd (conclude env senv (r0, ss1))) = engine ss1 /\
  driver (snd (conclude env senv (r0, ss1))) = driver ss1 /\
  (exists new,
      history (bot (snd (conclude env senv (r0, ss1)))) = new ++ history (bot ss1) /\
      forallb is_json_dump new = true) /\
  (exists records, records_since ss1 (snd (conclude env senv (r0, ss1))) records) /\
  exists calls,
    calls_since ss1 (snd (conclude env senv (r0, ss1))) calls /\
    Forall (fun c => c = engine_quit \/ c = driver_quit) calls /\
    (In engine_quit calls <-> engine ss1 = true) /\
    (In driver_quit calls -> driver ss1 = true) /\
    (driver ss1 = true ->
     (engine ss1 = true -> forall p, quit_engine senv p = SOk tt) ->
     In driver_quit calls).
Proof.
  unfold conclude. cbn [snd].
  change (post (try_finally
                  (try_catch is_Exception (fun _ => (r0, ss1))
                     (fun _ => slog ERROR Bot_execution_failed))
                  (cleanup env senv)) ss1
            (fun r ss' =>
               no_Exception r /\
               engine ss' = engine ss1 /\
               driver ss' = driver ss1 /\
               (exists new,
                   history (bot ss') = new ++ history (bot ss1) /\
                   forallb is_json_dump new = true) /\
               (exists records, records_since ss1 ss' records) /\
               exists calls,
                 calls_since ss1 ss' calls /\
                 Forall (fun c => c = engine_quit \/ c = driver_quit) calls /\
                 (In engine_quit calls <-> engine ss1 = true) /\
                 (In driver_quit calls -> driver ss1 = true) /\
                 (driver ss1 = true ->
                  (engine ss1 = true -> forall p, quit_engine senv p = SOk tt) ->
                  In driver_quit calls))).
  step. step. unfold post at 1. cbn [fst snd].
  assert (Hcleanup :
    forall (r : SResult unit) ss2,
      no_Exception r ->
      grows ss1 ss2 -> bot ss2 = bot ss1 ->
      session_calls ss2 = session_calls ss1 ->
      engine ss2 = engine ss1 -> driver ss2 = driver ss1 ->
      post (cleanup env senv) ss2
        (fun r' ss' =>
           match r' with
           | SOk _ =>
               no_Exception r /\
               engine ss' = engine ss1 /\
               driver ss' = driver ss1 /\
               (exists new,
                   history (bot ss') = new ++ history (bot ss1) /\
                   forallb is_json_dump new = true) /\
               (exists records, records_since ss1 ss' records) /\
               exists calls,
                 calls_since ss1 ss' calls /\
                 Forall (fun c => c = engine_quit \/ c = driver_quit) calls /\
                 (In engine_quit calls <-> engine ss1 = true) /\
                 (In driver_quit calls -> driver ss1 = true) /\
                 (driver ss1 = true ->
                  (engine ss1 = true -> forall p, quit_engine senv p = SOk tt) ->
                  In driver_quit calls)
           | SRaise e =>
               no_Exception (@SRaise unit e) /\
               engine ss' = engine ss1 /\
               driver ss' = driver ss1 /\
               (exists new,
                   history (bot ss') = new ++ history (bot ss1) /\
                   forallb is_json_dump new = true) /\
               (exists records, records_since ss1 ss' records) /\
               exists calls,
                 calls_since ss1 ss' calls /\
                 Forall (fun c => c = engine_quit \/ c = driver_quit) calls /\
                 (In engine_quit calls <-> engine ss1 = true) /\
                 (In driver_quit calls -> driver ss1 = true) /\
                 (driver ss1 = true ->
                  (engine ss1 = true -> forall p, quit_engine senv p = SOk tt) ->
                  In driver_quit calls)
           end)).
  { intros r ss2 Hr G Hbot Hsame Hengine Hdriver.
    call_knowing (post_and _ _ _ _ _ (post_Grows _ _ ss2 (Grows_cleanup env senv))
                    (cleanup_post env senv ss2)).
    intros r' ss' (G' & Hno & He & Hd & Hnew & calls & Hcalls & Hall & Hin_e & Hin_d & Hquit).
    assert (Hfacts :
      engine ss' = engine ss1 /\
      driver ss' = driver ss1 /\
      (exists new,
          history (bot ss') = new ++ history (bot ss1) /\
          forallb is_json_dump new = true) /\
      (exists records, records_since ss1 ss' records) /\
      exists calls0,
        calls_since ss1 ss' calls0 /\
        Forall (fun c => c = engine_quit \/ c = driver_quit) calls0 /\
        (In engine_quit calls0 <-> engine ss1 = true) /\
        (In driver_quit calls0 -> driver ss1 = true) /\
        (driver ss1 = true ->
         (engine ss1 = true -> forall p, quit_engine senv p = SOk tt) ->
         In driver_quit calls0)).
    { split; [congruence |]. split; [congruence |].
      split; [rewrite <- Hbot; exact Hnew |].
      split; [exact (grows_log _ _ (grows_trans _ _ _ G G')) |].
      exists calls. unfold calls_since in *.
      split; [rewrite Hcalls, Hsame; reflexivity |].
      split; [exact Hall |].
      split; [rewrite Hin_e, Hengine; reflexivity |].
      split; [rewrite <- Hdriver; exact Hin_d |].
      intros Hd1 Hq. apply Hquit; [congruence |]. intro He2. exists tt. apply Hq. congruence. }
    destruct r' as [[] | e]; (split; [assumption | exact Hfacts]). }
  destruct r0 as [[] | e].
  - apply Hcleanup; auto. exact I. apply grows_refl.
  - destruct e; cbn [is_Exception]; try step;
      apply Hcleanup; try reflexivity; try exact I;
      first [apply grows_slogging | apply grows_refl].
Qed.

(** X15: when [run] returns, no [Exception] comes out of it, the engine it
    holds has been asked to quit, and so has the browser it holds, provided
    quitting the engine does not raise. *)
Theorem run_releases rules env senv fuel username password max_moves ss r ss' :
  run rules env senv fuel username password max_moves ss = Some (r, ss') ->
  no_Exception r /\
  exists calls,
    calls_since ss ss' calls /\
    (engine ss' = true -> In engine_quit calls) /\
    (driver ss' = true ->
     (forall p, quit_engine senv p = SOk tt) ->
     In driver_quit calls).
Proof.
  unfold run.
  destruct (Grows_prepare senv username password ss) as [[calls1 Hcalls1] _ _ _ _ _].
  destruct (prepare senv username password ss) as [[[] | e] ss1]; cbn [snd] in *.
  - destruct (play_game_loop rules env fuel max_moves (bot ss1)) as [[l b] |];
      [| discriminate].
    intro H. injection H as H.
    pose proof (conclude_post env senv (SOk tt) (with_bot b ss1)) as Hc.
    rewrite H in Hc. cbn [fst snd] in Hc.
    destruct Hc as (Hno & He & Hd & _ & _ & calls & Hcalls & _ & Hin_e & _ & Hquit).
    split; [exact Hno |].
    exists (calls ++ calls1). unfold calls_since in *.
    split; [rewrite Hcalls; cbn [session_calls with_bot]; rewrite Hcalls1, app_assoc;
            reflexivity |].
    split.
    + intro Hset. apply in_or_app. left. apply Hin_e. congruence.
    + intros Hset Hq. apply in_or_app. left. apply Hquit; [congruence | intros _; exact Hq].
  - intro H. injection H as H.
    pose proof (conclude_post env senv (SRaise e) ss1) as Hc.
    rewrite H in Hc. cbn [fst snd] in Hc.
    destruct Hc as (Hno & He & Hd & _ & _ & calls & Hcalls & _ & Hin_e & _ & Hquit).
    split; [exact Hno |].
    exists (calls ++ calls1). unfold calls_since in *.
    split; [rewrite Hcalls, Hcalls1, app_assoc; reflexivity |].
    split.
    + intro Hset. apply in_or_app. left. apply Hin_e. congruence.
    + intros Hset Hq. apply in_or_app. left. apply Hquit; [congruence | intros _; exact Hq].
Qed.

Lemma run_releases_witness :
  exists r ss',
    run Stub.four_plies Stub.working_page SStub.working 10 "user" "secret" 100 SStub.fresh
      = Some (r, ss') /\
    no_Exception r /\
    exists calls,
      calls_since SStub.fresh ss' calls /\
      (engine ss' = true -> In engine_quit calls) /\
      (driver ss' = true ->
       (forall p, quit_engine SStub.working p = SOk tt) ->
       In driver_quit calls).
Proof.
  destruct (run Stub.four_plies Stub.working_page SStub.working 10 "user" "secret" 100
              SStub.fresh) as [[r ss'] |] eqn:E; [| vm_compute in E; discriminate E].
  exists r, ss'. split; [reflexivity |].
  exact (run_releases Stub.four_plies Stub.working_page SStub.working 10 "user" "secret" 100
           SStub.fresh r ss' E).
Defined.

(** X16: [run] uses the move path (the engine, the board of the page) only
    after a complete preparation: unless all it did there was to save the
    move log, the browser and the engine are set, the password was typed,
    the analysis page was loaded and "Starting game loop..." was logged. *)
Theorem run_plays_only_when_prepared rules env senv fuel username password max_moves
    ss r ss' :
  run rules env senv fuel username password max_moves ss = Some (r, ss') ->
  exists new,
    history (bot ss') = new ++ history (bot ss) /\
    (forallb is_json_dump new = true \/
     (driver ss' = true /\
      engine ss' = true /\
      exists calls records,
        calls_since ss ss' calls /\
        records_since ss ss' records /\
        (exists field, In (type_into field password) calls) /\
        In (driver_get "https://www.chess.com/analysis") calls /\
        In (INFO, Starting_game_loop) records)).
Proof.
  unfold run.
  pose proof (prepare_ok senv username password ss) as Hok. unfold post in Hok.
  pose proof (keeps_prepare senv username password ss) as Hbot.
  destruct (prepare senv username password ss) as [[[] | e] ss1]; cbn [fst snd] in *.
  - destruct (play_game_loop rules env fuel max_moves (bot ss1)) as [[l b] |] eqn:Eloop;
      [| discriminate].
    intro H. injection H as H.
    destruct (play_game_loop_history _ _ _ _ _ _ _ Eloop) as [[cmds Hcmds] _].
    pose proof (conclude_post env senv (SOk tt) (with_bot b ss1)) as Hc.
    rewrite H in Hc. cbn [fst snd] in Hc.
    destruct Hc
      as (_ & He & Hd & (new & Hnew & _) & (records & Hrecords) & calls & Hcalls & _).
    destruct (Hok eq_refl)
      as (Hdriver & Hengine & calls1 & records1 & Hcalls1 & Hrecords1 & Htyped & Hget & Hlog).
    exists (new ++ cmds). split.
    + rewrite Hnew. cbn [bot with_bot]. rewrite Hcmds, Hbot, app_assoc. reflexivity.
    + right. split; [rewrite Hd; exact Hdriver |]. split; [rewrite He; exact Hengine |].
      exists (calls ++ calls1), (records ++ records1).
      unfold calls_since, records_since in *.
      split; [rewrite Hcalls; cbn [session_calls with_bot]; rewrite Hcalls1, app_assoc;
              reflexivity |].
      split; [rewrite Hrecords; cbn [session_log with_bot]; rewrite Hrecords1, app_assoc;
              reflexivity |].
      split; [destruct Htyped as [field Hin]; exists field; apply in_or_app; right;
              exact Hin |].
      split; apply in_or_app; right; assumption.
  - intro H. injection H as H.
    pose proof (conclude_post env senv (SRaise e) ss1) as Hc.
    rewrite H in Hc. cbn [fst snd] in Hc.
    destruct Hc as (_ & _ & _ & (new & Hnew & Hdump) & _).
    exists new. split; [rewrite Hnew, Hbot; reflexivity |].
    left. exact Hdump.
Qed.

Lemma run_plays_only_when_prepared_witness :
  exists r ss' new,
    run Stub.four_plies Stub.working_page SStub.working 10 "user" "secret" 100 SStub.fresh
      = Some (r, ss') /\
    history (bot ss') = new ++ history (bot SStub.fresh) /\
    (forallb is_json_dump new = true \/
     (driver ss' = true /\
      engine ss' = true /\
      exists calls records,
        calls_since SStub.fresh ss' calls /\
        records_since SStub.fresh ss' records /\
        (exists field, In (type_into field "secret") calls) /\
        In (driver_get "https://www.chess.com/analysis") calls /\
        In (INFO, Starting_game_loop) records)).
Proof.
  destruct (run Stub.four_plies Stub.working_page SStub.working 10 "user" "secret" 100
              SStub.fresh) as [[r ss'] |] eqn:E; [| vm_compute in E; discriminate E].
  destruct (run_plays_only_when_prepared Stub.four_plies Stub.working_page SStub.working
              10 "user" "secret" 100 SStub.fresh r ss' E) as (new & H).
  exists r, ss', new. split; [reflexivity | exact H].
Defined.

(** On a working site, with a working page and engine, [run] returns, and
    its last calls quit the engine and the browser. *)
Example run_on_a_working_site :
  option_map (fun out => (fst out, firstn 2 (session_calls (snd out))))
    (run Stub.four_plies Stub.working_page SStub.working 10 "user" "secret" 100 SStub.fresh)
  = Some (SOk tt, [driver_quit; engine_quit]).
Proof. vm_compute. reflexivity. Qed.

(** Without Stockfish at its path, the preparation stops at the engine:
    all it called is the set-up of the browser and the check of the path. *)
Lemma prepare_without_stockfish senv username password ss :
  engine ss = false ->
  (forall before path, os_path_exists senv before path = false) ->
  post (prepare senv username password) ss (fun r ss' =>
    (exists e, r = SRaise e) /\
    engine ss' = false /\
    exists calls,
      calls_since ss ss' calls /\ forallb is_setup_call calls = true).
Proof.
  intros Hengine Hmissing.
  unfold prepare. step. unfold setup_browser. steps.
  all: try (split; [eexists; reflexivity |]; split; [exact Hengine |];
            calls_added; reflexivity).
  all: unfold setup_engine;
    repeat (step;
            try match goal with
                | E : os_path_exists _ _ _ = ?a |- _ =>
                    rewrite Hmissing in E; subst a; cbn [negb]
                end).
  all: split; [eexists; reflexivity |]; split; [exact Hengine |];
    calls_added; reflexivity.
Qed.

Lemma quits_the_browser_only calls :
  Forall (fun c => c = engine_quit \/ c = driver_quit) calls ->
  ~ In engine_quit calls ->
  Forall (fun c => is_setup_call c = true \/ c = driver_quit) calls.
Proof.
  intros Hall Hno. rewrite Forall_forall in *. intros c Hc.
  destruct (Hall c Hc) as [-> | ->]; [contradiction | right; reflexivity].
Qed.

(** X17: without Stockfish at its path, [run] still returns; it starts no
    engine, loads no page, types nothing and does not use the move path: its
    only calls are those that set the browser up, the check of the path, and
    the quit of the browser, which is made whenever a browser was started. *)
Theorem run_without_stockfish rules env senv fuel username password max_moves ss :
  engine ss = false ->
  (forall before path, os_path_exists senv before path = false) ->
  exists r ss',
    run rules env senv fuel username password max_moves ss = Some (r, ss') /\
    no_Exception r /\
    engine ss' = false /\
    (exists new,
        history (bot ss') = new ++ history (bot ss) /\ forallb is_json_dump new = true) /\
    exists calls,
      calls_since ss ss' calls /\
      Forall (fun c => is_setup_call c = true \/ c = driver_quit) calls /\
      (driver ss' = true -> In driver_quit calls).
Proof.
  intros Hengine Hmissing. unfold run.
  pose proof (prepare_without_stockfish senv username password ss Hengine Hmissing) as Hp.
  pose proof (keeps_prepare senv username password ss) as Hbot.
  unfold post in Hp.
  destruct (prepare senv username password ss) as [r1 ss1]; cbn [fst snd] in *.
  destruct Hp as ([e ->] & Hengine1 & calls1 & Hcalls1 & Hsetup).
  pose proof (conclude_post env senv (SRaise e) ss1) as Hc.
  destruct (conclude env senv (SRaise e, ss1)) as [r ss'] eqn:Econclude.
  cbn [fst snd] in Hc.
  destruct Hc as (Hno & He & Hd & (new & Hnew & Hdump) & _
                  & calls & Hcalls & Hall & Hin_e & _ & Hquit).
  exists r, ss'. split; [reflexivity |]. split; [exact Hno |].
  split; [congruence |].
  split; [exists new; split; [rewrite Hnew, Hbot; reflexivity | exact Hdump] |].
  exists (calls ++ calls1). unfold calls_since in *.
  split; [rewrite Hcalls, Hcalls1, app_assoc; reflexivity |].
  split.
  - apply Forall_app. split.
    + apply quits_the_browser_only; [exact Hall |].
      rewrite Hin_e. congruence.
    + rewrite forallb_forall in Hsetup. apply Forall_forall. intros c Hc. left.
      apply Hsetup, Hc.
  - intro Hdriver. apply in_or_app. left. apply Hquit; [congruence |].
    intro H. congruence.
Qed.

Lemma run_without_stockfish_witness :
  exists r ss',
    run Stub.four_plies Stub.working_page SStub.no_stockfish 10 "user" "secret" 100
      SStub.fresh = Some (r, ss') /\
    no_Exception r /\
    engine ss' = false /\
    (exists new,
        history (bot ss') = new ++ history (bot SStub.fresh) /\
        forallb is_json_dump new = true) /\
    exists calls,
      calls_since SStub.fresh ss' calls /\
      Forall (fun c => is_setup_call c = true \/ c = driver_quit) calls /\
      (driver ss' = true -> In driver_quit calls).
Proof.
  apply (run_without_stockfish Stub.four_plies Stub.working_page SStub.no_stockfish 10
           "user" "secret" 100 SStub.fresh).
  - reflexivity.
  - intros before path. reflexivity.
Defined.

(** ** A game that goes through *)

Section Cooperation.

Variable rules : chess.Rules.
Variable env : Env.
Variable el : Handle.
Variables W H : pyfloat.double.
Variable max_moves : Z.

Hypothesis board_found : forall h, find_element env h = Ok (Some el).
Hypothesis board_size : forall h, rect env h el = Ok (W, H).
Hypothesis wide_enough : (16 <= W)%Q.
Hypothesis scroll_works : forall h, execute_scroll env h el = Ok tt.
Hypothesis pointer_works : forall h steps, perform_actions env h steps = Ok tt.
Hypothesis game_goes_on :
  forall b, Z.of_nat (List.length b) < max_moves -> chess.is_game_over rules b = false.
Hypothesis engine_answers :
  forall h b t, Z.of_nat (List.length b) < max_moves ->
    exists m, play env h b t = Ok (Some m) /\ chess.Move_bool m = true /\ well_formed_move m.

Lemma execute_move_goes_through m s :
  well_formed_move m -> fst (execute_move env m s) = Ok true.
Proof.
  intro Hm. rewrite execute_move_unfold.
  destruct (square_name_parse _ (proj1 Hm)) as (f1 & r1 & -> & _).
  destruct (square_name_parse _ (proj2 Hm)) as (f2 & r2 & -> & _).
  unfold methods. rewrite for_methods_cons.
  match goal with
  | |- context [execute_move_with_drag_drop env m ?s1] =>
      pose proof (execute_move_with_drag_drop_run env m el W H s1 Hm board_found board_size
                    wide_enough scroll_works pointer_works) as [Hr _];
      destruct (execute_move_with_drag_drop env m s1) as [r s2]
  end.
  cbn [fst] in Hr. subst r. reflexivity.
Qed.

(** One pass plays one move. *)
Lemma pass_goes_through l s :
  moves_played l = Z.of_nat (List.length (current_board l)) ->
  moves_played l < max_moves ->
  exists l' s',
    loop_body rules env l s = (Continue, l', s') /\
    moves_played l' = moves_played l + 1 /\
    moves_played l' = Z.of_nat (List.length (current_board l')).
Proof.
  intros Hinv Hlt.
  rewrite loop_body_unfold. cbv zeta.
  rewrite game_goes_on by (rewrite <- Hinv; exact Hlt).
  destruct (engine_answers (history s) (current_board l) 2) as (m & -> & -> & Hm);
    [rewrite <- Hinv; exact Hlt |].
  match goal with
  | |- context [execute_move env m ?s1] =>
      pose proof (execute_move_goes_through m s1 Hm) as Hr;
      destruct (execute_move env m s1) as [r s2]
  end.
  cbn [fst] in Hr. subst r. unfold played.
  eexists. eexists. split; [reflexivity |].
  cbn [moves_played current_board set_consecutive_failures].
  split; [reflexivity |].
  unfold chess.push. rewrite length_app, Nat2Z.inj_add, <- Hinv. reflexivity.
Qed.

Lemma loop_goes_through n :
  forall fuel l s,
    moves_played l = Z.of_nat (List.length (current_board l)) ->
    max_moves - moves_played l <= Z.of_nat n ->
    (n <= fuel)%nat ->
    exists l' s',
      while_loop rules env fuel max_moves l s = (Exited, l', s') /\
      moves_played l' = Z.max (moves_played l) max_moves /\
      moves_played l' = Z.of_nat (List.length (current_board l')).
Proof.
  induction n as [| n IH]; intros fuel l s Hinv Hleft Hfuel.
  - exists l, s.
    assert (E : (moves_played l <? max_moves) = false) by (apply Z.ltb_ge; lia).
    destruct fuel; simpl; rewrite E; (split; [reflexivity | split; [lia | exact Hinv]]).
  - destruct (moves_played l <? max_moves) eqn:E.
    + apply Z.ltb_lt in E.
      destruct fuel as [| fuel]; [lia |].
      destruct (pass_goes_through l s Hinv E) as (l1 & s1 & Hbody & Hplayed & Hinv1).
      destruct (IH fuel l1 s1 Hinv1) as (l' & s' & Hloop & Hmax & Hinv'); [lia | lia |].
      exists l', s'. simpl. apply Z.ltb_lt in E. rewrite E, Hbody.
      apply Z.ltb_lt in E.
      split; [exact Hloop | split; [lia | exact Hinv']].
    + exists l, s. apply Z.ltb_ge in E.
      assert (E' : (moves_played l <? max_moves) = false) by (apply Z.ltb_ge; lia).
      destruct fuel; simpl; rewrite E'; (split; [reflexivity | split; [lia | exact Hinv]]).
Qed.

End Cooperation.

(** X18: on a page where the board is found with a width of at least 16,
    and the scroll and the pointer sequence go through, with an engine that
    answers a well-formed move and a game that is not over on every board of
    fewer than [max_moves] moves, [play_game_loop] returns within
    [max_moves] passes, having played exactly [max_moves] moves (none when
    [max_moves] is negative), all of them on the board it returns. *)
Theorem game_goes_through rules env el W H max_moves fuel s :
  (forall h, find_element env h = Ok (Some el)) ->
  (forall h, rect env h el = Ok (W, H)) ->
  (16 <= W)%Q ->
  (forall h, execute_scroll env h el = Ok tt) ->
  (forall h steps, perform_actions env h steps = Ok tt) ->
  (forall b, Z.of_nat (List.length b) < max_moves -> chess.is_game_over rules b = false) ->
  (forall h b t, Z.of_nat (List.length b) < max_moves ->
     exists m,
       play env h b t = Ok (Some m) /\ chess.Move_bool m = true /\ well_formed_move m) ->
  (Z.to_nat max_moves <= fuel)%nat ->
  exists l s',
    play_game_loop rules env fuel max_moves s = Some (l, s') /\
    moves_played l = Z.max 0 max_moves /\
    Z.of_nat (List.length (current_board l)) = Z.max 0 max_moves.
Proof.
  intros Hfound Hsize Hwide Hscroll Hpointer Hgame Hengine Hfuel.
  unfold play_game_loop.
  destruct (loop_goes_through rules env el W H max_moves Hfound Hsize Hwide Hscroll
              Hpointer Hgame Hengine (Z.to_nat max_moves) fuel initial_locals
              (logging INFO (Starting_game max_moves) s))
    as (l & s' & Hloop & Hplayed & Hinv).
  - reflexivity.
  - cbn [moves_played initial_locals]. lia.
  - exact Hfuel.
  - rewrite Hloop. exists l. eexists. split; [reflexivity |].
    cbn [moves_played initial_locals] in Hplayed. split; [exact Hplayed | congruence].
Qed.

Lemma game_goes_through_witness :
  exists l s',
    play_game_loop Stub.endless Stub.working_page 10 4 (new_bot true) = Some (l, s') /\
    moves_played l = Z.max 0 4 /\
    Z.of_nat (List.length (current_board l)) = Z.max 0 4.
Proof.
  apply (game_goes_through Stub.endless Stub.working_page 1%nat
           (pyfloat.pixels 800) (pyfloat.pixels 800) 4 10 (new_bot true)).
  - intro h. reflexivity.
  - intro h. reflexivity.
  - vm_compute. discriminate.
  - intro h. reflexivity.
  - intros h steps. reflexivity.
  - intros b _. reflexivity.
  - intros h b t Hb.
    destruct b as [| m0 [| m1 [| m2 [| m3 b]]]];
      [ exists Stub.e2e4 | exists Stub.e7e5 | exists Stub.g1f3 | exists Stub.b8c6
      | cbn [List.length] in Hb; lia ];
      (split; [reflexivity | split; [reflexivity | split; reflexivity]]).
  - vm_compute. lia.
Defined.

(** ** Reaching the analysis board *)





Example navigate_on_a_working_site :
  fst (navigate_to_analysis_board SStub.working SStub.started) = SOk true.
Proof. vm_compute. reflexivity. Qed.

(** ** Looking for a square among the elements of the page *)

Lemma for_square_found env senv square selectors ss :
  post (for_square env senv square selectors) ss (fun r _ =>
    forall el, r = SOk (Some (direct el)) ->
    exists before before' selector,
      In selector selectors /\
      find_element_by senv before (CSS_SELECTOR, selector) = SOk el /\
      element_is_displayed senv before' el = SOk true).
Proof.
  revert ss. induction selectors as [| selector selectors IH]; intro ss.
  - cbn [for_square]. repeat (step || step_bot).
    all: intros el Hr; try discriminate Hr.
    all: destruct a; discriminate Hr.
  - cbn [for_square]. steps.
    all: try (eapply post_consequence; [apply IH |]; cbv beta;
              intros r ss' Hfound el Hr;
              destruct (Hfound el Hr) as (before & before' & selector' & Hin & Hel & Hshown);
              exists before, before', selector';
              split; [right; exact Hin | split; assumption]).
    all: intros el Hr; try discriminate Hr.
    injection Hr as <-. eexists. eexists. exists selector.
    split; [left; reflexivity |]. split; eassumption.
Qed.

(** X20: [find_square_element] lets no [Exception] out, and the element of
    the page it returns, if any, was found under one of the four selectors
    built from the name of the square ([data-square], [.square-], [#] and
    [class*=]) and was reported as displayed. *)
Theorem find_square_element_found env senv square ss :
  no_Exception (fst (find_square_element env senv square ss)) /\
  forall el,
    fst (find_square_element env senv square ss) = SOk (Some (direct el)) ->
    exists before before' selector,
      In selector [ "[data-square='" ++ square ++ "']"; ".square-" ++ square;
                    "#" ++ square; "[class*='" ++ square ++ "']" ]%string /\
      find_element_by senv before (CSS_SELECTOR, selector) = SOk el /\
      element_is_displayed senv before' el = SOk true.
Proof.
  split.
  - unfold find_square_element. apply no_Exception_try_catch. intros e ss1. exact I.
  - change (post (find_square_element env senv square) ss (fun r _ =>
              forall el, r = SOk (Some (direct el)) ->
              exists before before' selector,
                In selector (square_selectors square) /\
                find_element_by senv before (CSS_SELECTOR, selector) = SOk el /\
                element_is_displayed senv before' el = SOk true)).
    unfold find_square_element. step.
    eapply post_consequence; [apply for_square_found |]. cbv beta.
    intros r ss' Hfound. destruct r as [a | []]; cbn [is_Exception]; steps;
      try exact Hfound; intros el Hr; discriminate Hr.
Qed.
